(** * Lariat: a linked list of fixed-capacity arrays

    A shallow embedding of [lariat.h] / [lariat.cpp].  The container is a
    doubly linked chain of [LNode]s living in dynamically allocated memory.
    Memory is a finite map from addresses to nodes; a pointer is an
    [option] address ([None] is [nullptr]).  Every member function becomes
    a computation in a state-and-exception monad over the memory and the
    fields of the [Lariat] object.

    Conventions:
    - [int] values are modelled by [Z].  Signed overflow is undefined in
      C++ and would need more than [2^31 - 1] live elements; the model
      does not represent it.
    - Dereferencing [nullptr] or a freed node, and indexing [values]
      outside [0, Size), are undefined behaviour: the model yields
      [Fault].
    - [new LNode] may throw [std::bad_alloc].  The allocator is modelled
      by a budget [avail] of nodes it can still hand out.
    - [for] loops whose bound is not changed by their body run a trip
      count fixed on entry; pointer-chasing [while] loops take fuel and
      yield [OutOfFuel] when it is exhausted.
    - A [const T&] parameter is a reference, not a value: it may be bound
      to a slot of a node of the container, as in [l.insert(5, l[6])], and
      is read where the function reads it. *)

From stdpp Require Import gmap list.

Open Scope Z_scope.

(** ** Exceptions *)

Inductive LARIAT_EXCEPTION := E_NO_MEMORY | E_BAD_INDEX | E_DATA_ERROR.

Inductive exn :=
| bad_alloc
| LariatException (code : LARIAT_EXCEPTION).

Abbreviation ptr := (option positive).

(** ** Data model *)

Record LNode (T : Type) := mkLNode {
  next : ptr;
  prev : ptr;
  count : Z;
  values : list T
}.
Arguments mkLNode {T}.
Arguments next {T}.
Arguments prev {T}.
Arguments count {T}.
Arguments values {T}.

Record ElementInfo := mkInfo { node : ptr; localIndex : Z }.

(** What a [const T&] argument is bound to: an object outside the nodes
    (a temporary, a variable of the caller) holding [v], or the slot
    [p->values[i]] of a node. *)
Inductive cref (T : Type) :=
| Outside (v : T)
| Slot (p : ptr) (i : Z).
Arguments Outside {T}.
Arguments Slot {T}.

(** The memory holding the nodes, the allocator budget, and the data
    members of the [Lariat] object. *)
Record state (T : Type) := mkState {
  heap : gmap positive (LNode T);
  avail : nat;
  head_ : ptr;
  tail_ : ptr;
  size_ : Z;
  nodecount_ : Z;
  asize_ : Z
}.
Arguments mkState {T}.
Arguments heap {T}.
Arguments avail {T}.
Arguments head_ {T}.
Arguments tail_ {T}.
Arguments size_ {T}.
Arguments nodecount_ {T}.
Arguments asize_ {T}.

Inductive result (T A : Type) :=
| Ok (a : A) (s : state T)
| Throw (e : exn) (s : state T)
| Fault
| OutOfFuel.
Arguments Ok {T A}.
Arguments Throw {T A}.
Arguments Fault {T A}.
Arguments OutOfFuel {T A}.

Definition M (T A : Type) : Type := state T → result T A.

Global Instance M_ret {T} : MRet (M T) := λ A a s, Ok a s.

Global Instance M_bind {T} : MBind (M T) := λ A B f m s,
  match m s with
  | Ok a s' => f a s'
  | Throw e s' => Throw e s'
  | Fault => Fault
  | OutOfFuel => OutOfFuel
  end.

Section Lariat.
Context {T : Type}.
(** [Size] is the template parameter; [junk] is the content of a slot of
    a freshly constructed node. *)
Variable Size : Z.
Variable junk : T.
Hypothesis Size_pos : 1 ≤ Size.

Local Abbreviation LNode := (LNode T).
Local Abbreviation state := (state T).
Local Abbreviation M := (M T).
Local Abbreviation cref := (cref T).

Definition throw {A} (e : exn) : M A := λ s, Throw e s.
Definition fault {A} : M A := λ _, Fault.
Definition out_of_fuel {A} : M A := λ _, OutOfFuel.

(** [try { m } catch (const std::bad_alloc& e) { h }] *)
Definition try_catch_bad_alloc {A} (m : M A) (h : M A) : M A := λ s,
  match m s with
  | Throw bad_alloc s' => h s'
  | r => r
  end.

(** *** Memory primitives *)

Definition set_heap (h : gmap positive LNode) (s : state) : state :=
  mkState h (avail s) (head_ s) (tail_ s) (size_ s) (nodecount_ s) (asize_ s).
Definition set_head (p : ptr) (s : state) : state :=
  mkState (heap s) (avail s) p (tail_ s) (size_ s) (nodecount_ s) (asize_ s).
Definition set_tail (p : ptr) (s : state) : state :=
  mkState (heap s) (avail s) (head_ s) p (size_ s) (nodecount_ s) (asize_ s).
Definition set_size (z : Z) (s : state) : state :=
  mkState (heap s) (avail s) (head_ s) (tail_ s) z (nodecount_ s) (asize_ s).
Definition set_nodecount (z : Z) (s : state) : state :=
  mkState (heap s) (avail s) (head_ s) (tail_ s) (size_ s) z (asize_ s).

Definition get {A} (f : state → A) : M A := λ s, Ok (f s) s.
Definition modify (f : state → state) : M unit := λ s, Ok tt (f s).

Definition deref (p : ptr) : M LNode := λ s,
  match p with
  | Some a => match heap s !! a with Some n => Ok n s | None => Fault end
  | None => Fault
  end.

Definition store (p : ptr) (n : LNode) : M unit := λ s,
  match p with
  | Some a =>
      match heap s !! a with
      | Some _ => Ok tt (set_heap (<[a := n]> (heap s)) s)
      | None => Fault
      end
  | None => Fault
  end.

Definition get_next (p : ptr) : M ptr := n ← deref p; mret (next n).
Definition get_prev (p : ptr) : M ptr := n ← deref p; mret (prev n).
Definition get_count (p : ptr) : M Z := n ← deref p; mret (count n).

Definition set_next (p q : ptr) : M unit :=
  n ← deref p; store p (mkLNode q (prev n) (count n) (values n)).
Definition set_prev (p q : ptr) : M unit :=
  n ← deref p; store p (mkLNode (next n) q (count n) (values n)).
Definition set_count (p : ptr) (c : Z) : M unit :=
  n ← deref p; store p (mkLNode (next n) (prev n) c (values n)).

(** [p->values[i]] as an r-value and as an l-value; the array has
    [Size] slots. *)
Definition get_value (p : ptr) (i : Z) : M T :=
  n ← deref p;
  if (0 <=? i) && (i <? Size) then
    match values n !! Z.to_nat i with
    | Some v => mret v
    | None => fault
    end
  else fault.

(** reading through a [const T&] *)
Definition read (value : cref) : M T :=
  match value with
  | Outside v => mret v
  | Slot p i => get_value p i
  end.

Definition set_value (p : ptr) (i : Z) (v : T) : M unit :=
  n ← deref p;
  if (0 <=? i) && (i <? Size) && (i <? Z.of_nat (length (values n))) then
    store p (mkLNode (next n) (prev n) (count n) (<[Z.to_nat i := v]> (values n)))
  else fault.

(** [new LNode]: the member initialisers give null links and a zero
    count. *)
Definition new_LNode : M ptr := λ s,
  match avail s with
  | O => Throw bad_alloc s
  | S k =>
      let a := fresh (dom (heap s)) in
      Ok (Some a)
         (mkState (<[a := mkLNode None None 0 (replicate (Z.to_nat Size) junk)]> (heap s))
                  k (head_ s) (tail_ s) (size_ s) (nodecount_ s) (asize_ s))
  end.

(** [delete p] *)
Definition delete_LNode (p : ptr) : M unit := λ s,
  match p with
  | None => Ok tt s
  | Some a =>
      match heap s !! a with
      | Some _ =>
          Ok tt (mkState (delete a (heap s)) (S (avail s)) (head_ s) (tail_ s)
                         (size_ s) (nodecount_ s) (asize_ s))
      | None => Fault
      end
  end.

(** [for (i = start; <k more iterations>; ++i) acc = body i acc] *)
Fixpoint for_loop {A} (k : nat) (i : Z) (acc : A) (body : Z → A → M A) : M A :=
  match k with
  | O => mret acc
  | S k' => acc' ← body i acc; for_loop k' (i + 1) acc' body
  end.

Definition ptr_eqb (p q : ptr) : bool := bool_decide (p = q).

(** ** Construction *)

Definition Lariat_new (mem : nat) : state :=
  mkState ∅ mem None None 0 0 Size.

(** ** Private helpers *)

(** swaps every element between the index and the last element in the
    node's array in place *)
Definition shiftUp (node : ptr) (localIndex : Z) : M unit :=
  c ← get_count node;
  for_loop (Z.to_nat (c - (localIndex + 1))) (localIndex + 1) tt (λ i _,
    temp ← get_value node localIndex;
    x ← get_value node i;
    set_value node localIndex x;;
    set_value node i temp).

(** copies each element after local index over the element before it *)
Definition shiftDown (node : ptr) (localIndex : Z) : M unit :=
  c ← get_count node;
  for_loop (Z.to_nat (c - localIndex)) localIndex tt (λ i _,
    x ← get_value node (i + 1);
    set_value node i x).

Definition deleteNode (node : ptr) : M unit :=
  hd ← get head_;
  tl ← get tail_;
  if ptr_eqb node hd then
    match hd with
    | None => mret tt
    | Some _ =>
        nx ← get_next hd;
        match nx with
        | None =>
            delete_LNode hd;;
            modify (set_head None);;
            modify (set_tail None);;
            modify (λ s, set_nodecount (nodecount_ s - 1) s)
        | Some _ =>
            delete_LNode hd;;
            modify (set_head nx);;
            modify (λ s, set_nodecount (nodecount_ s - 1) s)
        end
    end
  else if ptr_eqb node tl then
    temp ← get_prev tl;
    set_next temp None;;
    set_next tl None;;
    delete_LNode tl;;
    modify (set_tail temp);;
    modify (λ s, set_nodecount (nodecount_ s - 1) s)
  else
    pv ← get_prev node;
    nx ← get_next node;
    set_next pv nx;;
    set_prev nx pv;;
    delete_LNode node;;
    modify (λ s, set_nodecount (nodecount_ s - 1) s).

Definition split (node : ptr) : M ptr :=
  tl ← get tail_;
  let isTail := ptr_eqb node tl in
  c ← get_count node;
  let numSplit := if Z.rem c 2 =? 0 then Z.quot c 2 - 1 else Z.quot c 2 in
  splitNode ← try_catch_bad_alloc new_LNode (throw (LariatException E_NO_MEMORY));
  c1 ← get_count node;
  for_loop (Z.to_nat (c1 - (c1 - numSplit))) (c1 - numSplit) 0 (λ i j,
    x ← get_value node i;
    set_value splitNode j x;;
    mret (j + 1));;
  sc ← get_count splitNode;
  set_count splitNode (sc + numSplit);;
  nc ← get_count node;
  set_count node (nc - numSplit);;
  nn ← get_next node;
  set_next splitNode nn;;
  set_next node splitNode;;
  set_prev splitNode node;;
  sn ← get_next splitNode;
  (match sn with
   | Some _ => set_prev sn splitNode
   | None => mret tt
   end);;
  modify (λ s, set_nodecount (nodecount_ s + 1) s);;
  (if isTail then modify (set_tail splitNode) else mret tt);;
  mret splitNode.

Definition push_first_value (value : cref) : M unit :=
  newNode ← try_catch_bad_alloc new_LNode (throw (LariatException E_NO_MEMORY));
  set_prev newNode None;;
  set_next newNode None;;
  modify (set_head newNode);;
  modify (set_tail newNode);;
  tl ← get tail_;
  tc ← get_count tl;
  v ← read value;
  set_value newNode tc v;;
  c ← get_count newNode;
  set_count newNode (c + 1);;
  modify (λ s, set_size (size_ s + 1) s);;
  modify (λ s, set_nodecount (nodecount_ s + 1) s).

Definition push_back_in_node (node : ptr) (value : cref) : M unit :=
  c ← get_count node;
  a ← get asize_;
  node ← (if a <=? c then split node else mret node);
  c ← get_count node;
  v ← read value;
  set_value node c v;;
  c ← get_count node;
  set_count node (c + 1);;
  modify (λ s, set_size (size_ s + 1) s).

(** [value] is read after [shiftUp] has rotated the node; [overflow] is
    a local variable of the function. *)
Definition insert_in_full_node (node : ptr) (localIndex : Z) (value : cref) : M unit :=
  shiftUp node localIndex;;
  overflow ← get_value node localIndex;
  v ← read value;
  set_value node localIndex v;;
  splitNode ← split node;
  push_back_in_node splitNode (Outside overflow).

Fixpoint find_element_loop (fuel : nat) (index indexSum : Z) (walker : ptr)
  : M ElementInfo :=
  match fuel with
  | O => out_of_fuel
  | S fuel' =>
      c ← get_count walker;
      if indexSum + c <=? index then
        nx ← get_next walker;
        find_element_loop fuel' index (indexSum + c) nx
      else mret (mkInfo walker (index - indexSum))
  end.

Definition find_element (fuel : nat) (index : Z) : M ElementInfo :=
  hd ← get head_;
  find_element_loop fuel index 0 hd.

(** ** Public interface *)

Definition push_back (value : cref) : M unit :=
  hd ← get head_;
  tl ← get tail_;
  if ptr_eqb hd None && ptr_eqb tl None then push_first_value value
  else
    tc ← get_count tl;
    a ← get asize_;
    (if tc =? a then split tl;; mret tt else mret tt);;
    tl ← get tail_;
    push_back_in_node tl value.

Definition push_front (value : cref) : M unit :=
  hd ← get head_;
  if ptr_eqb hd None then push_first_value value
  else
    hc ← get_count hd;
    a ← get asize_;
    if hc =? a then
      shiftUp hd 0;;
      overflow ← get_value hd 0;
      v ← read value;
      set_value hd 0 v;;
      splitNode ← split hd;
      push_back_in_node splitNode (Outside overflow)
    else
      c ← get_count hd;
      v ← read value;
      set_value hd c v;;
      c ← get_count hd;
      set_count hd (c + 1);;
      modify (λ s, set_size (size_ s + 1) s);;
      shiftUp hd 0.

Definition insert (fuel : nat) (index : Z) (value : cref) : M unit :=
  sz ← get size_;
  if (index <? 0) || (sz <? index) then throw (LariatException E_BAD_INDEX)
  else if index =? sz then push_back value
  else if index =? 0 then push_front value
  else
    insertInfo ← find_element fuel index;
    c ← get_count (node insertInfo);
    a ← get asize_;
    if c <? a then
      c ← get_count (node insertInfo);
      v ← read value;
      set_value (node insertInfo) c v;;
      c ← get_count (node insertInfo);
      set_count (node insertInfo) (c + 1);;
      modify (λ s, set_size (size_ s + 1) s);;
      shiftUp (node insertInfo) (localIndex insertInfo)
    else
      insert_in_full_node (node insertInfo) (localIndex insertInfo) value.

Definition pop_back : M unit :=
  tl ← get tail_;
  c ← get_count tl;
  set_count tl (c - 1);;
  modify (λ s, set_size (size_ s - 1) s);;
  tl ← get tail_;
  c ← get_count tl;
  if c =? 0 then deleteNode tl else mret tt.

Definition pop_front : M unit :=
  hd ← get head_;
  if ptr_eqb hd None then mret tt
  else
    shiftDown hd 0;;
    c ← get_count hd;
    set_count hd (c - 1);;
    modify (λ s, set_size (size_ s - 1) s);;
    hd ← get head_;
    c ← get_count hd;
    if c =? 0 then deleteNode hd else mret tt.

Definition erase (fuel : nat) (index : Z) : M unit :=
  sz ← get size_;
  if index =? 0 then pop_front
  else if index =? sz then pop_back
  else
    elementInfo ← find_element fuel index;
    shiftDown (node elementInfo) (localIndex elementInfo);;
    c ← get_count (node elementInfo);
    set_count (node elementInfo) (c - 1);;
    modify (λ s, set_size (size_ s - 1) s);;
    c ← get_count (node elementInfo);
    if c =? 0 then deleteNode (node elementInfo) else mret tt.

Definition size : M Z := get size_.

Fixpoint clear_loop (fuel : nat) (walker : ptr) : M unit :=
  match fuel with
  | O => out_of_fuel
  | S fuel' =>
      match walker with
      | None => mret tt
      | Some _ =>
          nx ← get_next walker;
          delete_LNode walker;;
          clear_loop fuel' nx
      end
  end.

Definition clear (fuel : nat) : M unit :=
  hd ← get head_;
  clear_loop fuel hd;;
  modify (set_size 0);;
  modify (set_nodecount 0);;
  modify (set_head None);;
  modify (set_tail None).

(** first loop of [compact]: step both feet while the left node is full
    and the right foot is on the list *)
Fixpoint compact_skip (fuel : nat) (leftFoot rightFoot : ptr) : M (ptr * ptr) :=
  match fuel with
  | O => out_of_fuel
  | S fuel' =>
      lc ← get_count leftFoot;
      a ← get asize_;
      if (lc =? a) && negb (ptr_eqb rightFoot None) then
        l' ← get_next leftFoot;
        r' ← get_next rightFoot;
        compact_skip fuel' l' r'
      else mret (leftFoot, rightFoot)
  end.

(** second loop of [compact]: pour every right node into the left foot *)
Fixpoint compact_pour (fuel : nat) (leftFoot rightFoot : ptr) : M unit :=
  match fuel with
  | O => out_of_fuel
  | S fuel' =>
      match rightFoot with
      | None => mret tt
      | Some _ =>
          rightFootCount ← get_count rightFoot;
          set_count rightFoot 0;;
          lc ← get_count leftFoot;
          a ← get asize_;
          leftFoot ← (if lc =? a then get_next leftFoot else mret leftFoot);
          leftFoot ← for_loop (Z.to_nat rightFootCount) 0 leftFoot (λ i leftFoot,
            x ← get_value rightFoot i;
            lc ← get_count leftFoot;
            set_value leftFoot lc x;;
            lc ← get_count leftFoot;
            set_count leftFoot (lc + 1);;
            lc ← get_count leftFoot;
            a ← get asize_;
            if lc =? a then get_next leftFoot else mret leftFoot);
          r' ← get_next rightFoot;
          compact_pour fuel' leftFoot r'
      end
  end.

(** third loop of [compact]: drop the empty nodes at the end *)
Fixpoint compact_trim (fuel : nat) : M unit :=
  match fuel with
  | O => out_of_fuel
  | S fuel' =>
      tl ← get tail_;
      c ← get_count tl;
      if c =? 0 then deleteNode tl;; compact_trim fuel' else mret tt
  end.

Definition compact (fuel : nat) : M unit :=
  hd ← get head_;
  if ptr_eqb hd None then mret tt
  else
    rf ← get_next hd;
    '(leftFoot, rightFoot) ← compact_skip fuel hd rf;
    compact_pour fuel leftFoot rightFoot;;
    compact_trim fuel.

(** *** Element access *)

(** [operator[]] returns a reference to the slot [find_element] names.
    The reference is modelled by its two uses: reading the slot and
    assigning to it. *)
Definition subscript_get (fuel : nat) (index : Z) : M T :=
  elementInfo ← find_element fuel index;
  get_value (node elementInfo) (localIndex elementInfo).

Definition subscript_set (fuel : nat) (index : Z) (value : T) : M unit :=
  elementInfo ← find_element fuel index;
  set_value (node elementInfo) (localIndex elementInfo) value.

(** [first()] and [last()], read *)
Definition Lariat_first : M T :=
  hd ← get head_;
  get_value hd 0.

Definition Lariat_last : M T :=
  tl ← get tail_;
  c ← get_count tl;
  get_value tl (c - 1).

(** the [for] loop of [find] over one node: it leaves the function as
    soon as a slot compares equal *)
Fixpoint find_in_node `{EqDecision T} (k : nat) (walker : ptr) (i index : Z) (value : T)
  : M (option Z) :=
  match k with
  | O => mret None
  | S k' =>
      x ← get_value walker i;
      if decide (x = value) then mret (Some index)
      else find_in_node k' walker (i + 1) (index + 1) value
  end.

Fixpoint find_loop `{EqDecision T} (fuel : nat) (walker : ptr) (index : Z) (value : T)
  : M Z :=
  match fuel with
  | O => out_of_fuel
  | S fuel' =>
      match walker with
      | None => get size_
      | Some _ =>
          c ← get_count walker;
          r ← find_in_node (Z.to_nat c) walker 0 index value;
          match r with
          | Some found => mret found
          | None =>
              nx ← get_next walker;
              find_loop fuel' nx (index + c) value
          end
      end
  end.

(** [find]: the index of the first element equal to [value], or [size_].
    The result type is [unsigned]; both results are non-negative [int]s.
    [find] writes nothing, so what its [const T&] argument refers to
    cannot change during the call: the model takes the value it holds. *)
Definition Lariat_find `{EqDecision T} (fuel : nat) (value : T) : M Z :=
  hd ← get head_;
  find_loop fuel hd 0 value.

(** *** Copying *)

(** The loops shared by the copy constructor and [operator=]: walk the
    chain that starts at [walker] and [push_back] every live element.
    [i] is the counter of the inner [for] loop, whose bound
    [walker->count] is read again at every round.  [push_back] receives
    a reference to the slot [walker->values[i]]. *)
Fixpoint copy_loop (fuel : nat) (walker : ptr) (i : Z) : M unit :=
  match fuel with
  | O => out_of_fuel
  | S fuel' =>
      match walker with
      | None => mret tt
      | Some _ =>
          c ← get_count walker;
          if i <? c then
            push_back (Slot walker i);;
            copy_loop fuel' walker (i + 1)
          else
            nx ← get_next walker;
            copy_loop fuel' nx 0
      end
  end.

(** [Lariat(const Lariat& rhs)]: the new object is built in the memory
    that holds the nodes of [rhs]; of [rhs] only [head_] is read. *)
Definition Lariat_copy (fuel : nat) (rhs_head : ptr) : M unit :=
  modify (λ s, mkState (heap s) (avail s) None None 0 0 Size);;
  copy_loop fuel rhs_head 0.

(** The argument of [operator=]: the object assigned to itself, or
    another object, given by its [head_]. *)
Inductive operand := This | Other (other_head : ptr).

(** [operator=]: [other.head_] is read after [clear()] has run. *)
Definition Lariat_assign (fuel : nat) (other : operand) : M unit :=
  clear fuel;;
  walker ← match other with
           | This => get head_
           | Other h => mret h
           end;
  copy_loop fuel walker 0.

(** [~Lariat()] *)
Definition Lariat_destroy (fuel : nat) : M unit := clear fuel.

(** ** Observation: front-to-back traversal, as the stream output and the
    copy constructor perform it *)

Fixpoint walk (fuel : nat) (h : gmap positive LNode) (walker : ptr)
  : option (list (Z * list T)) :=
  match walker with
  | None => Some []
  | Some a =>
      match fuel with
      | O => None
      | S fuel' =>
          n ← h !! a;
          rest ← walk fuel' h (next n);
          Some ((count n, take (Z.to_nat (count n)) (values n)) :: rest)
      end
  end.

(** the live elements, in traversal order *)
Definition elements (fuel : nat) (s : state) : option (list T) :=
  segs ← walk fuel (heap s) (head_ s);
  Some (concat (segs.*2)).

(** the counts of the nodes, in traversal order *)
Definition counts (fuel : nat) (s : state) : option (list Z) :=
  segs ← walk fuel (heap s) (head_ s);
  Some (segs.*1).

(** the nodes in traversal order, each as its count and live elements *)
Definition segments (fuel : nat) (s : state) : option (list (Z * list T)) :=
  walk fuel (heap s) (head_ s).


(** ** The abstract view of a container

    A well-formed container is described by the list of its nodes in
    chain order, each paired with its address. *)

Definition live (n : LNode) : list T := take (Z.to_nat (count n)) (values n).

Definition contents (L : list (positive * LNode)) : list T :=
  concat ((λ p, live p.2) <$> L).

Fixpoint total (L : list (positive * LNode)) : Z :=
  match L with
  | [] => 0
  | p :: L' => count p.2 + total L'
  end.

Definition first_addr (L : list (positive * LNode)) (post : ptr) : ptr :=
  match L with
  | [] => post
  | p :: _ => Some p.1
  end.

Definition last_addr (pre : ptr) (L : list (positive * LNode)) : ptr :=
  match last L with
  | Some p => Some p.1
  | None => pre
  end.

(** [lk pre L post]: the nodes of [L] are linked to each other in order;
    the first one points back to [pre] (no constraint when [pre] is
    null: the head's [prev] is never read) and the last one points
    forward to [post]. *)
Fixpoint lk (pre : ptr) (L : list (positive * LNode)) (post : ptr) : Prop :=
  match L with
  | [] => True
  | p :: L' =>
      match pre with Some b => prev p.2 = Some b | None => True end
      ∧ next p.2 = first_addr L' post
      ∧ lk (Some p.1) L' post
  end.

Definition agree (h : gmap positive LNode) (L : list (positive * LNode)) : Prop :=
  Forall (λ p, h !! p.1 = Some p.2) L.

Definition node_ok (n : LNode) : Prop :=
  0 ≤ count n ≤ Size ∧ length (values n) = Z.to_nat Size.

Record chain_ok (s : state) (L : list (positive * LNode)) : Prop := mk_chain_ok {
  ck_nodup : NoDup L.*1;
  ck_agree : agree (heap s) L;
  ck_links : lk None L None;
  ck_head : head_ s = first_addr L None;
  ck_tail : tail_ s = last_addr None L;
  ck_nodes : Forall (λ p, node_ok p.2) L;
  ck_size : size_ s = total L;
  ck_nodecount : nodecount_ s = Z.of_nat (length L);
  ck_asize : asize_ s = Size
}.

(** The container invariant: a chain of non-empty nodes. *)
Definition WF (s : state) : Prop :=
  ∃ L, chain_ok s L ∧ Forall (λ p, 1 ≤ count p.2) L.

Definition upd_values (n : LNode) (vs : list T) : LNode :=
  mkLNode (next n) (prev n) (count n) vs.
Definition upd_count (n : LNode) (c : Z) : LNode :=
  mkLNode (next n) (prev n) c (values n).
Definition upd_next (n : LNode) (q : ptr) : LNode :=
  mkLNode q (prev n) (count n) (values n).
Definition upd_prev (n : LNode) (q : ptr) : LNode :=
  mkLNode (next n) q (count n) (values n).

(** ** Notions used in the specifications *)

(** what the swaps of [shiftUp] make of [x :: todo]: the element in the
    pivot slot after every swap, followed by the elements swapped out *)
Fixpoint rot (x : T) (done todo : list T) : list T :=
  match todo with
  | [] => x :: done
  | y :: todo' => rot y (done ++ [x]) todo'
  end.

(** The links of a chain only depend on the addresses and the [next] and
    [prev] fields. *)
Definition same_links (p q : positive * LNode) : Prop :=
  p.1 = q.1 ∧ next p.2 = next q.2 ∧ prev p.2 = prev q.2.

(** a node as the traversal shows it *)
Definition seg_view (p : positive * LNode) : Z * list T :=
  (count p.2, live p.2).

(** the chain [L] with the [prev] field of its first node set to [q] *)
Definition set_first_prev (q : ptr) (L : list (positive * LNode))
  : list (positive * LNode) :=
  match L with
  | [] => []
  | p :: r => (p.1, upd_prev p.2 q) :: r
  end.

(** the number of elements [split] moves to the new node *)
Definition numSplit_of (c : Z) : Z :=
  if Z.rem c 2 =? 0 then Z.quot c 2 - 1 else Z.quot c 2.

(** the two halves of a node after [split]; [b] is the address of the
    new node and [a] the address of the split one *)
Definition split_left (n : LNode) (b : positive) : LNode :=
  mkLNode (Some b) (prev n) (count n - numSplit_of (count n)) (values n).

Definition split_right (n : LNode) (a : positive) : LNode :=
  mkLNode (next n) (Some a) (numSplit_of (count n))
    (take (Z.to_nat (numSplit_of (count n)))
       (drop (Z.to_nat (count n - numSplit_of (count n))) (values n))
     ++ replicate (Z.to_nat (Size - numSplit_of (count n))) junk).

(** two nodes at the same address with the same count and array
    contents (only their links may differ) *)
Definition same_data (p q : positive * LNode) : Prop :=
  p.1 = q.1 ∧ count p.2 = count q.2 ∧ values p.2 = values q.2.

(** the node after [v] has been appended to it *)
Definition node_push (n : LNode) (v : T) : LNode :=
  mkLNode (next n) (prev n) (count n + 1) (<[Z.to_nat (count n) := v]> (values n)).

(** the only node of a container holding just [v] *)
Definition first_node (v : T) : LNode :=
  mkLNode None None 1 (<[0%nat := v]> (replicate (Z.to_nat Size) junk)).

(** [good s L]: [s] is a well-formed container whose chain is [L], with
    no empty node. *)
Definition good (s : state) (L : list (positive * LNode)) : Prop :=
  chain_ok s L ∧ Forall (λ p, 1 ≤ count p.2) L.

(** the node after [value] has been inserted at [l], when it had room *)
Definition inserted_with_room (n n' : LNode) (l : Z) (v : T) : Prop :=
  next n' = next n ∧ prev n' = prev n ∧ count n' = count n + 1 ∧ node_ok n'
  ∧ live n' = take (Z.to_nat l) (live n) ++ v :: drop (Z.to_nat l) (live n).

(** The outcome of an operation that may need a new node: it succeeds
    with contents satisfying [P], or runs out of memory. *)
Definition ok_or_oom (r : result T unit) (s : state) (P : list T → Prop) : Prop :=
  (∃ s' L', r = Ok tt s' ∧ good s' L' ∧ P (contents L'))
  ∨ (avail s = O ∧ ∃ s' L',
       r = Throw (LariatException E_NO_MEMORY) s' ∧ good s' L').

(** one iteration of the copy loop of [compact] *)
Definition pour_body (rightFoot : ptr) (i : Z) (leftFoot : ptr) : M ptr :=
  x ← get_value rightFoot i;
  lc ← get_count leftFoot;
  set_value leftFoot lc x;;
  lc ← get_count leftFoot;
  set_count leftFoot (lc + 1);;
  lc ← get_count leftFoot;
  a ← get asize_;
  if lc =? a then get_next leftFoot else mret leftFoot.

(** While [compact] pours, [size_] is not the sum of the counts: the
    chain is only structurally well-formed. *)
Definition chain_str (s : state) (L : list (positive * LNode)) : Prop :=
  chain_ok (set_size (total L) s) L.

(** The invariant of the pouring loop: full nodes, then the left foot on
    a node with room, then emptied nodes, then the nodes still to pour. *)
Record pouring (s : state) (A : list (positive * LNode)) (la : positive) (ln : LNode)
    (Z R : list (positive * LNode)) : Prop := mk_pouring {
  po_chain : chain_str s (A ++ (la, ln) :: Z ++ R);
  po_full : Forall (λ p, count p.2 = Size) A;
  po_room : count ln < Size;
  po_empty : Forall (λ p, count p.2 = 0) Z
}.

(** a chain that is not empty and whose last node is not empty *)
Definition ends_nonempty (B : list (positive * LNode)) : Prop :=
  ∃ B0 t tn, B = B0 ++ [(t, tn)] ∧ 1 ≤ count tn.

(** A packed chain: full nodes, then at most one partly filled node. *)
Definition packed (L : list (positive * LNode)) : Prop :=
  ∃ A B, L = A ++ B ∧ Forall (λ p, count p.2 = Size) A
    ∧ (B = [] ∨ ∃ x n, B = [(x, n)] ∧ 1 ≤ count n < Size).

(** [raises P m]: every exception that escapes [m] satisfies [P]. *)
Definition raises {A} (P : exn → Prop) (m : M A) : Prop :=
  ∀ s e s', m s = Throw e s' → P e.

(** *** Sequences of calls of the public interface *)

Inductive op :=
| Insert (index : Z) (value : cref)
| PushBack (value : cref)
| PushFront (value : cref)
| Erase (index : Z)
| PopBack
| PopFront
| Clear
| Compact.

Definition exec (fuel : nat) (o : op) : M unit :=
  match o with
  | Insert index value => insert fuel index value
  | PushBack value => push_back value
  | PushFront value => push_front value
  | Erase index => erase fuel index
  | PopBack => pop_back
  | PopFront => pop_front
  | Clear => clear fuel
  | Compact => compact fuel
  end.

(** [by_ref F]: what [F] does with a reference it also does with a value
    passed from outside, namely the value the reference yields where [F]
    reads it (unless that read is undefined behaviour). *)
Definition by_ref {A} (F : cref → M A) : Prop :=
  ∀ value s, F value s = Fault ∨ ∃ v, F value s = F (Outside v) s.

(** [keeps p i v R m]: a run of [m] that returns leaves [v] in the slot
    [p->values[i]], and its result satisfies [R]. *)
Definition keeps {A} (p : ptr) (i : Z) (v : T) (R : A → Prop) (m : M A) : Prop :=
  ∀ s a s', get_value p i s = Ok v s → m s = Ok a s' →
            get_value p i s' = Ok v s' ∧ R a.

(** [same_read p i v F]: while the slot [p->values[i]] holds [v], [F]
    does with a reference to that slot what it does with [v] passed from
    outside. *)
Definition same_read {A} (p : ptr) (i : Z) (v : T) (F : cref → M A) : Prop :=
  ∀ s, get_value p i s = Ok v s → F (Slot p i) s = F (Outside v) s.

(** the call [o] with an outside object holding [v] as its argument *)
Definition with_value (o : op) (v : T) : op :=
  match o with
  | Insert index _ => Insert index (Outside v)
  | PushBack _ => PushBack (Outside v)
  | PushFront _ => PushFront (Outside v)
  | Erase index => Erase index
  | PopBack => PopBack
  | PopFront => PopFront
  | Clear => Clear
  | Compact => Compact
  end.

(** the call came back, normally or with an exception *)
Definition returns (r : result T unit) (s' : state) : Prop :=
  r = Ok tt s' ∨ ∃ e, r = Throw e s'.

(** the states a container can be in: freshly constructed, or after a
    call that came back *)
Inductive reachable : state → Prop :=
| reach_new mem : reachable (Lariat_new mem)
| reach_step s o fuel s' :
    reachable s → returns (exec fuel o s) s' → reachable s'.

(** running a list of calls; a call that throws leaves the container in
    the state it was thrown in, a fault ends the run *)
Fixpoint after (fuel : nat) (ops : list op) (s : state) : state :=
  match ops with
  | [] => s
  | o :: ops' =>
      match exec fuel o s with
      | Ok _ s' => after fuel ops' s'
      | Throw _ s' => after fuel ops' s'
      | Fault => s
      | OutOfFuel => s
      end
  end.

(** *** Counting *)

Definition sumZ (cs : list Z) : Z := foldr Z.add 0 cs.

(** the counts of a packed chain holding [len] elements *)
Definition packed_counts (len : Z) : list Z :=
  replicate (Z.to_nat (len / Size)) Size
  ++ (if len mod Size =? 0 then [] else [len mod Size]).

(** *** Memory accounting *)

(** the number of nodes allocated and not yet deleted *)
Definition allocated (s : state) : Z := Z.of_nat (base.size (heap s)).

(** how many allocated nodes [nodecount_] does not account for *)
Definition gap (s : state) : Z := allocated s - nodecount_ s.

(** [gap_shift d m]: when [m] returns normally the gap has grown by [d],
    and when it throws the gap is what it was. *)
Definition gap_shift {A} (d : Z) (m : M A) : Prop :=
  ∀ s, match m s with
       | Ok _ s' => gap s' = gap s + d
       | Throw _ s' => gap s' = gap s
       | Fault | OutOfFuel => True
       end.

(** ** Tactics and list facts *)

Ltac list_len :=
  repeat first
    [ rewrite length_app | rewrite length_insert | rewrite length_take
    | rewrite length_drop | rewrite length_replicate | progress cbn [length] ].

Lemma lookup_at {A} (pre : list A) x rest i :
  i = length pre → (pre ++ x :: rest) !! i = Some x.
Proof. intros ->. by apply list_lookup_middle. Qed.

Lemma insert_at {A} (pre : list A) x y rest i :
  i = length pre → <[i := y]> (pre ++ x :: rest) = pre ++ y :: rest.
Proof.
  intros ->. rewrite insert_app_r_alt by lia. by rewrite Nat.sub_diag.
Qed.

Ltac st_eq := repeat (f_equal; []).

Ltac list_norm := repeat (rewrite <- ?app_assoc; simpl).

Ltac mred :=
  unfold set_heap, set_head, set_tail, set_size, set_nodecount,
         upd_values, upd_count, upd_next, upd_prev;
  cbn [heap avail head_ tail_ size_ nodecount_ asize_
       next prev count values node localIndex].

Ltac hlookup :=
  mred; repeat (rewrite lookup_insert_ne by congruence);
  first [ apply lookup_insert_eq | eassumption ].

(** ** Running the primitives *)

Lemma bind_Ok {A B} (m : M A) (f : A → M B) s a s' :
  m s = Ok a s' → (m ≫= f) s = f a s'.
Proof. intros H. unfold mbind, M_bind. by rewrite H. Qed.

Lemma run_deref a n s :
  heap s !! a = Some n → deref (Some a) s = Ok n s.
Proof. intros H. unfold deref. by rewrite H. Qed.

Lemma run_store a n n' s :
  heap s !! a = Some n →
  store (Some a) n' s = Ok tt (set_heap (<[a := n']> (heap s)) s).
Proof. intros H. unfold store. by rewrite H. Qed.

Lemma run_get_count a n s :
  heap s !! a = Some n → get_count (Some a) s = Ok (count n) s.
Proof. intros H. unfold get_count. by rewrite (bind_Ok _ _ _ _ _ (run_deref _ _ _ H)). Qed.

Lemma run_get_next a n s :
  heap s !! a = Some n → get_next (Some a) s = Ok (next n) s.
Proof. intros H. unfold get_next. by rewrite (bind_Ok _ _ _ _ _ (run_deref _ _ _ H)). Qed.

Lemma run_get_prev a n s :
  heap s !! a = Some n → get_prev (Some a) s = Ok (prev n) s.
Proof. intros H. unfold get_prev. by rewrite (bind_Ok _ _ _ _ _ (run_deref _ _ _ H)). Qed.

Lemma run_set_count a n c s :
  heap s !! a = Some n →
  set_count (Some a) c s = Ok tt (set_heap (<[a := upd_count n c]> (heap s)) s).
Proof.
  intros H. unfold set_count.
  rewrite (bind_Ok _ _ _ _ _ (run_deref _ _ _ H)). by eapply run_store.
Qed.

Lemma run_set_next a n q s :
  heap s !! a = Some n →
  set_next (Some a) q s = Ok tt (set_heap (<[a := upd_next n q]> (heap s)) s).
Proof.
  intros H. unfold set_next.
  rewrite (bind_Ok _ _ _ _ _ (run_deref _ _ _ H)). by eapply run_store.
Qed.

Lemma run_set_prev a n q s :
  heap s !! a = Some n →
  set_prev (Some a) q s = Ok tt (set_heap (<[a := upd_prev n q]> (heap s)) s).
Proof.
  intros H. unfold set_prev.
  rewrite (bind_Ok _ _ _ _ _ (run_deref _ _ _ H)). by eapply run_store.
Qed.

Lemma run_get_value a n i v s :
  heap s !! a = Some n → 0 ≤ i < Size → values n !! Z.to_nat i = Some v →
  get_value (Some a) i s = Ok v s.
Proof.
  intros H Hi Hv. unfold get_value.
  rewrite (bind_Ok _ _ _ _ _ (run_deref _ _ _ H)).
  replace (0 <=? i) with true by lia. replace (i <? Size) with true by lia.
  simpl. by rewrite Hv.
Qed.

Lemma run_set_value a n i v s :
  heap s !! a = Some n → 0 ≤ i < Size → length (values n) = Z.to_nat Size →
  set_value (Some a) i v s =
  Ok tt (set_heap (<[a := upd_values n (<[Z.to_nat i := v]> (values n))]> (heap s)) s).
Proof.
  intros H Hi Hl. unfold set_value.
  rewrite (bind_Ok _ _ _ _ _ (run_deref _ _ _ H)).
  replace (0 <=? i) with true by lia. replace (i <? Size) with true by lia.
  replace (i <? Z.of_nat (length (values n))) with true by lia.
  simpl. by eapply run_store.
Qed.

Lemma run_delete_LNode a n s :
  heap s !! a = Some n →
  delete_LNode (Some a) s
  = Ok tt (mkState (delete a (heap s)) (S (avail s)) (head_ s) (tail_ s)
                   (size_ s) (nodecount_ s) (asize_ s)).
Proof. intros H. unfold delete_LNode. by rewrite H. Qed.

(** Reading slot [Size] of the array is out of bounds. *)
Lemma run_get_value_oob p i s :
  Size ≤ i → get_value p i s = Fault.
Proof.
  intros Hi. unfold get_value, deref, mbind, M_bind.
  destruct p as [a|]; [|done]. destruct (heap s !! a); [|done].
  replace (i <? Size) with false by lia. by rewrite andb_false_r.
Qed.


Lemma set_heap_set_heap h1 h2 (s : state) :
  set_heap h2 (set_heap h1 s) = set_heap h2 s.
Proof. done. Qed.

Lemma set_heap_id (s : state) : set_heap (heap s) s = s.
Proof. by destruct s. Qed.

Lemma upd_values_id (n : LNode) : upd_values n (values n) = n.
Proof. by destruct n. Qed.

Lemma upd_values_twice (n : LNode) v1 v2 :
  upd_values (upd_values n v1) v2 = upd_values n v2.
Proof. done. Qed.

Lemma set_heap_insert_id a n (s : state) :
  heap s !! a = Some n → set_heap (<[a := n]> (heap s)) s = s.
Proof. intros H. rewrite insert_id by done. apply set_heap_id. Qed.

(** *** [shiftUp] on one node

    The swaps rotate the range [localIndex, count) right by one: with
    [x] at [localIndex], [done] the elements already passed and [todo]
    the elements still to be swapped, the range ends as [rot x done todo]. *)

Lemma rot_snoc t : ∀ x done v, rot x done (t ++ [v]) = v :: done ++ x :: t.
Proof.
  induction t as [|y t IH]; intros x done v; simpl.
  - done.
  - rewrite IH. by rewrite <- app_assoc.
Qed.

Lemma length_rot todo : ∀ x done, length (rot x done todo) = S (length done + length todo).
Proof.
  induction todo as [|y todo IH]; intros x done; simpl.
  - lia.
  - rewrite IH, length_app. simpl. lia.
Qed.

Lemma shiftUp_loop_spec todo : ∀ x done pre post a n (s : state),
  heap s !! a = Some n →
  values n = pre ++ x :: done ++ todo ++ post →
  length (values n) = Z.to_nat Size →
  for_loop (length todo) (Z.of_nat (length pre + 1 + length done)) tt
    (λ i _,
      temp ← get_value (Some a) (Z.of_nat (length pre));
      y ← get_value (Some a) i;
      set_value (Some a) (Z.of_nat (length pre)) y;;
      set_value (Some a) i temp) s
  = Ok tt (set_heap (<[a := upd_values n (pre ++ rot x done todo ++ post)]> (heap s)) s).
Proof.
  induction todo as [|y todo IH]; intros x done pre post a n s Ha Hv Hlen.
  - simpl. unfold mret, M_ret. rewrite app_nil_l in Hv. rewrite <- Hv.
    rewrite upd_values_id. by rewrite set_heap_insert_id.
  - assert (Hsz : (length pre + 1 + length done + 1 + length todo + length post)%nat
                  = Z.to_nat Size).
    { rewrite <- Hlen, Hv. list_len. lia. }
    cbn [for_loop length].
    assert (Hx : values n !! Z.to_nat (Z.of_nat (length pre)) = Some x).
    { rewrite Nat2Z.id, Hv. by rewrite list_lookup_middle. }
    assert (Hy : values n !! Z.to_nat (Z.of_nat (length pre + 1 + length done)) = Some y).
    { rewrite Nat2Z.id, Hv.
      replace (pre ++ x :: done ++ (y :: todo) ++ post)
        with ((pre ++ x :: done) ++ y :: todo ++ post)
        by (by rewrite <- app_assoc).
      apply list_lookup_middle. list_len. lia. }
    rewrite (bind_Ok _ _ s tt
      (set_heap (<[a := upd_values n (pre ++ y :: (done ++ [x]) ++ todo ++ post)]> (heap s)) s)).
    2:{ erewrite bind_Ok; [|eapply run_get_value; [exact Ha| lia | exact Hx]].
        erewrite bind_Ok; [|eapply run_get_value; [exact Ha| lia | exact Hy]].
        erewrite bind_Ok; [|eapply run_set_value; [exact Ha| lia | exact Hlen]].
        erewrite run_set_value.
        2:{ cbn [heap set_heap]. apply lookup_insert_eq. }
        2:{ lia. }
        2:{ cbn [values upd_values]. by rewrite length_insert. }
        cbn [heap set_heap avail head_ tail_ size_ nodecount_ asize_].
        rewrite insert_insert_eq. unfold set_heap. do 3 f_equal.
        cbn [values upd_values next prev count]. unfold upd_values. f_equal.
        rewrite !Nat2Z.id, Hv.
        rewrite (insert_at pre x y) by done.
        replace (pre ++ y :: done ++ (y :: todo) ++ post)
          with ((pre ++ y :: done) ++ y :: todo ++ post)
          by (by rewrite <- app_assoc).
        rewrite (insert_at (pre ++ y :: done) y x) by (list_len; lia).
        by list_norm. }
    replace (Z.of_nat (length pre + 1 + length done) + 1)
      with (Z.of_nat (length pre + 1 + length (done ++ [x])))
      by (list_len; lia).
    rewrite (IH y (done ++ [x]) pre post a
               (upd_values n (pre ++ y :: (done ++ [x]) ++ todo ++ post))).
    + cbn [heap set_heap avail head_ tail_ size_ nodecount_ asize_].
      rewrite insert_insert_eq. by unfold set_heap.
    + cbn [heap set_heap]. apply lookup_insert_eq.
    + done.
    + cbn [values upd_values]. rewrite <- Hlen, Hv. list_len. lia.
Qed.



Lemma bind_get {A B} (f : state → A) (k : A → M B) s :
  (get f ≫= k) s = k (f s) s.
Proof. done. Qed.

Lemma bind_modify {B} (f : state → state) (k : unit → M B) s :
  (modify f ≫= k) s = k tt (f s).
Proof. done. Qed.

Lemma bind_mret {A B} (a : A) (k : A → M B) s :
  (mret a ≫= k) s = k a s.
Proof. done. Qed.

Lemma bind_read {B} (v : T) (k : T → M B) s :
  (read (Outside v) ≫= k) s = k v s.
Proof. done. Qed.

Lemma bind_assoc {A B C} (m : M A) (f : A → M B) (g : B → M C) s :
  ((m ≫= f) ≫= g) s = (m ≫= λ a, f a ≫= g) s.
Proof. unfold mbind, M_bind. by destruct (m s). Qed.

Lemma bind_Fault {A B} (m : M A) (f : A → M B) s :
  m s = Fault → (m ≫= f) s = Fault.
Proof. intros H. unfold mbind, M_bind. by rewrite H. Qed.

Lemma bind_Throw {A B} (m : M A) (f : A → M B) s e s' :
  m s = Throw e s' → (m ≫= f) s = Throw e s'.
Proof. intros H. unfold mbind, M_bind. by rewrite H. Qed.

Lemma run_mret {A} (a : A) (s : state) : mret (M:=M) a s = Ok a s.
Proof. done. Qed.

Lemma run_modify (f : state → state) (s : state) : modify f s = Ok tt (f s).
Proof. done. Qed.

Ltac mstep :=
  first
    [ rewrite bind_assoc
    | rewrite bind_get
    | rewrite bind_modify
    | rewrite bind_mret
    | rewrite bind_read
    | erewrite (bind_Ok (get_count _)) by (eapply run_get_count; hlookup)
    | erewrite (bind_Ok (get_next _)) by (eapply run_get_next; hlookup)
    | erewrite (bind_Ok (get_prev _)) by (eapply run_get_prev; hlookup)
    | erewrite (bind_Ok (set_count _ _)) by (eapply run_set_count; hlookup)
    | erewrite (bind_Ok (set_next _ _)) by (eapply run_set_next; hlookup)
    | erewrite (bind_Ok (set_prev _ _)) by (eapply run_set_prev; hlookup)
    | erewrite (bind_Ok (delete_LNode _)) by (eapply run_delete_LNode; hlookup)
    | erewrite run_get_count by hlookup
    | erewrite run_get_next by hlookup
    | erewrite run_get_prev by hlookup
    | erewrite run_set_count by hlookup
    | erewrite run_set_next by hlookup
    | erewrite run_set_prev by hlookup
    | rewrite run_mret
    | rewrite run_modify ];
  mred.

(** [p->values[i]] for a slot whose content is known *)
Ltac mget v :=
  first
    [ erewrite (bind_Ok (get_value _ _) _ _ v);
      [ | eapply run_get_value; [hlookup | try lia | mred ] ]
    | erewrite (run_get_value _ _ _ v); [ | hlookup | try lia | mred ] ];
  mred.

Ltac mset :=
  try rewrite bind_read;
  first
    [ erewrite (bind_Ok (set_value _ _ _));
      [ | eapply run_set_value; [hlookup | try lia | mred; list_len; try lia ] ]
    | erewrite run_set_value; [ | hlookup | try lia | mred; list_len; try lia ] ];
  mred.

Lemma shiftUp_spec a n pre x todo post l (s : state) :
  heap s !! a = Some n →
  values n = pre ++ x :: todo ++ post →
  length (values n) = Z.to_nat Size →
  l = Z.of_nat (length pre) →
  count n = l + 1 + Z.of_nat (length todo) →
  shiftUp (Some a) l s
  = Ok tt (set_heap (<[a := upd_values n (pre ++ rot x [] todo ++ post)]> (heap s)) s).
Proof.
  intros Ha Hv Hlen -> Hc. unfold shiftUp. mstep.
  replace (Z.to_nat (count n - (Z.of_nat (length pre) + 1))) with (length todo) by lia.
  replace (Z.of_nat (length pre) + 1) with (Z.of_nat (length pre + 1 + length (@nil T)))
    by (simpl; lia).
  by apply shiftUp_loop_spec.
Qed.

(** *** [shiftDown] on one node

    Each iteration copies slot [i + 1] over slot [i], for [i] from
    [localIndex] to [count - 1]: the last iteration reads slot [count]. *)

Lemma shiftDown_loop_spec mid : ∀ pre x g post a n (s : state),
  heap s !! a = Some n →
  values n = pre ++ x :: mid ++ g :: post →
  length (values n) = Z.to_nat Size →
  for_loop (S (length mid)) (Z.of_nat (length pre)) tt
    (λ i _, y ← get_value (Some a) (i + 1); set_value (Some a) i y) s
  = Ok tt (set_heap (<[a := upd_values n (pre ++ mid ++ g :: g :: post)]> (heap s)) s).
Proof.
  induction mid as [|y mid IH]; intros pre x g post a n s Ha Hv Hlen.
  - assert (Hsz : (length pre + 2 + length post)%nat = Z.to_nat Size).
    { rewrite <- Hlen, Hv. list_len. lia. }
    cbn [for_loop length]. mstep. mget g.
    2:{ rewrite Hv. replace (pre ++ x :: [] ++ g :: post) with ((pre ++ [x]) ++ g :: post)
          by (by list_norm).
        apply lookup_at. list_len. lia. }
    mset. mstep. st_eq. rewrite Hv. simpl.
    apply insert_at. lia.
  - assert (Hsz : (length pre + 3 + length mid + length post)%nat = Z.to_nat Size).
    { rewrite <- Hlen, Hv. list_len. lia. }
    change (for_loop (S (length (y :: mid))) ?i ?acc ?b)
      with (acc' ← b i acc; for_loop (S (length mid)) (i + 1) acc' b).
    cbv beta. mstep. mget y.
    2:{ rewrite Hv. replace (pre ++ x :: (y :: mid) ++ g :: post)
          with ((pre ++ [x]) ++ y :: mid ++ g :: post) by (by list_norm).
        apply lookup_at. list_len. lia. }
    mset.
    replace (Z.of_nat (length pre) + 1) with (Z.of_nat (length (pre ++ [y])))
      by (list_len; lia).
    rewrite (IH (pre ++ [y]) y g post a
               (upd_values n ((pre ++ [y]) ++ y :: mid ++ g :: post))).
    + mred. rewrite insert_insert_eq. st_eq. by list_norm.
    + mred. rewrite lookup_insert_eq. st_eq.
      rewrite Hv, Nat2Z.id. rewrite (insert_at pre x y) by done. by list_norm.
    + done.
    + mred. rewrite <- Hlen, Hv. list_len. lia.
Qed.


Lemma shiftDown_spec a n pre x mid g post l (s : state) :
  heap s !! a = Some n →
  values n = pre ++ x :: mid ++ g :: post →
  length (values n) = Z.to_nat Size →
  l = Z.of_nat (length pre) →
  count n = l + 1 + Z.of_nat (length mid) →
  shiftDown (Some a) l s
  = Ok tt (set_heap (<[a := upd_values n (pre ++ mid ++ g :: g :: post)]> (heap s)) s).
Proof.
  intros Ha Hv Hlen -> Hc. unfold shiftDown. mstep.
  replace (Z.to_nat (count n - Z.of_nat (length pre))) with (S (length mid)) by lia.
  by eapply shiftDown_loop_spec.
Qed.

(** On a full node the last iteration reads [values[Size]]. *)
Lemma shiftDown_loop_full k : ∀ i a n (s : state),
  heap s !! a = Some n →
  length (values n) = Z.to_nat Size →
  0 ≤ i → i + Z.of_nat (S k) = Size →
  for_loop (S k) i tt
    (λ i _, y ← get_value (Some a) (i + 1); set_value (Some a) i y) s
  = Fault.
Proof.
  induction k as [|k IH]; intros i a n s Ha Hlen Hi Hk.
  - cbn [for_loop]. rewrite bind_assoc. apply bind_Fault.
    apply run_get_value_oob. lia.
  - change (for_loop (S (S k)) ?i ?acc ?b)
      with (acc' ← b i acc; for_loop (S k) (i + 1) acc' b).
    cbv beta. mstep.
    destruct (lookup_lt_is_Some_2 (values n) (Z.to_nat (i + 1))) as [y Hy]; [lia|].
    mget y; [|exact Hy]. mset.
    eapply IH; [hlookup | mred; list_len | |]; lia.
Qed.

Lemma shiftDown_full a n l (s : state) :
  heap s !! a = Some n →
  length (values n) = Z.to_nat Size →
  count n = Size → 0 ≤ l < Size →
  shiftDown (Some a) l s = Fault.
Proof.
  intros Ha Hlen Hc Hl. unfold shiftDown. mstep.
  replace (Z.to_nat (count n - l)) with (S (Z.to_nat (Size - l - 1))) by lia.
  eapply shiftDown_loop_full; eauto; lia.
Qed.

(** ** Chains of nodes *)

Lemma last_addr_cons pre p L :
  last_addr pre (p :: L) = last_addr (Some p.1) L.
Proof.
  unfold last_addr. destruct L as [|q L]; [done|].
  rewrite last_cons_cons. destruct (last (q :: L)) eqn:E; [done|].
  by apply last_None in E.
Qed.

Lemma last_addr_snoc pre L p : last_addr pre (L ++ [p]) = Some p.1.
Proof. unfold last_addr. by rewrite last_snoc. Qed.

Lemma last_addr_app pre L1 L2 :
  last_addr pre (L1 ++ L2) = last_addr (last_addr pre L1) L2.
Proof.
  revert pre. induction L1 as [|p L1 IH]; intros pre; [done|].
  simpl. rewrite !last_addr_cons. apply IH.
Qed.

Lemma first_addr_app L1 L2 post :
  first_addr (L1 ++ L2) post = first_addr L1 (first_addr L2 post).
Proof. by destruct L1. Qed.

Lemma lk_app L1 : ∀ pre L2 post,
  lk pre (L1 ++ L2) post ↔
  lk pre L1 (first_addr L2 post) ∧ lk (last_addr pre L1) L2 post.
Proof.
  induction L1 as [|p L1 IH]; intros pre L2 post.
  - simpl. unfold last_addr. simpl. tauto.
  - cbn [app lk]. rewrite IH, first_addr_app, last_addr_cons. tauto.
Qed.

Lemma lk_same_links L : ∀ L' pre post,
  Forall2 same_links L L' → lk pre L post → lk pre L' post.
Proof.
  induction L as [|p L IH]; intros L' pre post HF Hlk.
  - by apply Forall2_nil_inv_l in HF as ->.
  - apply Forall2_cons_inv_l in HF as (q & L'' & (Ha & Hn & Hp) & HF & ->).
    destruct Hlk as (H1 & H2 & H3). cbn [lk]. rewrite <- Ha, <- Hn, <- Hp.
    split_and!; [done| |by apply IH].
    rewrite H2. destruct HF as [|? ? ? ? [? _] _]; simpl; congruence.
Qed.

Lemma same_links_refl L : Forall2 same_links L L.
Proof. induction L; constructor; [done|done]. Qed.

Lemma agree_insert_notin h a x L :
  a ∉ L.*1 → agree h L → agree (<[a := x]> h) L.
Proof.
  unfold agree. intros Hn HL. induction HL as [|p L Hp HL IH]; constructor.
  - rewrite lookup_insert_ne; [done|]. intros ->. apply Hn. simpl. left.
  - apply IH. intros ?. apply Hn. simpl. by right.
Qed.

Lemma agree_delete_notin h a L :
  a ∉ L.*1 → agree h L → agree (delete a h) L.
Proof.
  unfold agree. intros Hn HL. induction HL as [|p L Hp HL IH]; constructor.
  - rewrite lookup_delete_ne; [done|]. intros ->. apply Hn. simpl. left.
  - apply IH. intros ?. apply Hn. simpl. by right.
Qed.

Lemma agree_lookup h L a n : agree h L → (a, n) ∈ L → h !! a = Some n.
Proof. unfold agree. rewrite Forall_forall. intros H Hin. by apply (H _ Hin). Qed.

Lemma NoDup_middle (L1 L2 : list (positive * LNode)) a n :
  NoDup (L1 ++ (a, n) :: L2).*1 →
  (a ∉ L1.*1) ∧ (a ∉ L2.*1) ∧ NoDup (L1 ++ L2).*1.
Proof.
  rewrite !fmap_app, fmap_cons. simpl. intros H.
  apply NoDup_app in H as (H1 & H2 & H3). apply NoDup_cons in H3 as (H3 & H4).
  split_and!; [|done|].
  - intros Hin. apply (H2 _ Hin). left.
  - apply NoDup_app. split_and!; [done| |done].
    intros x Hx Hx'. apply (H2 _ Hx). by right.
Qed.

Lemma total_app L1 L2 : total (L1 ++ L2) = total L1 + total L2.
Proof. induction L1 as [|p L1 IH]; simpl; [done|]. rewrite IH. lia. Qed.

Lemma contents_app L1 L2 : contents (L1 ++ L2) = contents L1 ++ contents L2.
Proof. unfold contents. by rewrite fmap_app, concat_app. Qed.

Lemma contents_cons p L : contents (p :: L) = live p.2 ++ contents L.
Proof. done. Qed.

Lemma length_live n : node_ok n → Z.of_nat (length (live n)) = count n.
Proof. intros [Hc Hl]. unfold live. rewrite length_take. lia. Qed.

Lemma length_contents L :
  Forall (λ p, node_ok p.2) L → Z.of_nat (length (contents L)) = total L.
Proof.
  induction 1 as [|p L Hp _ IH]; [done|].
  rewrite contents_cons, length_app. simpl. rewrite <- IH, <- (length_live _ Hp). lia.
Qed.

Lemma total_nonneg L : Forall (λ p, node_ok p.2) L → 0 ≤ total L.
Proof. intros H. rewrite <- (length_contents L H). lia. Qed.


(** *** Traversal of a well-formed chain *)

Lemma walk_spec L : ∀ h pre fuel,
  agree h L → lk pre L None → (length L ≤ fuel)%nat →
  walk fuel h (first_addr L None) = Some (seg_view <$> L).
Proof.
  induction L as [|[a n] L IH]; intros h pre fuel Hag Hlk Hf.
  - by destruct fuel.
  - destruct fuel as [|fuel]; [simpl in Hf; lia|].
    apply Forall_cons in Hag as [Ha Hag]. destruct Hlk as (_ & Hn & Hlk).
    simpl in *. rewrite Ha. simpl. rewrite Hn.
    rewrite (IH h (Some a) fuel); [done|done|done|lia].
Qed.

Lemma concat_seg_view L : concat ((seg_view <$> L).*2) = contents L.
Proof. unfold contents. by rewrite <- list_fmap_compose. Qed.

Lemma elements_spec s L fuel :
  chain_ok s L → (length L ≤ fuel)%nat → elements fuel s = Some (contents L).
Proof.
  intros H Hf. unfold elements. rewrite (ck_head _ _ H).
  rewrite (walk_spec L _ None fuel); [|apply H|apply H|done].
  simpl. by rewrite concat_seg_view.
Qed.

Lemma counts_spec s L fuel :
  chain_ok s L → (length L ≤ fuel)%nat →
  counts fuel s = Some ((λ p, count p.2) <$> L).
Proof.
  intros H Hf. unfold counts. rewrite (ck_head _ _ H).
  rewrite (walk_spec L _ None fuel); [|apply H|apply H|done].
  simpl. by rewrite <- list_fmap_compose.
Qed.

(** A successful walk needs one unit of fuel per node. *)
Lemma walk_fuel L : ∀ h pre fuel r,
  agree h L → lk pre L None →
  walk fuel h (first_addr L None) = Some r → (length L ≤ fuel)%nat.
Proof.
  induction L as [|[a n] L IH]; intros h pre fuel r Hag Hlk Hw.
  - simpl. lia.
  - destruct fuel as [|fuel]; [done|].
    apply Forall_cons in Hag as [Ha Hag]. destruct Hlk as (_ & Hn & Hlk).
    simpl in *. rewrite Ha in Hw. simpl in Hw. rewrite Hn in Hw.
    destruct (walk fuel h (first_addr L None)) eqn:E; [|done].
    apply (IH h (Some a) fuel _ Hag Hlk) in E. lia.
Qed.

Lemma elements_fuel s L fuel es :
  chain_ok s L → elements fuel s = Some es → (length L ≤ fuel)%nat.
Proof.
  intros H He. unfold elements in He. rewrite (ck_head _ _ H) in He.
  destruct (walk fuel (heap s) (first_addr L None)) eqn:E; [|done].
  eapply walk_fuel; [apply H|apply H|exact E].
Qed.

(** *** [find_element] *)

Lemma find_element_loop_spec L : ∀ pre fuel index acc (s : state),
  agree (heap s) L → lk pre L None → Forall (λ p, node_ok p.2) L →
  acc ≤ index < acc + total L → (length L ≤ fuel)%nat →
  ∃ L1 a n L2, L = L1 ++ (a, n) :: L2
    ∧ acc + total L1 ≤ index < acc + total L1 + count n
    ∧ find_element_loop fuel index acc (first_addr L None) s
      = Ok (mkInfo (Some a) (index - (acc + total L1))) s.
Proof.
  induction L as [|[a n] L IH]; intros pre fuel index acc s Hag Hlk Hok Hi Hf.
  - simpl in Hi. lia.
  - destruct fuel as [|fuel]; [simpl in Hf; lia|].
    apply Forall_cons in Hag as [Ha Hag]. destruct Hlk as (_ & Hn & Hlk).
    apply Forall_cons in Hok as [[Hc Hl] Hok]. simpl in *.
    mstep. destruct (Z.leb_spec (acc + count n) index) as [Hle|Hgt].
    + mstep. rewrite Hn.
      destruct (IH (Some a) fuel index (acc + count n) s) as (L1 & b & m & L2 & -> & Hr & Hrun);
        [done|done|done|lia|lia|].
      exists ((a, n) :: L1), b, m, L2. split; [done|]. simpl.
      split; [lia|]. rewrite Hrun. do 2 f_equal. lia.
    + exists [], a, n, L. split; [done|]. simpl. split; [lia|].
      mstep. do 2 f_equal. lia.
Qed.

Lemma find_element_spec s L fuel index :
  chain_ok s L → 0 ≤ index < size_ s → (length L ≤ fuel)%nat →
  ∃ L1 a n L2, L = L1 ++ (a, n) :: L2
    ∧ total L1 ≤ index < total L1 + count n
    ∧ find_element fuel index s = Ok (mkInfo (Some a) (index - total L1)) s.
Proof.
  intros H Hi Hf. unfold find_element. mstep. rewrite (ck_head _ _ H).
  destruct (find_element_loop_spec L None fuel index 0 s)
    as (L1 & a & n & L2 & -> & Hr & Hrun); [apply H|apply H|apply H| |done|].
  { rewrite <- (ck_size _ _ H). lia. }
  exists L1, a, n, L2. split; [done|]. split; [lia|].
  rewrite Hrun. do 2 f_equal.
Qed.

(** Past the end of the chain the walk dereferences the null pointer. *)
Lemma find_element_loop_off L : ∀ pre fuel index acc (s : state),
  agree (heap s) L → lk pre L None → Forall (λ p, node_ok p.2) L →
  acc + total L ≤ index → (length L < fuel)%nat →
  find_element_loop fuel index acc (first_addr L None) s = Fault.
Proof.
  induction L as [|[a n] L IH]; intros pre fuel index acc s Hag Hlk Hok Hi Hf.
  - destruct fuel as [|fuel]; [simpl in Hf; lia|]. done.
  - destruct fuel as [|fuel]; [simpl in Hf; lia|].
    apply Forall_cons in Hag as [Ha Hag]. destruct Hlk as (_ & Hn & Hlk).
    apply Forall_cons in Hok as [Hc Hok]. pose proof (total_nonneg _ Hok).
    simpl in *. mstep.
    replace (acc + count n <=? index) with true by lia.
    mstep. rewrite Hn. eapply IH; eauto; lia.
Qed.


(** *** Updating one node of a chain in place *)

Lemma first_addr_middle L1 (a : positive) (n n' : LNode) L2 post :
  first_addr (L1 ++ (a, n') :: L2) post = first_addr (L1 ++ (a, n) :: L2) post.
Proof. by destruct L1. Qed.

Lemma last_addr_middle pre L1 (a : positive) (n n' : LNode) L2 :
  last_addr pre (L1 ++ (a, n') :: L2) = last_addr pre (L1 ++ (a, n) :: L2).
Proof. by rewrite !last_addr_app, !last_addr_cons. Qed.

Lemma fst_middle L1 (a : positive) (n n' : LNode) L2 :
  (L1 ++ (a, n') :: L2).*1 = (L1 ++ (a, n) :: L2).*1.
Proof. by rewrite !fmap_app. Qed.

Lemma chain_ok_upd (s s' : state) L1 a n n' L2 :
  chain_ok s (L1 ++ (a, n) :: L2) →
  next n' = next n → prev n' = prev n → node_ok n' →
  heap s' = <[a := n']> (heap s) →
  head_ s' = head_ s → tail_ s' = tail_ s →
  size_ s' = size_ s + count n' - count n →
  nodecount_ s' = nodecount_ s → asize_ s' = asize_ s →
  chain_ok s' (L1 ++ (a, n') :: L2).
Proof.
  intros H Hn Hp Hok Hh Hhd Htl Hsz Hnc Has.
  destruct (NoDup_middle _ _ _ _ (ck_nodup _ _ H)) as (Ha1 & Ha2 & _).
  pose proof (ck_agree _ _ H) as Hag.
  apply Forall_app in Hag as [Hag1 Hag2]. apply Forall_cons in Hag2 as [_ Hag2].
  pose proof (ck_nodes _ _ H) as Hns.
  apply Forall_app in Hns as [Hns1 Hns2]. apply Forall_cons in Hns2 as [_ Hns2].
  constructor.
  - rewrite (fst_middle _ _ n). apply H.
  - rewrite Hh. apply Forall_app. split; [by apply agree_insert_notin|].
    apply Forall_cons. split; [apply lookup_insert_eq|by apply agree_insert_notin].
  - eapply lk_same_links; [|apply (ck_links _ _ H)].
    apply Forall2_app; [apply same_links_refl|].
    constructor; [done|apply same_links_refl].
  - rewrite Hhd, (first_addr_middle _ _ n). apply H.
  - rewrite Htl, (last_addr_middle _ _ _ n). apply H.
  - apply Forall_app. split; [done|]. by apply Forall_cons.
  - rewrite Hsz, (ck_size _ _ H), !total_app. simpl. lia.
  - rewrite Hnc, (ck_nodecount _ _ H). by list_len.
  - rewrite Has. apply H.
Qed.

Lemma chain_ok_lookup (s : state) L1 a n L2 :
  chain_ok s (L1 ++ (a, n) :: L2) → heap s !! a = Some n.
Proof.
  intros H. eapply agree_lookup; [apply H|]. apply elem_of_app. right. left.
Qed.

Lemma chain_ok_node (s : state) L1 a n L2 :
  chain_ok s (L1 ++ (a, n) :: L2) → node_ok n.
Proof.
  intros H. pose proof (ck_nodes _ _ H) as Hns.
  apply Forall_app in Hns as [_ Hns]. by apply Forall_cons in Hns as [? _].
Qed.

(** *** The copy loop of [split] *)

Lemma split_copy_spec xs : ∀ spre spost dpre dmid dpost a b n bn (s : state),
  a ≠ b → heap s !! a = Some n → heap s !! b = Some bn →
  values n = spre ++ xs ++ spost →
  values bn = dpre ++ dmid ++ dpost → length dmid = length xs →
  length (values n) = Z.to_nat Size → length (values bn) = Z.to_nat Size →
  for_loop (length xs) (Z.of_nat (length spre)) (Z.of_nat (length dpre))
    (λ i j, x ← get_value (Some a) i; set_value (Some b) j x;; mret (j + 1)) s
  = Ok (Z.of_nat (length dpre + length xs))
       (set_heap (<[b := upd_values bn (dpre ++ xs ++ dpost)]> (heap s)) s).
Proof.
  induction xs as [|x xs IH];
    intros spre spost dpre dmid dpost a b n bn s Hab Ha Hb Hvn Hvb Hlen Hln Hlb.
  - destruct dmid; [|done]. simpl in *. rewrite Nat.add_0_r.
    rewrite <- Hvb, upd_values_id. by rewrite set_heap_insert_id.
  - destruct dmid as [|d dmid]; [done|]. simpl in Hlen.
    assert (length spre + S (length xs) + length spost = Z.to_nat Size)%nat as Hs1.
    { rewrite <- Hln, Hvn. list_len. lia. }
    assert (length dpre + S (length dmid) + length dpost = Z.to_nat Size)%nat as Hs2.
    { rewrite <- Hlb, Hvb. list_len. lia. }
    cbn [for_loop length]. mstep. mget x.
    2:{ rewrite Hvn. apply lookup_at. lia. }
    mstep. mset. mstep.
    replace (Z.of_nat (length spre) + 1) with (Z.of_nat (length (spre ++ [x])))
      by (list_len; lia).
    replace (Z.of_nat (length dpre) + 1) with (Z.of_nat (length (dpre ++ [x])))
      by (list_len; lia).
    rewrite (IH (spre ++ [x]) spost (dpre ++ [x]) dmid dpost a b n
               (upd_values bn ((dpre ++ [x]) ++ dmid ++ dpost))).
    + mred. rewrite insert_insert_eq. f_equal; [|by list_norm].
      f_equal. list_len. lia.
    + done.
    + hlookup.
    + mred. rewrite lookup_insert_eq. st_eq.
      rewrite Hvb, Nat2Z.id. simpl. rewrite insert_at by done. by list_norm.
    + rewrite Hvn. by list_norm.
    + done.
    + lia.
    + done.
    + mred. rewrite <- Hlb, Hvb. list_len. lia.
Qed.


Lemma split_copy_run K I0 xs spre spost dmid dpost a b n bn (s : state) :
  K = length xs → I0 = Z.of_nat (length spre) →
  a ≠ b → heap s !! a = Some n → heap s !! b = Some bn →
  values n = spre ++ xs ++ spost →
  values bn = dmid ++ dpost → length dmid = length xs →
  length (values n) = Z.to_nat Size → length (values bn) = Z.to_nat Size →
  for_loop K I0 0
    (λ i j, x ← get_value (Some a) i; set_value (Some b) j x;; mret (j + 1)) s
  = Ok (Z.of_nat (length xs))
       (set_heap (<[b := upd_values bn (xs ++ dpost)]> (heap s)) s).
Proof.
  intros -> -> Hab Ha Hb Hvn Hvb Hlen Hln Hlb.
  by apply (split_copy_spec xs spre spost [] dmid dpost a b n bn).
Qed.

(** *** [split] *)

Lemma numSplit_of_bounds c : 1 ≤ c → 0 ≤ numSplit_of c < c.
Proof.
  intros Hc. unfold numSplit_of.
  pose proof (Z.quot_rem c 2 ltac:(lia)) as Hqr.
  pose proof (Z.rem_bound_pos c 2 ltac:(lia) ltac:(lia)) as Hr.
  destruct (Z.eqb_spec (Z.rem c 2) 0); lia.
Qed.

Lemma run_new_LNode (s : state) av :
  avail s = S av →
  try_catch_bad_alloc new_LNode (throw (LariatException E_NO_MEMORY)) s
  = Ok (Some (fresh (dom (heap s))))
       (mkState (<[fresh (dom (heap s)) :=
                   mkLNode None None 0 (replicate (Z.to_nat Size) junk)]> (heap s))
                av (head_ s) (tail_ s) (size_ s) (nodecount_ s) (asize_ s)).
Proof. intros H. unfold try_catch_bad_alloc, new_LNode. by rewrite H. Qed.

Lemma run_new_LNode_fail (s : state) :
  avail s = O →
  try_catch_bad_alloc new_LNode (throw (LariatException E_NO_MEMORY)) s
  = Throw (LariatException E_NO_MEMORY) s.
Proof. intros H. unfold try_catch_bad_alloc, new_LNode. by rewrite H. Qed.

Lemma fresh_not_in (h : gmap positive LNode) a n :
  h !! a = Some n → a ≠ fresh (dom h).
Proof.
  intros Ha Heq. apply (is_fresh (dom h)). rewrite <- Heq.
  apply elem_of_dom. by exists n.
Qed.

Lemma fresh_not_in_chain (h : gmap positive LNode) L :
  agree h L → fresh (dom h) ∉ L.*1.
Proof.
  intros Hag Hin. apply list_elem_of_fmap in Hin as ([a n] & Hb & Hin).
  simpl in Hb. eapply fresh_not_in; [|symmetry; exact Hb].
  by eapply agree_lookup.
Qed.


Lemma set_first_prev_fst q L : (set_first_prev q L).*1 = L.*1.
Proof. by destruct L. Qed.

Lemma set_first_prev_total q L : total (set_first_prev q L) = total L.
Proof. by destruct L. Qed.

Lemma set_first_prev_contents q L : contents (set_first_prev q L) = contents L.
Proof. by destruct L. Qed.

Lemma set_first_prev_length q L : length (set_first_prev q L) = length L.
Proof. by destruct L. Qed.

Lemma set_first_prev_first q L post :
  first_addr (set_first_prev q L) post = first_addr L post.
Proof. by destruct L. Qed.

Lemma set_first_prev_last q L pre :
  last_addr pre (set_first_prev q L) = last_addr pre L.
Proof. destruct L as [|p L]; [done|]. simpl. by rewrite !last_addr_cons. Qed.

Lemma set_first_prev_Forall (P : LNode → Prop) q L :
  (∀ n, P n → P (upd_prev n q)) →
  Forall (λ p, P p.2) L → Forall (λ p, P p.2) (set_first_prev q L).
Proof.
  intros HP HL. destruct L as [|p L]; [done|].
  apply Forall_cons in HL as [? ?]. constructor; [by apply HP|done].
Qed.

Lemma set_first_prev_lk b pre L post :
  lk pre L post → lk (Some b) (set_first_prev (Some b) L) post.
Proof. destruct L as [|p L]; [done|]. intros (_ & ? & ?). by split_and!. Qed.

Lemma set_first_prev_lk_None pre L post :
  lk pre L post → lk None (set_first_prev None L) post.
Proof. destruct L as [|p L]; [done|]. intros (_ & ? & ?). by split_and!. Qed.

Lemma NoDup_add_middle (l1 l2 : list positive) a b :
  NoDup (l1 ++ a :: l2) → b ∉ l1 ++ a :: l2 → NoDup (l1 ++ a :: b :: l2).
Proof.
  intros H Hb. apply NoDup_app in H as (H1 & H2 & H3).
  apply NoDup_cons in H3 as (H3 & H4).
  apply NoDup_app. split_and!; [done| |].
  - intros x Hx Hx'. apply elem_of_cons in Hx' as [->|Hx'].
    + apply (H2 _ Hx). left.
    + apply elem_of_cons in Hx' as [->|Hx'].
      * apply Hb. apply elem_of_app. by left.
      * apply (H2 _ Hx). by right.
  - apply NoDup_cons. split.
    + intros Hx. apply elem_of_cons in Hx as [->|Hx]; [|done].
      apply Hb. apply elem_of_app. right. left.
    + apply NoDup_cons. split; [|done].
      intros Hx. apply Hb. apply elem_of_app. right. by right.
Qed.

Lemma last_addr_in pre L x :
  last_addr pre L = Some x → L ≠ [] → x ∈ L.*1.
Proof.
  unfold last_addr. intros H HL. destruct (last L) as [p|] eqn:E.
  - inversion H; subst. apply list_elem_of_fmap. exists p. split; [done|].
    apply last_Some in E as [l' ->]. apply elem_of_app. right. left.
  - by apply last_None in E.
Qed.

Lemma last_addr_nonempty pre L :
  L ≠ [] → ∃ x, last_addr pre L = Some x ∧ x ∈ L.*1.
Proof.
  intros HL. unfold last_addr. destruct (last L) as [p|] eqn:E.
  - exists p.1. split; [done|]. apply list_elem_of_fmap. exists p. split; [done|].
    apply last_Some in E as [l' ->]. apply elem_of_app. right. left.
  - by apply last_None in E.
Qed.

Lemma ptr_eqb_refl p : ptr_eqb p p = true.
Proof. unfold ptr_eqb. by apply bool_decide_eq_true_2. Qed.

Lemma ptr_eqb_ne p q : p ≠ q → ptr_eqb p q = false.
Proof. unfold ptr_eqb. by apply bool_decide_eq_false_2. Qed.

Lemma live_split n a b :
  node_ok n → 1 ≤ count n →
  live (split_left n b) ++ live (split_right n a) = live n.
Proof.
  intros [Hc Hl] H1. pose proof (numSplit_of_bounds _ H1) as Hk.
  unfold live, split_left, split_right. simpl.
  rewrite take_app_length' by (list_len; lia).
  rewrite take_take_drop. f_equal. lia.
Qed.

Lemma node_ok_split_left n b : node_ok n → 1 ≤ count n → node_ok (split_left n b).
Proof.
  intros [Hc Hl] H1. pose proof (numSplit_of_bounds _ H1) as Hk.
  split; simpl; [lia|done].
Qed.

Lemma node_ok_split_right n a : node_ok n → 1 ≤ count n → node_ok (split_right n a).
Proof.
  intros [Hc Hl] H1. pose proof (numSplit_of_bounds _ H1) as Hk.
  split; simpl; [lia|list_len; lia].
Qed.

Lemma split_spec (s : state) L1 a n L2 av :
  chain_ok s (L1 ++ (a, n) :: L2) → avail s = S av → 1 ≤ count n →
  let b := fresh (dom (heap s)) in
  ∃ s', split (Some a) s = Ok (Some b) s'
    ∧ chain_ok s' (L1 ++ (a, split_left n b) :: (b, split_right n a)
                      :: set_first_prev (Some b) L2)
    ∧ avail s' = av.
Proof.
  intros H Hav Hc b.
  set (k := numSplit_of (count n)).
  set (n1 := split_left n b). set (m := split_right n a).
  pose proof (numSplit_of_bounds _ Hc) as Hk. fold k in Hk.
  pose proof (chain_ok_lookup _ _ _ _ _ H) as Ha.
  destruct (chain_ok_node _ _ _ _ _ H) as [Hcn Hln].
  pose proof (fresh_not_in _ _ _ Ha) as Hab. fold b in Hab.
  destruct s as [h av' hd tl sz nc asz]. simpl in Hav, Ha, b, Hab. subst av'.
  unfold split. mstep. mstep.
  erewrite bind_Ok; [|by apply run_new_LNode]. mred. fold b.
  mstep.
  change (if Z.rem (count n) 2 =? 0 then Z.quot (count n) 2 - 1 else Z.quot (count n) 2)
    with k.
  erewrite (bind_Ok (for_loop _ _ _ _)).
  2:{ eapply (split_copy_run _ _
                (take (Z.to_nat k) (drop (Z.to_nat (count n - k)) (values n)))
                (take (Z.to_nat (count n - k)) (values n))
                (drop (Z.to_nat (count n)) (values n))
                (replicate (Z.to_nat k) junk) (replicate (Z.to_nat (Size - k)) junk) a b n).
      - list_len. lia.
      - list_len. lia.
      - done.
      - hlookup.
      - hlookup.
      - rewrite <- (take_drop (Z.to_nat (count n - k)) (values n)) at 1.
        f_equal.
        rewrite <- (take_drop (Z.to_nat k) (drop (Z.to_nat (count n - k)) (values n))) at 1.
        f_equal. rewrite drop_drop. f_equal. lia.
      - mred. rewrite <- replicate_add. f_equal. lia.
      - list_len. lia.
      - done.
      - mred. list_len. lia. }
  mred. repeat mstep. rewrite Z.add_0_l.
  destruct (NoDup_middle _ _ _ _ (ck_nodup _ _ H)) as (Ha1 & Ha2 & Hnd).
  pose proof (ck_agree _ _ H) as Hag. simpl in Hag.
  pose proof (fresh_not_in_chain _ _ Hag) as Hbn. fold b in Hbn.
  assert ((b ∉ L1.*1) ∧ (b ∉ L2.*1)) as [Hb1 Hb2].
  { rewrite fmap_app, fmap_cons in Hbn. split; intros ?; apply Hbn.
    - apply elem_of_app. by left.
    - apply elem_of_app. right. by right. }
  apply Forall_app in Hag as [Hag1 Hag2]. apply Forall_cons in Hag2 as [_ Hag2].
  pose proof (ck_links _ _ H) as Hlk.
  apply lk_app in Hlk as [Hlk1 (Hpv & Hnx & Hlk2)]. simpl in Hpv, Hnx, Hlk1.
  pose proof (ck_nodes _ _ H) as Hns.
  apply Forall_app in Hns as [Hns1 Hns2]. apply Forall_cons in Hns2 as [_ Hns2].
  pose proof (ck_tail _ _ H) as Htl. simpl in Htl.
  rewrite last_addr_app, last_addr_cons in Htl.
  pose proof (ck_head _ _ H) as Hhd. simpl in Hhd.
  pose proof (ck_size _ _ H) as Hsz. simpl in Hsz. rewrite total_app in Hsz. simpl in Hsz.
  pose proof (ck_nodecount _ _ H) as Hnc. simpl in Hnc.
  rewrite length_app in Hnc. simpl in Hnc.
  pose proof (ck_asize _ _ H) as Has. simpl in Has.
  assert (node_ok n1) as Hn1. { by apply node_ok_split_left. }
  assert (node_ok m) as Hm. { by apply node_ok_split_right. }
  destruct L2 as [|[x xn] L2].
  - (* the node was the tail *)
    simpl in Hnx, Htl, Hsz, Hnc. rewrite Hnx. subst tl. rewrite ptr_eqb_refl.
    repeat mstep. eexists. split; [reflexivity|]. split; [|done].
    constructor; mred.
    + rewrite fmap_app. simpl. apply NoDup_add_middle; [|by rewrite fmap_app in Hbn].
      change (NoDup (L1.*1 ++ ((a, n) :: []).*1)). rewrite <- fmap_app. apply H.
    + apply Forall_app. split; [by repeat apply agree_insert_notin|].
      repeat constructor; simpl.
      * rewrite lookup_insert_ne by congruence. rewrite lookup_insert_eq.
        done.
      * rewrite lookup_insert_eq. unfold m, split_right. fold k. by rewrite Hnx.
    + apply lk_app. split; [done|]. simpl. by split_and!.
    + rewrite Hhd. by destruct L1.
    + by rewrite last_addr_app, !last_addr_cons.
    + apply Forall_app. split; [done|]. simpl.
      constructor; [exact Hn1|constructor; [exact Hm|constructor]].
    + rewrite total_app. unfold n1, m, split_left, split_right. fold k. simpl. lia.
    + rewrite length_app. simpl. lia.
    + done.
  - (* the node had a successor *)
    simpl in Hnx, Hsz, Hnc. rewrite Hnx.
    apply Forall_cons in Hag2 as [Hx Hag2]. simpl in Hx.
    assert (x ≠ a) as Hxa. { intros ->. apply Ha2. simpl. left. }
    assert (x ≠ b) as Hxb. { intros ->. apply Hb2. simpl. left. }
    assert ((x ∉ L1.*1) ∧ (x ∉ L2.*1)) as [Hx1 Hx2].
    { pose proof (ck_nodup _ _ H) as Hnd'.
      rewrite fmap_app in Hnd'. simpl in Hnd'.
      apply NoDup_app in Hnd' as (_ & Hd1 & Hd2).
      apply NoDup_cons in Hd2 as (_ & Hd2). apply NoDup_cons in Hd2 as (Hd2 & _).
      split; [|done]. intros Hin. apply (Hd1 _ Hin). right. left. }
    assert (a ∉ L2.*1) as Ha2' by (intros ?; apply Ha2; simpl; by right).
    assert (b ∉ L2.*1) as Hb2' by (intros ?; apply Hb2; simpl; by right).
    destruct (last_addr_nonempty (Some a) ((x, xn) :: L2) ltac:(done)) as (y & Hy & Hyin).
    cbn [fst] in Htl. rewrite Hy in Htl. subst tl.
    rewrite (ptr_eqb_ne (Some a) (Some y)) by (intros [= ->]; by apply Ha2).
    repeat mstep. eexists. split; [reflexivity|]. split; [|done].
    apply Forall_cons in Hns2 as [Hxn Hns2]. simpl in Hxn.
    destruct Hlk2 as (Hxp & Hxnx & Hlk2). simpl in Hxp, Hxnx, Hlk2.
    constructor; mred.
    + rewrite fmap_app. simpl. apply NoDup_add_middle; [|by rewrite fmap_app in Hbn].
      change (NoDup (L1.*1 ++ ((a, n) :: (x, xn) :: L2).*1)). rewrite <- fmap_app. apply H.
    + apply Forall_app. split; [by repeat apply agree_insert_notin|].
      constructor; [|constructor; [|constructor]]; simpl.
      * do 2 (rewrite lookup_insert_ne by congruence). rewrite lookup_insert_eq.
        done.
      * rewrite lookup_insert_ne by congruence. rewrite lookup_insert_eq.
        unfold m, split_right. fold k. by rewrite Hnx.
      * by rewrite lookup_insert_eq.
      * by repeat apply agree_insert_notin.
    + apply lk_app. split; [done|]. simpl. by split_and!.
    + rewrite Hhd. by destruct L1.
    + rewrite last_addr_cons in Hy. rewrite last_addr_app.
      repeat (rewrite last_addr_cons; simpl). by simpl in Hy.
    + apply Forall_app. split; [done|]. simpl.
      constructor; [exact Hn1|constructor; [exact Hm|constructor; [exact Hxn|done]]].
    + rewrite total_app. unfold n1, m, split_left, split_right. fold k. simpl. lia.
    + rewrite length_app. simpl. lia.
    + done.
Qed.


Lemma split_no_memory (s : state) a n :
  heap s !! a = Some n → avail s = O →
  split (Some a) s = Throw (LariatException E_NO_MEMORY) s.
Proof.
  intros Ha Hav. unfold split. mstep. mstep.
  apply bind_Throw. by apply run_new_LNode_fail.
Qed.

(** *** [deleteNode] *)

Lemma same_data_refl L : Forall2 same_data L L.
Proof. induction L; constructor; [done|done]. Qed.

Lemma same_data_contents L' L : Forall2 same_data L' L → contents L' = contents L.
Proof.
  induction 1 as [|p q L' L (_ & Hc & Hv) _ IH]; [done|].
  rewrite !contents_cons, IH. unfold live. by rewrite Hc, Hv.
Qed.

Lemma same_data_total L' L : Forall2 same_data L' L → total L' = total L.
Proof.
  induction 1 as [|p q L' L (_ & Hc & Hv) _ IH]; [done|]. simpl. by rewrite IH, Hc.
Qed.

Lemma same_data_counts L' L :
  Forall2 same_data L' L → (λ p, count p.2) <$> L' = (λ p, count p.2) <$> L.
Proof.
  induction 1 as [|p q L' L (_ & Hc & Hv) _ IH]; [done|].
  rewrite !fmap_cons. by rewrite IH, Hc.
Qed.

Lemma same_data_Forall (P : Z → Prop) L' L :
  Forall2 same_data L' L →
  Forall (λ p, P (count p.2)) L → Forall (λ p, P (count p.2)) L'.
Proof.
  induction 1 as [|p q L' L (_ & Hc & Hv) _ IH]; [done|].
  intros HF. apply Forall_cons in HF as [? ?]. constructor; [by rewrite Hc|by apply IH].
Qed.

Lemma same_data_node_ok L' L :
  Forall2 same_data L' L →
  Forall (λ p, node_ok p.2) L → Forall (λ p, node_ok p.2) L'.
Proof.
  induction 1 as [|p q L' L (_ & Hc & Hv) _ IH]; [done|].
  intros HF. apply Forall_cons in HF as [[? ?] ?].
  constructor; [split; by rewrite ?Hc, ?Hv|by apply IH].
Qed.

Lemma same_data_fst L' L : Forall2 same_data L' L → L'.*1 = L.*1.
Proof.
  induction 1 as [|p q L' L (Ha & _) _ IH]; [done|].
  rewrite !fmap_cons. by rewrite IH, Ha.
Qed.

Lemma deleteNode_spec (s : state) L1 a n L2 :
  chain_ok s (L1 ++ (a, n) :: L2) → count n = 0 →
  ∃ s' L', deleteNode (Some a) s = Ok tt s'
    ∧ chain_ok s' L'
    ∧ Forall2 same_data L' (L1 ++ L2)
    ∧ avail s' = S (avail s).
Proof.
  intros H Hc.
  pose proof (chain_ok_lookup _ _ _ _ _ H) as Ha.
  destruct (NoDup_middle _ _ _ _ (ck_nodup _ _ H)) as (Ha1 & Ha2 & Hnd).
  pose proof (ck_agree _ _ H) as Hag.
  apply Forall_app in Hag as [Hag1 Hag2]. apply Forall_cons in Hag2 as [_ Hag2].
  pose proof (ck_links _ _ H) as Hlk.
  apply lk_app in Hlk as [Hlk1 (Hpv & Hnx & Hlk2)]. cbn [fst snd] in Hpv, Hnx, Hlk1, Hlk2.
  pose proof (ck_nodes _ _ H) as Hns.
  apply Forall_app in Hns as [Hns1 Hns2]. apply Forall_cons in Hns2 as [_ Hns2].
  pose proof (ck_tail _ _ H) as Htl.
  rewrite last_addr_app, last_addr_cons in Htl. cbn [fst] in Htl.
  pose proof (ck_head _ _ H) as Hhd.
  pose proof (ck_size _ _ H) as Hsz. rewrite total_app in Hsz. cbn [total snd] in Hsz.
  pose proof (ck_nodecount _ _ H) as Hnc. rewrite length_app in Hnc. cbn [length] in Hnc.
  pose proof (ck_asize _ _ H) as Has.
  destruct s as [h av hd tl sz nc asz]. cbn [heap avail head_ tail_ size_ nodecount_ asize_] in *.
  unfold deleteNode. mstep. mstep.
  destruct L1 as [|p0 L1' _] using rev_ind.
  - (* the node is the head *)
    cbn [app first_addr fst] in Hhd. subst hd. rewrite ptr_eqb_refl. mstep. rewrite Hnx.
    destruct L2 as [|[x xn] L2].
    + cbn [first_addr].
      repeat mstep.
      eexists _, []. split; [reflexivity|]. split; [|split; [constructor|done]].
      constructor; mred.
      * constructor.
      * constructor.
      * done.
      * done.
      * done.
      * constructor.
      * simpl in Hsz. simpl. lia.
      * simpl in Hnc. simpl. lia.
      * done.
    + cbn [first_addr fst].
      repeat mstep.
      eexists _, ((x, xn) :: L2). split; [reflexivity|].
      split; [|split; [apply same_data_refl|done]].
      constructor; mred.
      * done.
      * by apply agree_delete_notin.
      * destruct Hlk2 as (_ & ? & ?). by split_and!.
      * done.
      * rewrite Htl. by rewrite !last_addr_cons.
      * done.
      * simpl in Hsz. simpl. lia.
      * simpl in Hnc. simpl length. lia.
      * done.
  - destruct p0 as [p pn].
    assert (a ≠ p) as Hap. { intros ->. apply Ha1. rewrite fmap_app. apply elem_of_app. right. left. }
    assert (Some a ≠ hd) as Hahd.
    { rewrite Hhd. rewrite <- app_assoc. rewrite first_addr_app.
      destruct L1' as [|[q qn] L1']; simpl; intros [= E]; [done|].
      apply Ha1. rewrite E. simpl. left. }
    rewrite (ptr_eqb_ne _ _ Hahd).
    apply Forall_app in Hag1 as [Hag0 Hp]. apply Forall_cons in Hp as [Hp _]. cbn [fst snd] in Hp.
    apply Forall_app in Hns1 as [Hns0 Hpn]. apply Forall_cons in Hpn as [Hpn _]. cbn [snd] in Hpn.
    rewrite last_addr_snoc in Hpv. cbn [fst] in Hpv.
    apply lk_app in Hlk1 as [Hlk0 (Hppv & Hpnx & _)]. cbn [fst snd first_addr] in Hppv, Hpnx.
    assert (NoDup (L1' ++ (p, pn) :: L2).*1) as Hnd'. { by rewrite <- app_assoc in Hnd. }
    destruct (NoDup_middle _ _ _ _ Hnd') as (Hp1 & Hp2 & Hnd0).
    assert (a ∉ L1'.*1) as Ha0.
    { intros ?. apply Ha1. rewrite fmap_app. apply elem_of_app. by left. }
    destruct L2 as [|[x xn] L2].
    + (* the node is the tail *)
      cbn [last_addr last] in Htl. subst tl. rewrite ptr_eqb_refl.
      mstep. rewrite Hpv. repeat mstep.
      repeat mstep.
      eexists _, (L1' ++ [(p, upd_next pn None)]). split; [reflexivity|].
      split; [|split; [|done]].
      * constructor; mred.
        -- rewrite app_nil_r in Hnd. by rewrite fmap_app in Hnd |- *.
        -- apply Forall_app. split.
           ++ apply agree_delete_notin; [done|].
              by repeat apply agree_insert_notin.
           ++ constructor; [|constructor]. cbn [fst snd].
              rewrite lookup_delete_ne by done.
              rewrite lookup_insert_ne by done. by rewrite lookup_insert_eq.
        -- apply lk_app. split; [done|]. simpl. by split_and!.
        -- rewrite Hhd. rewrite <- app_assoc, !first_addr_app. by destruct L1'.
        -- by rewrite last_addr_snoc.
        -- apply Forall_app. split; [done|]. constructor; [done|constructor].
        -- rewrite total_app in Hsz |- *. simpl in Hsz |- *. lia.
        -- rewrite !length_app in Hnc |- *. simpl in Hnc |- *. lia.
        -- done.
      * rewrite app_nil_r. apply Forall2_app; [apply same_data_refl|].
        constructor; [done|constructor].
    + (* the node is in the middle *)
      apply Forall_cons in Hag2 as [Hx Hag2]. cbn [fst snd] in Hx.
      apply Forall_cons in Hns2 as [Hxn Hns2]. cbn [snd] in Hxn.
      destruct Hlk2 as (Hxp & Hxnx & Hlk2). cbn [fst snd] in Hxp, Hxnx, Hlk2.
      assert (x ≠ a) as Hxa. { intros ->. apply Ha2. simpl. left. }
      assert (x ≠ p) as Hxp'. { intros ->. apply Hp2. simpl. left. }
      assert (a ∉ L2.*1) as Ha2' by (intros ?; apply Ha2; simpl; by right).
      assert (p ∉ L2.*1) as Hp2' by (intros ?; apply Hp2; simpl; by right).
      assert ((x ∉ L1'.*1) ∧ (x ∉ L2.*1)) as [Hx1 Hx2].
      { rewrite fmap_app in Hnd0. simpl in Hnd0.
        apply NoDup_app in Hnd0 as (_ & Hd1 & Hd2).
        apply NoDup_cons in Hd2 as (Hd2 & _).
        split; [|done]. intros Hin. apply (Hd1 _ Hin). left. }
      destruct (last_addr_nonempty (Some a) ((x, xn) :: L2) ltac:(done)) as (y & Hy & Hyin).
      rewrite Hy in Htl. subst tl.
      rewrite (ptr_eqb_ne (Some a) (Some y)) by (intros [= ->]; by apply Ha2).
      mstep. mstep. rewrite Hpv, Hnx. cbn [first_addr fst]. repeat mstep.
      repeat mstep.
      eexists _, (L1' ++ (p, upd_next pn (Some x)) :: (x, upd_prev xn (Some p)) :: L2).
      split; [reflexivity|]. split; [|split; [|done]].
      * constructor; mred.
        -- rewrite <- app_assoc in Hnd. by rewrite fmap_app in Hnd |- *.
        -- apply Forall_app. split.
           ++ apply agree_delete_notin; [done|].
              by repeat apply agree_insert_notin.
           ++ constructor; [|constructor]; cbn [fst snd].
              ** rewrite lookup_delete_ne by done.
                 rewrite lookup_insert_ne by done. by rewrite lookup_insert_eq.
              ** rewrite lookup_delete_ne by done. by rewrite lookup_insert_eq.
              ** apply agree_delete_notin; [done|].
                 by repeat apply agree_insert_notin.
        -- apply lk_app. split; [done|]. simpl. by split_and!.
        -- rewrite Hhd. rewrite <- app_assoc, !first_addr_app. by destruct L1'.
        -- rewrite last_addr_cons in Hy. rewrite last_addr_app.
           repeat (rewrite last_addr_cons; simpl). by simpl in Hy.
        -- apply Forall_app. split; [done|]. constructor; [done|]. by constructor.
        -- rewrite !total_app in Hsz |- *. simpl in Hsz |- *. lia.
        -- rewrite !length_app in Hnc |- *. simpl in Hnc |- *. lia.
        -- done.
      * rewrite <- app_assoc. apply Forall2_app; [apply same_data_refl|].
        constructor; [done|]. constructor; [done|apply same_data_refl].
Qed.


(** *** Appending to a node with spare room *)

Lemma live_node_push n v :
  node_ok n → count n < Size → live (node_push n v) = live n ++ [v].
Proof.
  intros [Hc Hl] Hlt. unfold live, node_push. simpl.
  replace (Z.to_nat (count n + 1)) with (S (Z.to_nat (count n))) by lia.
  rewrite (take_S_r _ _ v) by (apply list_lookup_insert_eq; lia).
  by rewrite take_insert_ge by lia.
Qed.

Lemma node_ok_push n v : node_ok n → count n < Size → node_ok (node_push n v).
Proof. intros [Hc Hl] Hlt. split; simpl; [lia|by list_len]. Qed.

Lemma push_back_in_node_spec (s : state) L1 a n L2 v :
  chain_ok s (L1 ++ (a, n) :: L2) → count n < Size →
  ∃ s', push_back_in_node (Some a) (Outside v) s = Ok tt s'
    ∧ chain_ok s' (L1 ++ (a, node_push n v) :: L2)
    ∧ avail s' = avail s.
Proof.
  intros H Hlt.
  pose proof (chain_ok_lookup _ _ _ _ _ H) as Ha.
  pose proof (chain_ok_node _ _ _ _ _ H) as Hok. destruct (Hok) as [Hc Hl].
  pose proof (ck_asize _ _ H) as Has.
  unfold push_back_in_node. mstep. mstep. rewrite Has.
  replace (Size <=? count n) with false by lia.
  mstep. mstep. mset. repeat mstep.
  eexists. split; [reflexivity|]. split; [|done].
  eapply chain_ok_upd; [exact H| | |by apply node_ok_push| | | | | |]; mred; try done.
  - by rewrite !insert_insert_eq.
  - simpl. lia.
Qed.

(** *** [push_first_value] *)

Lemma live_first_node v : live (first_node v) = [v].
Proof.
  unfold live, first_node. simpl.
  destruct (Z.to_nat Size) as [|k] eqn:E; [lia|]. done.
Qed.

Lemma push_first_value_spec (s : state) v av :
  chain_ok s [] → avail s = S av →
  ∃ s', push_first_value (Outside v) s = Ok tt s'
    ∧ chain_ok s' [(fresh (dom (heap s)), first_node v)]
    ∧ avail s' = av.
Proof.
  intros H Hav.
  pose proof (ck_size _ _ H) as Hsz. pose proof (ck_nodecount _ _ H) as Hnc.
  pose proof (ck_asize _ _ H) as Has.
  destruct s as [h av' hd tl sz nc asz]. simpl in *. subst.
  unfold push_first_value.
  erewrite bind_Ok; [|by apply run_new_LNode]. mred.
  repeat mstep. mset. repeat mstep.
  eexists. split; [reflexivity|]. split; [|done].
  constructor; mred.
  - apply NoDup_singleton.
  - constructor; [|constructor]. simpl. by rewrite lookup_insert_eq.
  - simpl. done.
  - done.
  - done.
  - constructor; [|constructor]. split; simpl; [lia|by list_len].
  - done.
  - done.
  - done.
Qed.

Lemma push_first_value_no_memory (s : state) v :
  avail s = O → push_first_value v s = Throw (LariatException E_NO_MEMORY) s.
Proof.
  intros Hav. unfold push_first_value. apply bind_Throw. by apply run_new_LNode_fail.
Qed.


(** ** The operations on well-formed containers *)

Lemma good_WF s L : good s L → WF s.
Proof. intros H. by exists L. Qed.

Lemma chain_ok_nil_head (s : state) : chain_ok s [] → head_ s = None ∧ tail_ s = None.
Proof. intros H. split; [apply (ck_head _ _ H)|apply (ck_tail _ _ H)]. Qed.

Lemma chain_ok_snoc_tail (s : state) L t tn :
  chain_ok s (L ++ [(t, tn)]) → tail_ s = Some t ∧ ∃ x, head_ s = Some x.
Proof.
  intros H. split.
  - rewrite (ck_tail _ _ H). by rewrite last_addr_snoc.
  - rewrite (ck_head _ _ H). destruct L as [|p L]; simpl; eauto.
Qed.

Lemma push_back_cases (s : state) L v :
  good s L →
  (∃ s' L', push_back (Outside v) s = Ok tt s' ∧ good s' L'
            ∧ contents L' = contents L ++ [v])
  ∨ (avail s = O ∧ push_back (Outside v) s = Throw (LariatException E_NO_MEMORY) s).
Proof.
  intros [H H1]. unfold push_back. mstep. mstep.
  destruct L as [|[t tn] L0 _] using rev_ind.
  - destruct (chain_ok_nil_head _ H) as [-> ->]. rewrite !ptr_eqb_refl. simpl.
    destruct (avail s) as [|av] eqn:Hav.
    + right. split; [done|]. by apply push_first_value_no_memory.
    + left. destruct (push_first_value_spec s v av H Hav) as (s' & Hrun & Hck & _).
      eexists s', _. split; [exact Hrun|]. split; [split; [exact Hck|]|].
      * constructor; [simpl; lia|constructor].
      * unfold contents. simpl. by rewrite live_first_node.
  - destruct (chain_ok_snoc_tail _ _ _ _ H) as [Htl [x Hhd]]. rewrite Hhd, Htl.
    rewrite (ptr_eqb_ne (Some x) None) by done. simpl.
    pose proof (chain_ok_lookup _ _ _ _ _ H) as Ht.
    pose proof (chain_ok_node _ _ _ _ _ H) as Hok. destruct (Hok) as [Hc Hl].
    apply Forall_app in H1 as [H10 H1t]. apply Forall_cons in H1t as [H1t _]. simpl in H1t.
    mstep. mstep. rewrite (ck_asize _ _ H).
    destruct (Z.eqb_spec (count tn) Size) as [Hfull|Hroom].
    + destruct (avail s) as [|av] eqn:Hav.
      * right. split; [done|]. rewrite bind_assoc. apply bind_Throw.
        by apply (split_no_memory s t tn).
      * left. destruct (split_spec s L0 t tn [] av H Hav H1t) as (s1 & Hrun & Hck & _).
        rewrite bind_assoc. erewrite bind_Ok by exact Hrun. repeat mstep.
        simpl in Hck.
        replace (L0 ++ [(t, split_left tn (fresh (dom (heap s))));
                        (fresh (dom (heap s)), split_right tn t)])
          with ((L0 ++ [(t, split_left tn (fresh (dom (heap s))))])
                ++ [(fresh (dom (heap s)), split_right tn t)]) in Hck
          by (by rewrite <- app_assoc).
        destruct (chain_ok_snoc_tail _ _ _ _ Hck) as [Htl1 _]. rewrite Htl1.
        pose proof (numSplit_of_bounds _ H1t) as Hk.
        destruct (push_back_in_node_spec s1 _ _ _ [] v Hck) as (s2 & Hrun2 & Hck2 & _).
        { simpl. lia. }
        eexists s2, _. split; [exact Hrun2|]. split; [split; [exact Hck2|]|].
        -- apply Forall_app. split; [apply Forall_app; split; [done|]|].
           ++ constructor; [simpl; lia|constructor].
           ++ constructor; [simpl; lia|constructor].
        -- rewrite !contents_app. unfold contents at 2 3 5. simpl.
           rewrite !app_nil_r. rewrite live_node_push.
           ++ rewrite <- !app_assoc. f_equal. rewrite app_assoc. f_equal.
              by apply live_split.
           ++ by apply node_ok_split_right.
           ++ simpl. lia.
    + left. destruct (push_back_in_node_spec s L0 t tn [] v H) as (s2 & Hrun2 & Hck2 & _);
        [lia|].
      repeat mstep. rewrite Htl.
      eexists s2, _. split; [exact Hrun2|]. split; [split; [exact Hck2|]|].
      * apply Forall_app. split; [done|]. constructor; [simpl; lia|constructor].
      * rewrite !contents_app. unfold contents at 2 4. simpl.
        rewrite !app_nil_r. rewrite live_node_push; [|done|lia].
        by rewrite app_assoc.
Qed.


(** *** Inserting into a node *)

Lemma list_split_one {A} (vs : list A) (l : nat) :
  (l < length vs)%nat →
  ∃ pre x rest, vs = pre ++ x :: rest ∧ length pre = l.
Proof.
  intros Hl. destruct (lookup_lt_is_Some_2 vs l Hl) as [x Hx].
  exists (take l vs), x, (drop (S l) vs). split.
  - by rewrite take_drop_middle.
  - rewrite length_take. lia.
Qed.

Lemma list_split_two {A} (vs : list A) (l c : nat) :
  (l < c)%nat → (c < length vs)%nat →
  ∃ pre x mid j post, vs = pre ++ x :: mid ++ j :: post
    ∧ length pre = l ∧ length mid = (c - l - 1)%nat.
Proof.
  intros Hl Hc. destruct (list_split_one vs l ltac:(lia)) as (pre & x & rest & -> & Hpre).
  rewrite length_app in Hc. simpl in Hc.
  destruct (list_split_one rest (c - l - 1) ltac:(lia)) as (mid & j & post & -> & Hmid).
  by exists pre, x, mid, j, post.
Qed.

Lemma list_snoc_inv {A} (l : list A) : ∀ x, ∃ init z, x :: l = init ++ [z].
Proof.
  induction l as [|y l IH]; intros x.
  - by exists [], x.
  - destruct (IH y) as (init & z & ->). by exists (x :: init), z.
Qed.

Lemma insert_with_room_spec (s : state) L1 a n L2 l v :
  chain_ok s (L1 ++ (a, n) :: L2) → count n < Size → 0 ≤ l < count n →
  ∃ s' n',
    (c ← get_count (Some a);
     set_value (Some a) c v;;
     c ← get_count (Some a);
     set_count (Some a) (c + 1);;
     modify (λ s, set_size (size_ s + 1) s);;
     shiftUp (Some a) l) s = Ok tt s'
    ∧ chain_ok s' (L1 ++ (a, n') :: L2)
    ∧ inserted_with_room n n' l v
    ∧ avail s' = avail s.
Proof.
  intros H Hlt Hl.
  pose proof (chain_ok_lookup _ _ _ _ _ H) as Ha.
  destruct (chain_ok_node _ _ _ _ _ H) as [Hc Hlen].
  destruct (list_split_two (values n) (Z.to_nat l) (Z.to_nat (count n)))
    as (pre & x & mid & j & post & Hv & Hpre & Hmid); [lia|lia|].
  assert (length pre + length mid + length post + 2 = Z.to_nat Size)%nat as Hsz.
  { rewrite <- Hlen, Hv. list_len. lia. }
  mstep. mset. mstep. mstep. mstep.
  erewrite (shiftUp_spec a _ pre x (mid ++ [v]) post).
  2:{ hlookup. }
  2:{ mred. rewrite Hv.
      replace (pre ++ x :: mid ++ j :: post) with ((pre ++ x :: mid) ++ j :: post)
        by (by list_norm).
      rewrite insert_at by (list_len; lia). by list_norm. }
  2:{ mred. list_len. lia. }
  2:{ lia. }
  2:{ mred. list_len. lia. }
  mred. rewrite !insert_insert_eq. rewrite rot_snoc.
  eexists _, (mkLNode (next n) (prev n) (count n + 1) (pre ++ (v :: x :: mid) ++ post)).
  split; [reflexivity|]. split; [|split; [|done]].
  - eapply chain_ok_upd; [exact H| | | | | | | | |]; mred; try done.
    + split; mred; [lia|]. list_len. lia.
    + lia.
  - split_and!; mred; try done.
    + split; mred; [lia|]. list_len. lia.
    + unfold live. mred. rewrite Hv.
      replace (Z.to_nat (count n + 1)) with (length (pre ++ v :: x :: mid)) by (list_len; lia).
      rewrite (app_assoc pre (v :: x :: mid) post).
      rewrite take_app_length.
      replace (Z.to_nat (count n)) with (length (pre ++ x :: mid)) by (list_len; lia).
      replace (pre ++ x :: mid ++ j :: post) with ((pre ++ x :: mid) ++ j :: post)
        by (by list_norm).
      rewrite take_app_length.
      rewrite take_app_length' by lia. rewrite drop_app_length' by lia. done.
Qed.


Lemma live_full n : node_ok n → count n = Size → live n = values n.
Proof. intros [Hc Hl] Hf. unfold live. apply take_ge. lia. Qed.

Lemma set_first_prev_good q L :
  Forall (λ p, 1 ≤ count p.2) L → Forall (λ p, 1 ≤ count p.2) (set_first_prev q L).
Proof. intros HL. by apply (set_first_prev_Forall (λ n, 1 ≤ count n)). Qed.

(** Rotating the overflow out of a full node and writing the new value:
    the first three statements of [insert_in_full_node]. *)
Lemma rotate_out_spec (s : state) L1 a n L2 l v pre init z :
  chain_ok s (L1 ++ (a, n) :: L2) → count n = Size →
  values n = pre ++ init ++ [z] → l = Z.of_nat (length pre) →
  ∃ s',
    (shiftUp (Some a) l ≫= λ _,
       get_value (Some a) l ≫= λ overflow,
         set_value (Some a) l v ≫= λ _, mret overflow) s = Ok z s'
    ∧ chain_ok s' (L1 ++ (a, upd_values n (pre ++ v :: init)) :: L2)
    ∧ avail s' = avail s.
Proof.
  intros H Hfull Hv ->.
  pose proof (chain_ok_lookup _ _ _ _ _ H) as Ha.
  destruct (chain_ok_node _ _ _ _ _ H) as [Hc Hlen].
  assert (length pre + length init + 1 = Z.to_nat Size)%nat as Hsz.
  { rewrite <- Hlen, Hv. list_len. lia. }
  assert (∃ x todo, init ++ [z] = x :: todo
                    ∧ rot x [] todo = z :: init) as (x & todo & Hw & Hrot).
  { destruct init as [|x t].
    - by exists z, [].
    - exists x, (t ++ [z]). split; [done|]. by rewrite rot_snoc. }
  assert (length todo = length init) as Htodo.
  { apply (f_equal length) in Hw. revert Hw. list_len. lia. }
  erewrite bind_Ok.
  2:{ eapply (shiftUp_spec a n pre x todo []); [exact Ha| |done|done|lia].
      rewrite Hv, Hw. by rewrite app_nil_r. }
  rewrite Hrot, app_nil_r. mget z.
  2:{ apply lookup_at. lia. }
  mset. mstep. rewrite !insert_insert_eq.
  eexists. split; [reflexivity|]. split; [|done].
  eapply chain_ok_upd; [exact H| | | | | | | | |]; mred; try done.
  - split; mred; [lia|]. list_len. lia.
  - rewrite Nat2Z.id. by rewrite insert_at.
  - lia.
Qed.

Lemma insert_in_full_node_cases (s : state) L1 a n L2 l v :
  good s (L1 ++ (a, n) :: L2) → count n = Size → 0 ≤ l < Size →
  (∃ s' L', insert_in_full_node (Some a) l (Outside v) s = Ok tt s' ∧ good s' L'
      ∧ contents L' = contents L1
                      ++ (take (Z.to_nat l) (live n) ++ v :: drop (Z.to_nat l) (live n))
                      ++ contents L2)
  ∨ (avail s = O ∧ ∃ s' L',
       insert_in_full_node (Some a) l (Outside v) s = Throw (LariatException E_NO_MEMORY) s'
       ∧ good s' L').
Proof.
  intros [H H1] Hfull Hl.
  pose proof (chain_ok_node _ _ _ _ _ H) as Hok. destruct (Hok) as [Hc Hlen].
  destruct (list_split_one (values n) (Z.to_nat l)) as (pre & x0 & rest0 & Hv & Hpre); [lia|].
  destruct (list_snoc_inv rest0 x0) as (init & z & Hw).
  rewrite Hw in Hv.
  destruct (rotate_out_spec s L1 a n L2 l v pre init z H Hfull Hv ltac:(lia))
    as (s1 & Hrun1 & Hck1 & Hav1).
  set (n' := upd_values n (pre ++ v :: init)) in *.
  assert (node_ok n') as Hok'. { eapply chain_ok_node; exact Hck1. }
  assert (good s1 (L1 ++ (a, n') :: L2)) as Hg1.
  { split; [done|]. apply Forall_app in H1 as [? H1']. apply Forall_cons in H1' as [? ?].
    apply Forall_app. split; [done|]. by constructor. }
  assert (insert_in_full_node (Some a) l (Outside v) s
          = (splitNode ← split (Some a); push_back_in_node splitNode (Outside z)) s1) as Heq.
  { unfold insert_in_full_node.
    revert Hrun1. unfold mbind, M_bind, read, mret, M_ret.
    destruct (shiftUp (Some a) l s) as [[] s0| | |]; try done.
    destruct (get_value (Some a) l s0) as [ov s0'| | |]; try done.
    destruct (set_value (Some a) l v s0') as [[] s0''| | |]; try done.
    by intros [= -> ->]. }
  rewrite Heq. rewrite <- Hav1.
  destruct (avail s1) as [|av] eqn:Hav.
  - right. split; [done|]. exists s1, (L1 ++ (a, n') :: L2). split; [|done].
    apply bind_Throw. eapply split_no_memory; [|done].
    eapply chain_ok_lookup; exact Hck1.
  - left. destruct (split_spec s1 L1 a n' L2 av Hck1 Hav) as (s2 & Hrun2 & Hck2 & _).
    { simpl. lia. }
    erewrite bind_Ok by exact Hrun2.
    set (b := fresh (dom (heap s1))) in *.
    pose proof (numSplit_of_bounds (count n') ltac:(simpl; lia)) as Hk.
    destruct (push_back_in_node_spec s2 (L1 ++ [(a, split_left n' b)]) b
                (split_right n' a) (set_first_prev (Some b) L2) z)
      as (s3 & Hrun3 & Hck3 & _).
    { by rewrite <- app_assoc. }
    { simpl in *. lia. }
    eexists s3, _. split; [exact Hrun3|]. split; [split; [exact Hck3|]|].
    + apply Forall_app in H1 as [H1a H1b]. apply Forall_cons in H1b as [_ H1b].
      apply Forall_app. split; [apply Forall_app; split; [done|]|].
      * constructor; [simpl in *; lia|constructor].
      * constructor; [simpl in *; lia|]. by apply set_first_prev_good.
    + rewrite !contents_app, !contents_cons. simpl snd.
      rewrite set_first_prev_contents. unfold contents at 2. simpl.
      rewrite app_nil_r, <- !app_assoc. f_equal.
      rewrite live_node_push;
        [|apply node_ok_split_right; [done|simpl; lia]|simpl in *; lia].
      rewrite !app_assoc. f_equal. rewrite <- !app_assoc.
      rewrite (app_assoc (live (split_left n' b))).
      rewrite live_split; [|done|simpl; lia].
      rewrite (live_full n') by done. rewrite (live_full n) by done.
      unfold n'. simpl. rewrite Hv.
      rewrite take_app_length' by lia. rewrite drop_app_length' by lia.
      by list_norm.
Qed.


Lemma push_back_outcome (s : state) L v :
  good s L → ok_or_oom (push_back (Outside v) s) s (λ es, es = contents L ++ [v]).
Proof.
  intros Hg. destruct (push_back_cases s L v Hg) as [(s' & L' & ? & ? & ?)|[? ?]].
  - left. by exists s', L'.
  - right. split; [done|]. by exists s, L.
Qed.

Lemma push_front_outcome (s : state) L v :
  good s L → ok_or_oom (push_front (Outside v) s) s (λ es, es = v :: contents L).
Proof.
  intros [H H1]. unfold push_front. mstep.
  destruct L as [|[a n] L2].
  - destruct (chain_ok_nil_head _ H) as [-> _]. rewrite ptr_eqb_refl.
    destruct (avail s) as [|av] eqn:Hav.
    + right. split; [done|]. exists s, []. split; [|done].
      by apply push_first_value_no_memory.
    + left. destruct (push_first_value_spec s v av H Hav) as (s' & Hrun & Hck & _).
      eexists s', _. split; [exact Hrun|]. split; [split; [exact Hck|]|].
      * constructor; [simpl; lia|constructor].
      * unfold contents. simpl. by rewrite live_first_node.
  - rewrite (ck_head _ _ H). cbn [first_addr fst].
    rewrite (ptr_eqb_ne (Some a) None) by done.
    pose proof (chain_ok_lookup _ [] _ _ _ H) as Ha.
    pose proof (chain_ok_node _ [] _ _ _ H) as Hok. destruct (Hok) as [Hc Hl].
    pose proof H1 as H1'. apply Forall_cons in H1' as [H1n H1r]. simpl in H1n.
    mstep. mstep. rewrite (ck_asize _ _ H).
    destruct (Z.eqb_spec (count n) Size) as [Hfull|Hroom].
    + destruct (insert_in_full_node_cases s [] a n L2 0 v) as [Hok'|Hoom];
        [done|done|lia| |].
      * left. destruct Hok' as (s' & L' & Hrun & Hg & Hcont).
        exists s', L'. split; [exact Hrun|]. split; [done|].
        rewrite Hcont. simpl. by rewrite drop_0.
      * right. exact Hoom.
    + destruct (insert_with_room_spec s [] a n L2 0 v H) as (s' & n' & Hrun & Hck & Hins & _);
        [lia|lia|].
      destruct Hins as (_ & _ & Hcn & _ & Hlive).
      left. exists s', ((a, n') :: L2). split; [exact Hrun|]. split; [split; [exact Hck|]|].
      * constructor; [simpl; lia|done].
      * rewrite !contents_cons. simpl. rewrite Hlive. simpl. by rewrite drop_0.
Qed.

Lemma contents_insert_at L1 (n : LNode) L2 index l v :
  Forall (λ p, node_ok p.2) L1 → node_ok n →
  total L1 ≤ index → l = index - total L1 → l ≤ count n →
  take (Z.to_nat index) (contents L1 ++ live n ++ contents L2)
    ++ v :: drop (Z.to_nat index) (contents L1 ++ live n ++ contents L2)
  = contents L1 ++ (take (Z.to_nat l) (live n) ++ v :: drop (Z.to_nat l) (live n))
    ++ contents L2.
Proof.
  intros H1 Hn Hi -> Hl.
  pose proof (length_contents _ H1) as Hlen1. pose proof (length_live _ Hn) as Hlenn.
  pose proof (total_nonneg _ H1) as Hnn.
  rewrite take_app_ge, drop_app_ge by lia.
  replace (Z.to_nat index - length (contents L1))%nat with (Z.to_nat (index - total L1)) by lia.
  rewrite take_app_le, drop_app_le by lia.
  by list_norm.
Qed.

Lemma insert_outcome (s : state) L fuel index v :
  good s L → (length L ≤ fuel)%nat → 0 ≤ index ≤ size_ s →
  ok_or_oom (insert fuel index (Outside v) s) s
    (λ es, es = take (Z.to_nat index) (contents L)
                ++ v :: drop (Z.to_nat index) (contents L)).
Proof.
  intros Hg Hf Hi. pose proof Hg as [H H1].
  pose proof (length_contents _ (ck_nodes _ _ H)) as Hlen.
  rewrite <- (ck_size _ _ H) in Hlen.
  unfold insert. mstep.
  replace ((index <? 0) || (size_ s <? index)) with false
    by (symmetry; apply orb_false_iff; lia).
  destruct (Z.eqb_spec index (size_ s)) as [->|Hne].
  - destruct (push_back_outcome s L v Hg) as [(s' & L' & Hrun & Hg' & Hc)|Hoom].
    + left. exists s', L'. split; [done|]. split; [done|].
      rewrite Hc. rewrite take_ge, drop_ge by lia. done.
    + by right.
  - destruct (Z.eqb_spec index 0) as [->|Hne0].
    + destruct (push_front_outcome s L v Hg) as [(s' & L' & Hrun & Hg' & Hc)|Hoom].
      * left. exists s', L'. split; [done|]. split; [done|].
        rewrite Hc. simpl. by rewrite drop_0.
      * by right.
    + destruct (find_element_spec s L fuel index H) as (L1 & a & n & L2 & -> & Hr & Hrun);
        [lia|done|].
      erewrite bind_Ok by exact Hrun. mred.
      pose proof (chain_ok_lookup _ _ _ _ _ H) as Ha.
      pose proof (chain_ok_node _ _ _ _ _ H) as Hok. destruct (Hok) as [Hc Hl].
      pose proof (ck_nodes _ _ H) as Hns. apply Forall_app in Hns as [Hns1 _].
      mstep. mstep. rewrite (ck_asize _ _ H).
      rewrite contents_app, contents_cons. simpl snd.
      destruct (Z.ltb_spec (count n) Size) as [Hroom|Hfull].
      * destruct (insert_with_room_spec s L1 a n L2 (index - total L1) v H)
          as (s' & n' & Hrun' & Hck & Hins & _); [lia|lia|].
        destruct Hins as (_ & _ & Hcn & _ & Hlive).
        left. exists s', (L1 ++ (a, n') :: L2). split; [exact Hrun'|].
        split; [split; [exact Hck|]|].
        -- apply Forall_app in H1 as [? H1']. apply Forall_cons in H1' as [? ?].
           apply Forall_app. split; [done|]. constructor; [simpl in *; lia|done].
        -- rewrite contents_app, contents_cons. simpl snd. rewrite Hlive.
           symmetry. apply contents_insert_at; [done|done|lia|done|lia].
      * destruct (insert_in_full_node_cases s L1 a n L2 (index - total L1) v)
          as [(s' & L' & Hrun' & Hg' & Hcont)|Hoom]; [done|lia|lia| |].
        -- left. exists s', L'. split; [exact Hrun'|]. split; [done|].
           rewrite Hcont. symmetry. apply contents_insert_at; [done|done|lia|done|lia].
        -- by right.
Qed.

Lemma insert_bad_index (s : state) fuel index v :
  index < 0 ∨ size_ s < index →
  insert fuel index v s = Throw (LariatException E_BAD_INDEX) s.
Proof.
  intros Hi. unfold insert. mstep.
  replace ((index <? 0) || (size_ s <? index)) with true; [done|].
  symmetry. apply orb_true_iff. lia.
Qed.


(** *** Removing from a node *)

Lemma remove_shift_spec (s : state) L1 a n L2 l :
  chain_ok s (L1 ++ (a, n) :: L2) → count n < Size → 0 ≤ l < count n →
  ∃ s' n',
    (shiftDown (Some a) l;;
     c ← get_count (Some a);
     set_count (Some a) (c - 1);;
     modify (λ s, set_size (size_ s - 1) s)) s = Ok tt s'
    ∧ chain_ok s' (L1 ++ (a, n') :: L2)
    ∧ count n' = count n - 1
    ∧ live n' = take (Z.to_nat l) (live n) ++ drop (S (Z.to_nat l)) (live n)
    ∧ avail s' = avail s.
Proof.
  intros H Hlt Hl.
  pose proof (chain_ok_lookup _ _ _ _ _ H) as Ha.
  destruct (chain_ok_node _ _ _ _ _ H) as [Hc Hlen].
  destruct (list_split_two (values n) (Z.to_nat l) (Z.to_nat (count n)))
    as (pre & x & mid & g & post & Hv & Hpre & Hmid); [lia|lia|].
  assert (length pre + length mid + length post + 2 = Z.to_nat Size)%nat as Hsz.
  { rewrite <- Hlen, Hv. list_len. lia. }
  erewrite bind_Ok.
  2:{ eapply (shiftDown_spec a n pre x mid g post); [exact Ha|exact Hv|done|lia|lia]. }
  mstep. mstep. mstep. rewrite !insert_insert_eq.
  eexists _, (mkLNode (next n) (prev n) (count n - 1) (pre ++ mid ++ g :: g :: post)).
  split; [reflexivity|]. split; [|split; [done|split; [|done]]].
  - eapply chain_ok_upd; [exact H| | | | | | | | |]; mred; try done.
    + split; mred; [lia|]. list_len. lia.
    + lia.
  - unfold live. mred. rewrite Hv.
    replace (Z.to_nat (count n - 1)) with (length (pre ++ mid)) by (list_len; lia).
    rewrite (app_assoc pre mid). rewrite take_app_length.
    replace (Z.to_nat (count n)) with (length (pre ++ x :: mid)) by (list_len; lia).
    replace (pre ++ x :: mid ++ g :: post) with ((pre ++ x :: mid) ++ g :: post)
      by (by list_norm).
    rewrite take_app_length.
    rewrite take_app_length' by lia.
    replace (S (Z.to_nat l)) with (length (pre ++ [x])) by (list_len; lia).
    replace (pre ++ x :: mid) with ((pre ++ [x]) ++ mid) by (by list_norm).
    by rewrite drop_app_length.
Qed.

(** the closing test of the removal operations: delete the node if it
    has become empty *)
Lemma cleanup_spec (s : state) L1 a n L2 :
  chain_ok s (L1 ++ (a, n) :: L2) →
  Forall (λ p, 1 ≤ count p.2) L1 → Forall (λ p, 1 ≤ count p.2) L2 →
  ∃ s' L',
    (c ← get_count (Some a);
     if c =? 0 then deleteNode (Some a) else mret tt) s = Ok tt s'
    ∧ good s' L'
    ∧ contents L' = contents (L1 ++ (a, n) :: L2).
Proof.
  intros H H1 H2.
  pose proof (chain_ok_lookup _ _ _ _ _ H) as Ha.
  destruct (chain_ok_node _ _ _ _ _ H) as [Hc Hlen].
  mstep. destruct (Z.eqb_spec (count n) 0) as [Hz|Hnz].
  - destruct (deleteNode_spec s L1 a n L2 H Hz) as (s' & L' & Hrun & Hck & Hsd & _).
    exists s', L'. split; [exact Hrun|]. split; [split; [done|]|].
    + eapply (same_data_Forall (λ c, 1 ≤ c)); [exact Hsd|]. by apply Forall_app.
    + rewrite (same_data_contents _ _ Hsd). rewrite !contents_app, contents_cons.
      unfold live. simpl. rewrite Hz. by rewrite take_0.
  - exists s, (L1 ++ (a, n) :: L2). split; [done|]. split; [split; [done|]|done].
    apply Forall_app. split; [done|]. constructor; [simpl; lia|done].
Qed.

(** *** [pop_back] *)

Lemma pop_back_empty (s : state) : chain_ok s [] → pop_back s = Fault.
Proof.
  intros H. unfold pop_back. mstep. destruct (chain_ok_nil_head _ H) as [_ ->]. done.
Qed.

Lemma removelast_snoc {A} (l : list A) x : removelast (l ++ [x]) = l.
Proof. apply removelast_last. Qed.

Lemma live_pop n :
  node_ok n → 1 ≤ count n →
  live (upd_count n (count n - 1)) = removelast (live n).
Proof.
  intros [Hc Hl] H1. unfold live. simpl.
  destruct (lookup_lt_is_Some_2 (values n) (Z.to_nat (count n - 1))) as [x Hx]; [lia|].
  replace (Z.to_nat (count n)) with (S (Z.to_nat (count n - 1))) by lia.
  rewrite (take_S_r _ _ x Hx). by rewrite removelast_snoc.
Qed.

Lemma removelast_app_nonempty {A} (l1 l2 : list A) :
  l2 ≠ [] → removelast (l1 ++ l2) = l1 ++ removelast l2.
Proof. intros H. by apply removelast_app. Qed.

Lemma pop_back_spec (s : state) L :
  good s L → L ≠ [] →
  ∃ s' L', pop_back s = Ok tt s' ∧ good s' L'
    ∧ contents L' = removelast (contents L).
Proof.
  intros [H H1] Hne.
  destruct L as [|[t tn] L0 _] using rev_ind; [done|]. clear Hne.
  destruct (chain_ok_snoc_tail _ _ _ _ H) as [Htl _].
  pose proof (chain_ok_lookup _ _ _ _ _ H) as Ht.
  pose proof (chain_ok_node _ _ _ _ _ H) as Hok. destruct (Hok) as [Hc Hl].
  apply Forall_app in H1 as [H10 H1t]. apply Forall_cons in H1t as [H1t _]. simpl in H1t.
  unfold pop_back. mstep. rewrite Htl. mstep. mstep. mstep. mstep. rewrite Htl.
  set (s1 := mkState _ _ _ _ _ _ _).
  assert (chain_ok s1 (L0 ++ [(t, upd_count tn (count tn - 1))])) as Hck1.
  { eapply chain_ok_upd; [exact H| | | | | | | | |]; mred; try done.
    - split; mred; [lia|done].
    - unfold s1. simpl. lia. }
  destruct (cleanup_spec s1 L0 t _ [] Hck1 H10 ltac:(constructor))
    as (s' & L' & Hrun & Hg & Hcont).
  exists s', L'. split; [exact Hrun|]. split; [done|].
  rewrite Hcont. rewrite !contents_app. unfold contents at 2 4. simpl.
  rewrite !app_nil_r. rewrite live_pop by done.
  rewrite removelast_app_nonempty; [done|].
  intros Hnil. apply (f_equal length) in Hnil.
  pose proof (length_live _ Hok). simpl in Hnil. lia.
Qed.

(** *** [pop_front] *)

Lemma pop_front_empty (s : state) : head_ s = None → pop_front s = Ok tt s.
Proof. intros H. unfold pop_front. mstep. rewrite H. by rewrite ptr_eqb_refl. Qed.

Lemma pop_front_full (s : state) a n L2 :
  chain_ok s ((a, n) :: L2) → count n = Size → pop_front s = Fault.
Proof.
  intros H Hfull.
  pose proof (chain_ok_lookup _ [] _ _ _ H) as Ha.
  destruct (chain_ok_node _ [] _ _ _ H) as [Hc Hlen].
  unfold pop_front. mstep. rewrite (ck_head _ _ H). cbn [first_addr fst].
  rewrite (ptr_eqb_ne (Some a) None) by done.
  apply bind_Fault. eapply shiftDown_full; eauto. lia.
Qed.

Lemma pop_front_spec (s : state) a n L2 :
  good s ((a, n) :: L2) → count n < Size →
  ∃ s' L', pop_front s = Ok tt s' ∧ good s' L'
    ∧ contents L' = drop 1 (contents ((a, n) :: L2)).
Proof.
  intros [H H1] Hroom.
  apply Forall_cons in H1 as [H1n H12]. simpl in H1n.
  pose proof (chain_ok_node _ [] _ _ _ H) as Hok.
  unfold pop_front. mstep. rewrite (ck_head _ _ H). cbn [first_addr fst].
  rewrite (ptr_eqb_ne (Some a) None) by done.
  destruct (remove_shift_spec s [] a n L2 0 H Hroom ltac:(lia))
    as (s1 & n' & Hrun1 & Hck1 & Hcn & Hlive & _).
  assert (pop_front_tail :
    ∀ k : unit → M unit,
      (shiftDown (Some a) 0;;
       c ← get_count (Some a);
       set_count (Some a) (c - 1);;
       modify (λ s, set_size (size_ s - 1) s);; k tt) s = k tt s1).
  { intros k. revert Hrun1. unfold mbind, M_bind.
    destruct (shiftDown (Some a) 0 s) as [[] s0| | |]; try done.
    destruct (get_count (Some a) s0) as [c s0'| | |]; try done.
    destruct (set_count (Some a) (c - 1) s0') as [[] s0''| | |]; try done.
    unfold modify. by intros [= ->]. }
  rewrite (pop_front_tail (λ _, hd ← get head_; c ← get_count hd;
                                 if c =? 0 then deleteNode hd else mret tt)).
  mstep. rewrite (ck_head _ _ Hck1). cbn [app first_addr fst].
  destruct (cleanup_spec s1 [] a n' L2 Hck1 ltac:(constructor) H12)
    as (s' & L' & Hrun & Hg & Hcont).
  exists s', L'. split; [exact Hrun|]. split; [done|].
  rewrite Hcont. simpl app. rewrite !contents_cons. simpl snd. rewrite Hlive.
  simpl take. simpl app.
  assert (live n ≠ []) as Hne.
  { intros Hnil. apply (f_equal length) in Hnil.
    pose proof (length_live _ Hok). simpl in Hnil. lia. }
  destruct (live n) as [|x r]; [done|]. done.
Qed.


(** *** [erase] *)

Lemma run_get_value_neg p i (s : state) : i < 0 → get_value p i s = Fault.
Proof.
  intros Hi. unfold get_value, deref, mbind, M_bind.
  destruct p as [a|]; [|done]. destruct (heap s !! a); [|done].
  by replace (0 <=? i) with false by lia.
Qed.

Lemma run_set_value_neg p i v (s : state) : i < 0 → set_value p i v s = Fault.
Proof.
  intros Hi. unfold set_value, deref, mbind, M_bind.
  destruct p as [a|]; [|done]. destruct (heap s !! a); [|done].
  by replace (0 <=? i) with false by lia.
Qed.

Lemma shiftDown_negative (s : state) a n l :
  heap s !! a = Some n → node_ok n → 1 ≤ count n → l < 0 →
  shiftDown (Some a) l s = Fault.
Proof.
  intros Ha [Hc Hlen] H1 Hl. unfold shiftDown. mstep.
  replace (Z.to_nat (count n - l)) with (S (Z.to_nat (count n - l - 1))) by lia.
  cbn [for_loop]. rewrite bind_assoc.
  destruct (Z.eq_dec l (-1)) as [->|Hne].
  - destruct (lookup_lt_is_Some_2 (values n) 0) as [x Hx]; [lia|].
    mget x; [|exact Hx]. apply bind_Fault.
    by apply run_set_value_neg.
  - apply bind_Fault. apply run_get_value_neg. lia.
Qed.

Lemma good_size_pos (s : state) L : good s L → L ≠ [] → 1 ≤ size_ s.
Proof.
  intros [H H1] Hne. rewrite (ck_size _ _ H).
  destruct L as [|p L]; [done|]. apply Forall_cons in H1 as [Hp _].
  pose proof (ck_nodes _ _ H) as Hns. apply Forall_cons in Hns as [_ Hns].
  pose proof (total_nonneg _ Hns). simpl. lia.
Qed.

Lemma good_size_nil (s : state) : good s [] → size_ s = 0.
Proof. intros [H _]. by rewrite (ck_size _ _ H). Qed.

Lemma erase_out_of_range (s : state) L fuel index :
  good s L → index < 0 ∨ size_ s < index → (length L < fuel)%nat →
  erase fuel index s = Fault.
Proof.
  intros Hg Hi Hf. pose proof Hg as [H H1].
  pose proof (total_nonneg _ (ck_nodes _ _ H)) as Hnn. rewrite <- (ck_size _ _ H) in Hnn.
  unfold erase. mstep.
  replace (index =? 0) with false by lia.
  replace (index =? size_ s) with false by lia.
  destruct Hi as [Hneg|Hbig].
  - destruct L as [|[a n] L2].
    + apply bind_Fault. unfold find_element. mstep.
      destruct (chain_ok_nil_head _ H) as [-> _].
      destruct fuel as [|fuel]; [simpl in Hf; lia|]. done.
    + pose proof (chain_ok_lookup _ [] _ _ _ H) as Ha.
      pose proof (chain_ok_node _ [] _ _ _ H) as Hok.
      apply Forall_cons in H1 as [H1n _]. simpl in H1n.
      erewrite bind_Ok.
      2:{ unfold find_element. mstep. rewrite (ck_head _ _ H). cbn [first_addr fst].
          destruct fuel as [|fuel]; [simpl in Hf; lia|]. cbn [find_element_loop].
          mstep. replace (0 + count n <=? index) with false by lia. reflexivity. }
      mred. apply bind_Fault. eapply shiftDown_negative; eauto. lia.
  - apply bind_Fault. unfold find_element. mstep. rewrite (ck_head _ _ H).
    eapply find_element_loop_off; [apply H|apply H|apply H| |done].
    rewrite <- (ck_size _ _ H). lia.
Qed.

Lemma erase_middle_full (s : state) a n fuel index l :
  heap s !! a = Some n → node_ok n → count n = Size → 0 ≤ l < Size →
  find_element fuel index s = Ok (mkInfo (Some a) l) s →
  index ≠ 0 → index ≠ size_ s →
  erase fuel index s = Fault.
Proof.
  intros Ha [Hc Hlen] Hfull Hl Hrun Hi0 His.
  unfold erase. mstep.
  replace (index =? 0) with false by lia.
  replace (index =? size_ s) with false by lia.
  erewrite bind_Ok by exact Hrun. mred.
  apply bind_Fault. eapply shiftDown_full; eauto.
Qed.

Lemma contents_delete_at L1 (n : LNode) L2 index l :
  Forall (λ p, node_ok p.2) L1 → node_ok n →
  total L1 ≤ index → l = index - total L1 → l < count n →
  contents L1 ++ (take (Z.to_nat l) (live n) ++ drop (S (Z.to_nat l)) (live n))
    ++ contents L2
  = take (Z.to_nat index) (contents L1 ++ live n ++ contents L2)
    ++ drop (S (Z.to_nat index)) (contents L1 ++ live n ++ contents L2).
Proof.
  intros H1 Hn Hi -> Hl.
  pose proof (length_contents _ H1) as Hlen1. pose proof (length_live _ Hn) as Hlenn.
  pose proof (total_nonneg _ H1) as Hnn.
  rewrite take_app_ge, drop_app_ge by lia.
  replace (Z.to_nat index - length (contents L1))%nat with (Z.to_nat (index - total L1)) by lia.
  replace (S (Z.to_nat index) - length (contents L1))%nat
    with (S (Z.to_nat (index - total L1))) by lia.
  rewrite take_app_le, drop_app_le by lia.
  by list_norm.
Qed.

Lemma erase_middle_spec (s : state) L fuel index :
  good s L → (length L ≤ fuel)%nat → 0 < index < size_ s →
  erase fuel index s = Fault
  ∨ ∃ s' L', erase fuel index s = Ok tt s' ∧ good s' L'
      ∧ contents L' = take (Z.to_nat index) (contents L)
                      ++ drop (S (Z.to_nat index)) (contents L).
Proof.
  intros Hg Hf Hi. pose proof Hg as [H H1].
  destruct (find_element_spec s L fuel index H ltac:(lia) Hf)
    as (L1 & a & n & L2 & -> & Hr & Hrun).
  pose proof (chain_ok_node _ _ _ _ _ H) as Hok. destruct (Hok) as [Hc Hlen].
  destruct (Z.eq_dec (count n) Size) as [Hfull|Hroom].
  { left. eapply (erase_middle_full s a n); [|done|done| |exact Hrun|lia|lia].
    - eapply chain_ok_lookup; exact H.
    - lia. }
  right. unfold erase. mstep.
  replace (index =? 0) with false by lia.
  replace (index =? size_ s) with false by lia.
  erewrite bind_Ok by exact Hrun. mred.
  destruct (remove_shift_spec s L1 a n L2 (index - total L1) H ltac:(lia) ltac:(lia))
    as (s1 & n' & Hrun1 & Hck1 & Hcn & Hlive & _).
  assert (erase_tail :
    ∀ k : unit → M unit,
      (shiftDown (Some a) (index - total L1);;
       c ← get_count (Some a);
       set_count (Some a) (c - 1);;
       modify (λ s, set_size (size_ s - 1) s);; k tt) s = k tt s1).
  { intros k. revert Hrun1. unfold mbind, M_bind.
    destruct (shiftDown (Some a) (index - total L1) s) as [[] s0| | |]; try done.
    destruct (get_count (Some a) s0) as [c s0'| | |]; try done.
    destruct (set_count (Some a) (c - 1) s0') as [[] s0''| | |]; try done.
    unfold modify. by intros [= ->]. }
  rewrite (erase_tail (λ _, c ← get_count (Some a);
                            if c =? 0 then deleteNode (Some a) else mret tt)).
  apply Forall_app in H1 as [H11 H12]. apply Forall_cons in H12 as [_ H12].
  destruct (cleanup_spec s1 L1 a n' L2 Hck1 H11 H12) as (s' & L' & Hrun' & Hg' & Hcont).
  exists s', L'. split; [exact Hrun'|]. split; [done|].
  rewrite Hcont. rewrite !contents_app, !contents_cons. simpl snd. rewrite Hlive.
  pose proof (ck_nodes _ _ H) as Hns. apply Forall_app in Hns as [Hns1 _].
  apply contents_delete_at; [done|done|lia|done|lia].
Qed.


(** *** [clear] *)

Lemma clear_loop_spec L : ∀ pre fuel (s : state),
  NoDup L.*1 → agree (heap s) L → lk pre L None → (length L < fuel)%nat →
  ∃ s', clear_loop fuel (first_addr L None) s = Ok tt s' ∧ asize_ s' = asize_ s.
Proof.
  induction L as [|[a n] L IH]; intros pre fuel s Hnd Hag Hlk Hf.
  - destruct fuel as [|fuel]; [simpl in Hf; lia|]. by exists s.
  - destruct fuel as [|fuel]; [simpl in Hf; lia|].
    apply Forall_cons in Hag as [Ha Hag]. destruct Hlk as (_ & Hn & Hlk).
    rewrite fmap_cons in Hnd. apply NoDup_cons in Hnd as [Hna Hnd].
    simpl in *. mstep. mstep. rewrite Hn.
    destruct (IH (Some a) fuel
                (mkState (delete a (heap s)) (S (avail s)) (head_ s) (tail_ s)
                         (size_ s) (nodecount_ s) (asize_ s)))
      as (s' & Hrun & Has); [done|by apply agree_delete_notin|done|lia|].
    exists s'. by split.
Qed.

Lemma clear_spec (s : state) L fuel :
  chain_ok s L → (length L < fuel)%nat →
  ∃ s', clear fuel s = Ok tt s' ∧ good s' [].
Proof.
  intros H Hf. unfold clear. mstep. rewrite (ck_head _ _ H).
  destruct (clear_loop_spec L None fuel s) as (s' & Hrun & Has);
    [apply H|apply H|apply H|done|].
  erewrite bind_Ok by exact Hrun. repeat mstep.
  eexists. split; [reflexivity|]. split; [|constructor].
  constructor; mred; try done; try constructor.
  rewrite Has. apply H.
Qed.

(** *** The loops of [compact] *)

Lemma for_loop_app {A} k1 : ∀ k2 i (acc : A) (body : Z → A → M A) (s : state),
  for_loop (k1 + k2) i acc body s
  = (acc' ← for_loop k1 i acc body; for_loop k2 (i + Z.of_nat k1) acc' body) s.
Proof.
  induction k1 as [|k1 IH]; intros k2 i acc body s.
  - simpl. rewrite bind_mret. by rewrite Z.add_0_r.
  - cbn [for_loop Nat.add]. rewrite bind_assoc.
    replace (i + Z.of_nat (S k1)) with (i + 1 + Z.of_nat k1) by lia.
    unfold mbind, M_bind.
    destruct (body i acc s) as [acc' s'| | |]; try done.
Qed.

Lemma pour_body_spec (s : state) d r dn rn i x :
  heap s !! d = Some dn → heap s !! r = Some rn → asize_ s = Size →
  0 ≤ i < Size → values rn !! Z.to_nat i = Some x →
  0 ≤ count dn < Size → length (values dn) = Z.to_nat Size →
  pour_body (Some r) i (Some d) s
  = Ok (if count dn + 1 =? Size then next dn else Some d)
       (set_heap (<[d := mkLNode (next dn) (prev dn) (count dn + 1)
                          (<[Z.to_nat (count dn) := x]> (values dn))]> (heap s)) s).
Proof.
  intros Hd Hr Has Hi Hx Hc Hl. unfold pour_body.
  mget x; [|exact Hx]. mstep. mset. repeat mstep. rewrite Has.
  rewrite !insert_insert_eq.
  destruct (Z.eqb_spec (count dn + 1) Size); by mstep.
Qed.

(** Pouring [xs] from the right node into a different left node that
    can hold them all. *)
Lemma pour_into xs : ∀ rpre rpost dpre dmid dpost d r dn rn (s : state),
  d ≠ r → heap s !! d = Some dn → heap s !! r = Some rn → asize_ s = Size →
  values rn = rpre ++ xs ++ rpost →
  values dn = dpre ++ dmid ++ dpost → length dmid = length xs →
  count dn = Z.of_nat (length dpre) →
  length (values rn) = Z.to_nat Size → length (values dn) = Z.to_nat Size →
  for_loop (length xs) (Z.of_nat (length rpre)) (Some d) (pour_body (Some r)) s
  = Ok (if (0 <? Z.of_nat (length xs)) && (count dn + Z.of_nat (length xs) =? Size)
        then next dn else Some d)
       (set_heap (<[d := mkLNode (next dn) (prev dn) (count dn + Z.of_nat (length xs))
                          (dpre ++ xs ++ dpost)]> (heap s)) s).
Proof.
  induction xs as [|x xs IH];
    intros rpre rpost dpre dmid dpost d r dn rn s Hdr Hd Hr Has Hvr Hvd Hlen Hc Hlr Hld.
  - destruct dmid; [|done]. simpl in *. rewrite run_mret. rewrite Z.add_0_r.
    rewrite <- Hvd. destruct dn; simpl. by rewrite set_heap_insert_id.
  - destruct dmid as [|y dmid]; [done|]. simpl in Hlen.
    assert (length rpre + S (length xs) + length rpost = Z.to_nat Size)%nat as Hs1.
    { rewrite <- Hlr, Hvr. list_len. lia. }
    assert (length dpre + S (length dmid) + length dpost = Z.to_nat Size)%nat as Hs2.
    { rewrite <- Hld, Hvd. list_len. lia. }
    cbn [for_loop length].
    erewrite bind_Ok.
    2:{ eapply (pour_body_spec s d r dn rn _ x); [done|done|done|lia| |lia|done].
        rewrite Hvr. apply lookup_at. lia. }
    set (dn' := mkLNode (next dn) (prev dn) (count dn + 1) ((dpre ++ [x]) ++ dmid ++ dpost)).
    assert (<[Z.to_nat (count dn) := x]> (values dn) = (dpre ++ [x]) ++ dmid ++ dpost) as ->.
    { rewrite Hvd, Hc, Nat2Z.id. simpl. rewrite insert_at by done. by list_norm. }
    fold dn'.
    destruct (Z.eqb_spec (count dn + 1) Size) as [Heq|Hne].
    + assert (xs = []) as -> by (destruct xs; [done|simpl in *; lia]).
      destruct dmid; [|simpl in *; lia].
      simpl for_loop. rewrite run_mret. simpl length.
      change (Z.of_nat 1) with 1.
      replace (count dn + 1 =? Size) with true by lia. simpl.
      unfold dn'. st_eq. by list_norm.
    + replace (Z.of_nat (length rpre) + 1) with (Z.of_nat (length (rpre ++ [x])))
        by (list_len; lia).
      rewrite (IH (rpre ++ [x]) rpost (dpre ++ [x]) dmid dpost d r dn' rn).
      * mred. rewrite insert_insert_eq. unfold dn'. simpl.
        replace (count dn + 1 + Z.of_nat (length xs))
          with (count dn + Z.of_nat (S (length xs))) by lia.
        f_equal.
        -- destruct xs as [|x' xs]; simpl length.
           ++ change (Z.of_nat 1) with 1. simpl.
              by replace (count dn + 1 =? Size) with false by lia.
           ++ done.
        -- st_eq. by list_norm.
      * done.
      * hlookup.
      * hlookup.
      * done.
      * rewrite Hvr. by list_norm.
      * done.
      * lia.
      * unfold dn'. simpl. list_len. lia.
      * done.
      * unfold dn'. simpl. rewrite <- Hld, Hvd. list_len. lia.
Qed.

(** Pouring the rest of the right node into itself, once the left foot
    has caught up with it: slot [k] is written from slot [i >= k]. *)
Lemma pour_self xs : ∀ vpre gap post r rn (s : state),
  heap s !! r = Some rn → asize_ s = Size →
  values rn = vpre ++ gap ++ xs ++ post →
  count rn = Z.of_nat (length vpre) →
  Z.of_nat (length vpre + length xs) < Size →
  length (values rn) = Z.to_nat Size →
  ∃ gap', length gap' = length gap ∧
    for_loop (length xs) (Z.of_nat (length vpre + length gap)) (Some r)
      (pour_body (Some r)) s
    = Ok (Some r)
         (set_heap (<[r := mkLNode (next rn) (prev rn) (count rn + Z.of_nat (length xs))
                            (vpre ++ xs ++ gap' ++ post)]> (heap s)) s).
Proof.
  induction xs as [|x xs IH]; intros vpre gap post r rn s Hr Has Hv Hc Hlt Hlen.
  - exists gap. split; [done|]. simpl. rewrite run_mret, Z.add_0_r.
    simpl in Hv. rewrite <- Hv. destruct rn; simpl. by rewrite set_heap_insert_id.
  - assert (length vpre + length gap + S (length xs) + length post = Z.to_nat Size)%nat
      as Hsz.
    { rewrite <- Hlen, Hv. list_len. lia. }
    simpl in Hlt.
    assert (∃ gap1, length gap1 = length gap ∧
              <[Z.to_nat (count rn) := x]> (values rn)
              = (vpre ++ [x]) ++ gap1 ++ xs ++ post) as (gap1 & Hg1 & Hins).
    { rewrite Hv, Hc, Nat2Z.id. destruct gap as [|g gap].
      - exists []. split; [done|]. simpl. rewrite insert_at by done. by list_norm.
      - exists (gap ++ [x]). split; [list_len; lia|].
        simpl. rewrite insert_at by done. by list_norm. }
    set (rn' := mkLNode (next rn) (prev rn) (count rn + 1) ((vpre ++ [x]) ++ gap1 ++ xs ++ post)).
    destruct (IH (vpre ++ [x]) gap1 post r rn'
                (set_heap (<[r := rn']> (heap s)) s)) as (gap' & Hg' & Hrun).
    { hlookup. }
    { done. }
    { done. }
    { unfold rn'. simpl. list_len. lia. }
    { list_len. lia. }
    { unfold rn'. simpl. rewrite <- Hlen, Hv. list_len. lia. }
    exists gap'. split; [lia|].
    cbn [for_loop length].
    erewrite bind_Ok.
    2:{ eapply (pour_body_spec s r r rn rn _ x); [done|done|done|lia| |lia|done].
        rewrite Hv. rewrite app_assoc. apply lookup_at. list_len. lia. }
    rewrite Hins. fold rn'.
    replace (count rn + 1 =? Size) with false by lia.
    replace (Z.of_nat (length vpre + length gap) + 1)
      with (Z.of_nat (length (vpre ++ [x]) + length gap1)) by (list_len; lia).
    rewrite Hrun. mred. rewrite insert_insert_eq. unfold rn'. simpl.
    replace (count rn + 1 + Z.of_nat (length xs))
      with (count rn + Z.of_nat (S (length xs))) by lia.
    st_eq. by list_norm.
Qed.


Lemma chain_ok_str (s : state) L : chain_ok s L → chain_str s L.
Proof.
  intros H. unfold chain_str. rewrite <- (ck_size _ _ H).
  by destruct s.
Qed.

Lemma chain_str_ok (s : state) L : chain_str s L → size_ s = total L → chain_ok s L.
Proof.
  unfold chain_str. intros H Hsz. rewrite <- Hsz in H. by destruct s.
Qed.

Lemma chain_str_upd (s s' : state) L1 a n n' L2 :
  chain_str s (L1 ++ (a, n) :: L2) →
  next n' = next n → prev n' = prev n → node_ok n' →
  heap s' = <[a := n']> (heap s) →
  head_ s' = head_ s → tail_ s' = tail_ s →
  nodecount_ s' = nodecount_ s → asize_ s' = asize_ s →
  chain_str s' (L1 ++ (a, n') :: L2).
Proof.
  intros H Hn Hp Hok Hh Hhd Htl Hnc Has. unfold chain_str in *.
  eapply chain_ok_upd; [exact H| | | | | | | | |]; mred; try done.
  rewrite !total_app. simpl. lia.
Qed.

Lemma list_split_len {A} (l : list A) (k : nat) :
  (k ≤ length l)%nat → ∃ l1 l2, l = l1 ++ l2 ∧ length l1 = k.
Proof.
  intros Hk. exists (take k l), (drop k l). split.
  - by rewrite take_drop.
  - rewrite length_take. lia.
Qed.

Lemma live_values (n : LNode) :
  node_ok n → ∃ post, values n = live n ++ post
    ∧ Z.of_nat (length post) = Size - count n.
Proof.
  intros [Hc Hl]. exists (drop (Z.to_nat (count n)) (values n)). split.
  - unfold live. by rewrite take_drop.
  - rewrite length_drop. lia.
Qed.

Lemma live_prefix (n : LNode) xs post :
  values n = xs ++ post → count n = Z.of_nat (length xs) → live n = xs.
Proof.
  intros Hv Hc. unfold live. rewrite Hv, Hc, Nat2Z.id. by rewrite take_app_length.
Qed.


Lemma chain_str_lookup (s : state) L1 a n L2 :
  chain_str s (L1 ++ (a, n) :: L2) → heap s !! a = Some n.
Proof. intros H. apply (chain_ok_lookup _ _ _ _ _ H). Qed.

Lemma chain_str_node (s : state) L1 a n L2 :
  chain_str s (L1 ++ (a, n) :: L2) → node_ok n.
Proof. intros H. apply (chain_ok_node _ _ _ _ _ H). Qed.

Lemma chain_str_next (s : state) L1 a n L2 :
  chain_str s (L1 ++ (a, n) :: L2) → next n = first_addr L2 None.
Proof.
  intros H. pose proof (ck_links _ _ H) as Hlk.
  apply lk_app in Hlk as [_ (_ & Hn & _)]. exact Hn.
Qed.

Lemma chain_str_ne (s : state) L1 a n L2 b m L3 :
  chain_str s (L1 ++ (a, n) :: L2 ++ (b, m) :: L3) → a ≠ b.
Proof.
  intros H Heq. subst b.
  destruct (NoDup_middle _ _ _ _ (ck_nodup _ _ H)) as (_ & Hn & _).
  apply Hn. rewrite fmap_app. apply elem_of_app. right. left.
Qed.

(** Pouring the live elements [xs] of the (already emptied) right node
    into the nodes from the left foot on. *)
Lemma pour_node (s : state) A la ln Z ra rn R xs rpost :
  pouring s A la ln Z ((ra, rn) :: R) →
  count rn = 0 → values rn = xs ++ rpost → Z.of_nat (length xs) ≤ Size →
  ∃ s' A' la' ln' Z' rn',
    for_loop (length xs) 0 (Some la) (pour_body (Some ra)) s = Ok (Some la') s'
    ∧ pouring s' A' la' ln' Z' R
    ∧ contents (A' ++ [(la', ln')]) = contents (A ++ [(la, ln)]) ++ xs
    ∧ heap s' !! ra = Some rn' ∧ next rn' = next rn
    ∧ (size_ s' = size_ s ∧ nodecount_ s' = nodecount_ s).
Proof.
  intros [Hch Hfull Hroom Hempty] Hrc Hvr Hxs.
  pose proof (chain_str_lookup _ _ _ _ _ Hch) as Hla.
  pose proof (chain_str_node _ _ _ _ _ Hch) as Hlok. destruct (Hlok) as [Hlc Hll].
  pose proof (chain_str_ne _ _ _ _ _ _ _ _ Hch) as Hne.
  pose proof (chain_str_next _ _ _ _ _ Hch) as Hlnext.
  assert (chain_str s ((A ++ (la, ln) :: Z) ++ (ra, rn) :: R)) as Hch'.
  { by rewrite <- app_assoc. }
  pose proof (chain_str_lookup _ _ _ _ _ Hch') as Hra.
  pose proof (chain_str_node _ _ _ _ _ Hch') as Hrok. destruct (Hrok) as [Hrcn Hrl].
  pose proof (ck_asize _ _ Hch) as Has. simpl in Has.
  destruct (live_values ln Hlok) as (dfree & Hvl & Hfree).
  pose proof (length_live _ Hlok) as Hlive.
  destruct (Z_lt_le_dec (Z.of_nat (length xs)) (Size - count ln)) as [Hfit|Hover].
  - (* everything fits in the left node, with room to spare *)
    destruct (list_split_len dfree (length xs) ltac:(lia)) as (dmid & dpost & -> & Hdmid).
    set (ln1 := mkLNode (next ln) (prev ln) (count ln + Z.of_nat (length xs))
                  (live ln ++ xs ++ dpost)).
    exists (set_heap (<[la := ln1]> (heap s)) s), A, la, ln1, (Z ++ [(ra, rn)]), rn.
    split_and!.
    + change 0 with (Z.of_nat (length (@nil T))).
      rewrite (pour_into xs [] rpost (live ln) dmid dpost la ra ln rn s
                 Hne Hla Hra Has Hvr Hvl Hdmid (eq_sym Hlive) Hrl Hll).
      f_equal. replace (count ln + Z.of_nat (length xs) =? Size) with false by lia.
      by rewrite andb_false_r.
    + constructor; [|done|simpl; lia|].
      * rewrite <- app_assoc. simpl.
        eapply chain_str_upd; [exact Hch| | | | | | | |]; mred; try done.
        split; simpl; [lia|]. rewrite <- Hll, Hvl. list_len. lia.
      * apply Forall_app. split; [done|]. constructor; [done|constructor].
    + rewrite !contents_app. unfold contents at 2 4. simpl. rewrite !app_nil_r.
      rewrite <- app_assoc. f_equal.
      apply (live_prefix ln1 (live ln ++ xs) dpost).
      * simpl. by list_norm.
      * simpl. list_len. lia.
    + mred. by rewrite lookup_insert_ne.
    + done.
    + done.
    + done.
  - (* the left node fills up *)
    destruct (list_split_len xs (length dfree) ltac:(lia)) as (xs1 & xs2 & -> & Hxs1).
    rewrite length_app in Hxs, Hover |- *.
    rewrite for_loop_app.
    set (ln1 := mkLNode (next ln) (prev ln) (count ln + Z.of_nat (length xs1))
                  (live ln ++ xs1 ++ [])).
    set (s1 := set_heap (<[la := ln1]> (heap s)) s).
    assert (for_loop (length xs1) 0 (Some la) (pour_body (Some ra)) s = Ok (next ln) s1)
      as Hrun1.
    { change 0 with (Z.of_nat (length (@nil T))).
      assert (values rn = [] ++ xs1 ++ xs2 ++ rpost) as Hvr1.
      { by rewrite <- app_assoc in Hvr. }
      assert (values ln = live ln ++ dfree ++ []) as Hvl1. { by rewrite app_nil_r. }
      rewrite (pour_into xs1 [] (xs2 ++ rpost) (live ln) dfree [] la ra ln rn s
                 Hne Hla Hra Has Hvr1 Hvl1 (eq_sym Hxs1) (eq_sym Hlive) Hrl Hll).
      f_equal. replace (count ln + Z.of_nat (length xs1) =? Size) with true by lia.
      by replace (0 <? Z.of_nat (length xs1)) with true by lia. }
    erewrite bind_Ok by exact Hrun1.
    assert (node_ok ln1) as Hl1ok.
    { split; simpl; [lia|]. rewrite <- Hll, Hvl. list_len. lia. }
    assert (chain_str s1 (A ++ (la, ln1) :: Z ++ (ra, rn) :: R)) as Hch1.
    { eapply chain_str_upd; [exact Hch| | | | | | | |]; mred; done. }
    assert (live ln1 = live ln ++ xs1) as Hlive1.
    { apply (live_prefix ln1 (live ln ++ xs1) []).
      - simpl. by list_norm.
      - simpl. list_len. lia. }
    assert (Forall (λ p : positive * LNode, count p.2 = Size) (A ++ [(la, ln1)])) as Hfull1.
    { apply Forall_app. split; [done|]. constructor; [simpl; lia|constructor]. }
    assert (heap s1 !! ra = Some rn) as Hra1.
    { unfold s1. mred. by rewrite lookup_insert_ne. }
    rewrite Hlnext. rewrite Z.add_0_l.
    destruct Z as [|[z zn] Z'].
    + (* the left foot steps onto the right node itself *)
      simpl first_addr.
      assert (values rn = [] ++ xs1 ++ xs2 ++ rpost) as Hvr1.
      { by rewrite <- app_assoc in Hvr. }
      destruct (pour_self xs2 [] xs1 rpost ra rn s1 Hra1 Has Hvr1) as (gap' & Hgap & Hrun2);
        [simpl; lia|simpl; lia|done|].
      simpl in Hrun2. rewrite Hrun2.
      set (rn1 := mkLNode (next rn) (prev rn) (count rn + Z.of_nat (length xs2))
                    (xs2 ++ gap' ++ rpost)).
      exists (set_heap (<[ra := rn1]> (heap s1)) s1), (A ++ [(la, ln1)]), ra, rn1, [], rn1.
      assert (node_ok rn1) as Hr1ok.
      { split; simpl; [lia|]. rewrite <- Hrl, Hvr. list_len. lia. }
      split_and!.
      * done.
      * constructor; [|done|simpl; lia|constructor].
        simpl app.
        apply (chain_str_upd s1 _ (A ++ [(la, ln1)]) ra rn rn1 R); mred; try done.
        by rewrite <- app_assoc.
      * rewrite !contents_app. unfold contents at 2 3 5. simpl. rewrite !app_nil_r.
        rewrite Hlive1, <- !app_assoc. do 3 f_equal.
        apply (live_prefix rn1 xs2 (gap' ++ rpost)); simpl; [done|lia].
      * mred. by rewrite lookup_insert_eq.
      * done.
      * done.
      * done.
    + (* the left foot steps onto an emptied node *)
      simpl first_addr.
      apply Forall_cons in Hempty as [Hz0 Hempty]. simpl in Hz0.
      assert (chain_str s1 ((A ++ [(la, ln1)]) ++ (z, zn) :: Z' ++ (ra, rn) :: R)) as Hch1'.
      { by rewrite <- app_assoc. }
      pose proof (chain_str_lookup _ _ _ _ _ Hch1') as Hz.
      pose proof (chain_str_node _ _ _ _ _ Hch1') as Hzok. destruct (Hzok) as [Hzc Hzl].
      pose proof (chain_str_ne _ _ _ _ _ _ _ _ Hch1') as Hzne.
      destruct (live_values zn Hzok) as (zfree & Hvz & Hzfree).
      assert (live zn = []) as Hlz. { unfold live. rewrite Hz0. by rewrite take_0. }
      rewrite Hlz in Hvz. simpl in Hvz.
      destruct (list_split_len zfree (length xs2) ltac:(lia)) as (zmid & zpost & -> & Hzmid).
      set (zn1 := mkLNode (next zn) (prev zn) (count zn + Z.of_nat (length xs2))
                    ([] ++ xs2 ++ zpost)).
      exists (set_heap (<[z := zn1]> (heap s1)) s1), (A ++ [(la, ln1)]), z, zn1,
             (Z' ++ [(ra, rn)]), rn.
      split_and!.
      * assert (values rn = xs1 ++ xs2 ++ rpost) as Hvr1.
        { by rewrite <- app_assoc in Hvr. }
        rewrite (pour_into xs2 xs1 rpost [] zmid zpost z ra zn rn s1
                   Hzne Hz Hra1 Has Hvr1 Hvz Hzmid Hz0 Hrl Hzl).
        f_equal. replace (count zn + Z.of_nat (length xs2) =? Size) with false by lia.
        by rewrite andb_false_r.
      * constructor; [|done|simpl; lia|].
        -- rewrite <- (app_assoc Z'). simpl app.
           apply (chain_str_upd s1 _ (A ++ [(la, ln1)]) z zn zn1 (Z' ++ (ra, rn) :: R));
             mred; try done.
           split; simpl; [lia|]. rewrite <- Hzl, Hvz. list_len. lia.
        -- apply Forall_app. split; [done|]. constructor; [done|constructor].
      * rewrite !contents_app. unfold contents at 2 3 5. simpl. rewrite !app_nil_r.
        rewrite Hlive1, <- !app_assoc. do 3 f_equal.
        apply (live_prefix zn1 xs2 zpost); simpl; [done|lia].
      * mred. by rewrite !lookup_insert_ne.
      * done.
      * done.
      * done.
Qed.


Lemma pour_step (s : state) A la ln Z ra rn R :
  pouring s A la ln Z ((ra, rn) :: R) →
  ∃ s' A' la' ln' Z',
    pouring s' A' la' ln' Z' R
    ∧ contents (A' ++ [(la', ln')]) = contents (A ++ [(la, ln)]) ++ live rn
    ∧ (size_ s' = size_ s ∧ nodecount_ s' = nodecount_ s)
    ∧ ∀ fuel, compact_pour (S fuel) (Some la) (Some ra) s
              = compact_pour fuel (Some la') (first_addr R None) s'.
Proof.
  intros Hp. pose proof Hp as [Hch Hfull Hroom Hempty].
  pose proof (chain_str_lookup _ _ _ _ _ Hch) as Hla.
  pose proof (chain_str_ne _ _ _ _ _ _ _ _ Hch) as Hne.
  assert (chain_str s ((A ++ (la, ln) :: Z) ++ (ra, rn) :: R)) as Hch'.
  { by rewrite <- app_assoc. }
  pose proof (chain_str_lookup _ _ _ _ _ Hch') as Hra.
  pose proof (chain_str_node _ _ _ _ _ Hch') as Hrok. destruct (Hrok) as [Hrcn Hrl].
  pose proof (chain_str_next _ _ _ _ _ Hch') as Hrnext.
  pose proof (ck_asize _ _ Hch) as Has. simpl in Has.
  destruct (live_values rn Hrok) as (rpost & Hvr & _).
  pose proof (length_live _ Hrok) as Hlive.
  set (rn0 := upd_count rn 0).
  set (s0 := set_heap (<[ra := rn0]> (heap s)) s).
  assert (pouring s0 A la ln Z ((ra, rn0) :: R)) as Hp0.
  { constructor; try done.
    replace (A ++ (la, ln) :: Z ++ (ra, rn0) :: R)
      with ((A ++ (la, ln) :: Z) ++ (ra, rn0) :: R) by (by rewrite <- app_assoc).
    apply (chain_str_upd s _ _ ra rn rn0 R Hch'); try done.
    split; simpl; [lia|done]. }
  destruct (pour_node s0 A la ln Z ra rn0 R (live rn) rpost Hp0)
    as (s' & A' & la' & ln' & Z' & rn' & Hloop & Hp' & Hcont & Hra' & Hnext' & Hsz & Hnc);
    [done|done|lia|].
  exists s', A', la', ln', Z'. split_and!; try done.
  intros fuel. cbn [compact_pour].
  mstep. mstep. fold rn0. fold s0.
  erewrite (bind_Ok (get_count _)).
  2:{ eapply run_get_count. unfold s0. mred. rewrite lookup_insert_ne by done. exact Hla. }
  mstep. replace (count ln =? asize_ s) with false by (rewrite Has; lia). mstep.
  replace (Z.to_nat (count rn)) with (length (live rn)) by lia.
  change (for_loop (length (live rn)) 0 (Some la) _)
    with (for_loop (length (live rn)) 0 (Some la) (pour_body (Some ra))).
  erewrite bind_Ok by exact Hloop.
  erewrite bind_Ok by (eapply run_get_next; exact Hra').
  rewrite Hnext'. unfold rn0. simpl next. by rewrite Hrnext.
Qed.

Lemma pour_loop_spec R : ∀ A la ln Z (s : state) fuel,
  pouring s A la ln Z R → (length R < fuel)%nat →
  ∃ s' A' la' ln' Z',
    compact_pour fuel (Some la) (first_addr R None) s = Ok tt s'
    ∧ pouring s' A' la' ln' Z' []
    ∧ contents (A' ++ [(la', ln')]) = contents (A ++ [(la, ln)]) ++ contents R
    ∧ (size_ s' = size_ s ∧ nodecount_ s' = nodecount_ s).
Proof.
  induction R as [|[ra rn] R IH]; intros A la ln Z s fuel Hp Hf.
  - destruct fuel as [|fuel]; [simpl in Hf; lia|].
    exists s, A, la, ln, Z. split_and!; try done.
    unfold contents at 3. simpl. by rewrite app_nil_r.
  - destruct fuel as [|fuel]; [simpl in Hf; lia|].
    destruct (pour_step s A la ln Z ra rn R Hp)
      as (s1 & A1 & la1 & ln1 & Z1 & Hp1 & Hc1 & Hsz1 & Hrun1).
    destruct (IH A1 la1 ln1 Z1 s1 fuel Hp1 ltac:(simpl in Hf; lia))
      as (s' & A' & la' & ln' & Z' & Hrun & Hp' & Hc' & Hsz').
    exists s', A', la', ln', Z'. split_and!; try done.
    + cbn [first_addr fst]. by rewrite Hrun1.
    + rewrite Hc', Hc1, contents_cons. by rewrite <- app_assoc.
    + destruct Hsz' as [-> _]. by destruct Hsz1 as [-> _].
    + destruct Hsz' as [_ ->]. by destruct Hsz1 as [_ ->].
Qed.

Lemma skip_spec R : ∀ A la ln (s : state) fuel,
  chain_ok s (A ++ (la, ln) :: R) → Forall (λ p, count p.2 = Size) A →
  (length R < fuel)%nat →
  ∃ A' la' ln' R',
    A ++ (la, ln) :: R = A' ++ (la', ln') :: R'
    ∧ Forall (λ p, count p.2 = Size) A'
    ∧ (count ln' < Size ∨ (count ln' = Size ∧ R' = []))
    ∧ (length R' ≤ length R)%nat
    ∧ compact_skip fuel (Some la) (first_addr R None) s
      = Ok (Some la', first_addr R' None) s.
Proof.
  induction R as [|[ra rn] R IH]; intros A la ln s fuel H Hfull Hf.
  - destruct fuel as [|fuel]; [simpl in Hf; lia|].
    pose proof (chain_ok_lookup _ _ _ _ _ H) as Hla.
    destruct (chain_ok_node _ _ _ _ _ H) as [Hc _].
    exists A, la, ln, []. split_and!; try done.
    + destruct (Z.eq_dec (count ln) Size); [by right|left; lia].
    + cbn [compact_skip first_addr]. mstep. mstep.
      rewrite ptr_eqb_refl. by rewrite andb_false_r.
  - destruct fuel as [|fuel]; [simpl in Hf; lia|].
    pose proof (chain_ok_lookup _ _ _ _ _ H) as Hla.
    destruct (chain_ok_node _ _ _ _ _ H) as [Hc _].
    pose proof (chain_str_next _ _ _ _ _ (chain_ok_str _ _ H)) as Hnext.
    assert (chain_ok s ((A ++ [(la, ln)]) ++ (ra, rn) :: R)) as H'.
    { by rewrite <- app_assoc. }
    pose proof (chain_ok_lookup _ _ _ _ _ H') as Hra.
    pose proof (chain_str_next _ _ _ _ _ (chain_ok_str _ _ H')) as Hrnext.
    cbn [compact_skip first_addr fst].
    destruct (Z.eq_dec (count ln) Size) as [Heq|Hneq].
    + destruct (IH (A ++ [(la, ln)]) ra rn s fuel H') as (A' & la' & ln' & R' & HL & HA & Hc' & Hlen & Hrun).
      { apply Forall_app. split; [done|]. by constructor. }
      { simpl in Hf. lia. }
      exists A', la', ln', R'. split_and!; try done.
      * rewrite <- HL. by rewrite <- app_assoc.
      * simpl. lia.
      * mstep. mstep. rewrite (ck_asize _ _ H).
        replace (count ln =? Size) with true by lia.
        rewrite (ptr_eqb_ne (Some ra) None) by done. simpl.
        mstep. mstep. rewrite Hnext, Hrnext. exact Hrun.
    + exists A, la, ln, ((ra, rn) :: R). split_and!; try done.
      * left. lia.
      * mstep. mstep. rewrite (ck_asize _ _ H).
        by replace (count ln =? Size) with false by lia.
Qed.


Lemma ends_nonempty_same_data B' B :
  Forall2 same_data B' B → ends_nonempty B → ends_nonempty B'.
Proof.
  intros HF (B0 & t & tn & -> & Hc).
  apply Forall2_app_inv_r in HF as (B0' & l & _ & Hl & ->).
  apply Forall2_cons_inv_r in Hl as ([t' tn'] & l' & (_ & Hc' & _) & Hnil & ->).
  apply Forall2_nil_inv_r in Hnil as ->.
  exists B0', t', tn'. split; [done|]. simpl in Hc'. simpl. lia.
Qed.

Lemma same_data_trans L1 L2 L3 :
  Forall2 same_data L1 L2 → Forall2 same_data L2 L3 → Forall2 same_data L1 L3.
Proof.
  apply Forall2_trans. intros x y z (? & ? & ?) (? & ? & ?).
  split_and!; congruence.
Qed.

Lemma trim_spec n : ∀ Zs B (s : state) fuel,
  length Zs = n → chain_ok s (B ++ Zs) → ends_nonempty B →
  Forall (λ p, count p.2 = 0) Zs → (n < fuel)%nat →
  ∃ s' B', compact_trim fuel s = Ok tt s' ∧ chain_ok s' B'
    ∧ Forall2 same_data B' B.
Proof.
  induction n as [|n IH]; intros Zs B s fuel Hlen H Hne Hz Hf.
  - destruct Zs; [|done]. rewrite app_nil_r in H.
    destruct fuel as [|fuel]; [lia|].
    destruct Hne as (B0 & t & tn & -> & Hc).
    destruct (chain_ok_snoc_tail _ _ _ _ H) as [Htl _].
    pose proof (chain_ok_lookup _ _ _ _ _ H) as Ht.
    exists s, (B0 ++ [(t, tn)]). split_and!; [|done|apply same_data_refl].
    cbn [compact_trim]. mstep. rewrite Htl. mstep.
    by replace (count tn =? 0) with false by lia.
  - destruct Zs as [|[z zn] Zs' _] using rev_ind; [done|].
    rewrite length_app in Hlen. simpl in Hlen.
    destruct fuel as [|fuel]; [lia|].
    apply Forall_app in Hz as [Hz' Hzn]. apply Forall_cons in Hzn as [Hzn _]. simpl in Hzn.
    rewrite app_assoc in H.
    destruct (chain_ok_snoc_tail _ _ _ _ H) as [Htl _].
    pose proof (chain_ok_lookup _ _ _ _ _ H) as Hzl.
    destruct (deleteNode_spec s (B ++ Zs') z zn [] H Hzn) as (s1 & L1 & Hrun1 & Hck1 & Hsd & _).
    rewrite app_nil_r in Hsd.
    apply Forall2_app_inv_r in Hsd as (B1 & Z1 & HB1 & HZ1 & ->).
    destruct (IH Z1 B1 s1 fuel) as (s' & B' & Hrun & Hck & Hsd').
    { rewrite (Forall2_length _ _ _ HZ1). lia. }
    { done. }
    { by eapply ends_nonempty_same_data. }
    { by eapply (same_data_Forall (λ c, c = 0)). }
    { lia. }
    exists s', B'. split_and!; [|done|by eapply same_data_trans].
    cbn [compact_trim]. mstep. rewrite Htl. mstep.
    replace (count zn =? 0) with true by lia.
    by erewrite bind_Ok by exact Hrun1.
Qed.

(** *** [compact] *)

Lemma packed_same_data L' L : Forall2 same_data L' L → packed L → packed L'.
Proof.
  intros HF (A & B & -> & HA & HB).
  apply Forall2_app_inv_r in HF as (A' & B' & HA' & HB' & ->).
  exists A', B'. split_and!; [done| |].
  - by eapply (same_data_Forall (λ c, c = Size)).
  - destruct HB as [->|(x & n & -> & Hc)].
    + left. by apply Forall2_nil_inv_r in HB'.
    + right. apply Forall2_cons_inv_r in HB' as ([x' n'] & l' & (_ & Hc' & _) & Hnil & ->).
      apply Forall2_nil_inv_r in Hnil as ->. exists x', n'. split; [done|].
      simpl in Hc'. lia.
Qed.

Lemma contents_empty (Zs : list (positive * LNode)) : Forall (λ p, count p.2 = 0) Zs → contents Zs = [].
Proof.
  induction 1 as [|p Zs Hp _ IH]; [done|].
  rewrite contents_cons, IH. unfold live. rewrite Hp. by rewrite take_0.
Qed.

Lemma total_empty (Zs : list (positive * LNode)) : Forall (λ p, count p.2 = 0) Zs → total Zs = 0.
Proof. induction 1 as [|p Zs Hp _ IH]; [done|]. simpl. lia. Qed.

Lemma full_good (A : list (positive * LNode)) :
  Forall (λ p, count p.2 = Size) A → Forall (λ p, 1 ≤ count p.2) A.
Proof. intros H. eapply Forall_impl; [exact H|]. intros p Hp. simpl in *. lia. Qed.


Lemma good_contents_nonempty L :
  Forall (λ p, node_ok p.2) L → Forall (λ p : positive * LNode, 1 ≤ count p.2) L →
  L ≠ [] → contents L ≠ [].
Proof.
  intros Hok H1 Hne Hnil. destruct L as [|[a n] L]; [done|].
  apply Forall_cons in Hok as [Hp _]. apply Forall_cons in H1 as [H1 _].
  rewrite contents_cons in Hnil. apply app_eq_nil in Hnil as [Hnil _].
  pose proof (length_live _ Hp) as Hl. simpl in *. rewrite Hnil in Hl. simpl in Hl. lia.
Qed.

Lemma compact_spec (s : state) L fuel :
  good s L → (length L < fuel)%nat →
  ∃ s' L', compact fuel s = Ok tt s' ∧ good s' L'
    ∧ contents L' = contents L ∧ packed L'.
Proof.
  intros [H H1] Hf. unfold compact. mstep.
  destruct L as [|[a n] R].
  { destruct (chain_ok_nil_head _ H) as [-> _]. rewrite ptr_eqb_refl.
    exists s, []. split_and!; try done. exists [], []. split_and!; try done. by left. }
  rewrite (ck_head _ _ H). cbn [first_addr fst].
  rewrite (ptr_eqb_ne (Some a) None) by done.
  pose proof (chain_ok_lookup _ [] _ _ _ H) as Ha.
  pose proof (chain_str_next _ [] _ _ _ (chain_ok_str _ _ H)) as Hnext.
  mstep. rewrite Hnext.
  destruct (skip_spec R [] a n s fuel H ltac:(constructor) ltac:(simpl in Hf; lia))
    as (A' & la' & ln' & R' & HL & HA' & Hc' & Hlen & Hskip).
  simpl app in HL. rewrite HL in *. clear HL.
  rewrite length_app in Hf. simpl in Hf.
  erewrite bind_Ok by exact Hskip. cbv beta iota.
  pose proof (good_contents_nonempty _ (ck_nodes _ _ H) H1 ltac:(by destruct A')) as Hcne.
  pose proof (length_contents _ (ck_nodes _ _ H)) as Hlc.
  destruct Hc' as [Hroom|[Hfull ->]].
  - (* some node has room: pour *)
    assert (pouring s A' la' ln' [] R') as Hp.
    { constructor; [by apply chain_ok_str|done|done|constructor]. }
    destruct (pour_loop_spec R' A' la' ln' [] s fuel Hp ltac:(lia))
      as (s1 & A1 & la1 & ln1 & Z1 & Hpour & Hp1 & Hcont1 & Hsz1 & Hnc1).
    erewrite bind_Ok by exact Hpour.
    destruct Hp1 as [Hch1 Hfull1 Hroom1 Hempty1]. rewrite app_nil_r in Hch1.
    assert (contents (A1 ++ (la1, ln1) :: Z1) = contents (A' ++ (la', ln') :: R')) as Hcont.
    { replace (A1 ++ (la1, ln1) :: Z1) with ((A1 ++ [(la1, ln1)]) ++ Z1)
        by (by rewrite <- app_assoc).
      rewrite contents_app, (contents_empty Z1 Hempty1), app_nil_r, Hcont1.
      rewrite !contents_app. unfold contents at 2. simpl. by rewrite app_nil_r, <- app_assoc. }
    assert (chain_ok s1 (A1 ++ (la1, ln1) :: Z1)) as Hck1.
    { apply chain_str_ok; [done|].
      rewrite Hsz1, (ck_size _ _ H), <- Hlc, <- Hcont.
      apply length_contents. apply (ck_nodes _ _ Hch1). }
    assert (length (A1 ++ (la1, ln1) :: Z1) = length (A' ++ (la', ln') :: R')) as Hlen1.
    { apply Nat2Z.inj. rewrite <- (ck_nodecount _ _ Hck1), <- (ck_nodecount _ _ H). done. }
    pose proof (chain_ok_node _ _ _ _ _ Hck1) as [Hc1 _].
    destruct (Z.eq_dec (count ln1) 0) as [Hz|Hnz].
    + (* the last node touched ended up empty *)
      assert (A1 ≠ []) as HA1.
      { intros ->. apply Hcne. rewrite <- Hcont. simpl app.
        apply contents_empty. by constructor. }
      destruct (trim_spec (length ((la1, ln1) :: Z1)) ((la1, ln1) :: Z1) A1 s1 fuel)
        as (s' & B' & Htrim & Hck' & Hsd); [done|done| |by constructor| |].
      { destruct A1 as [|[t tn] A10 _] using rev_ind; [done|].
        exists A10, t, tn. split; [done|].
        apply Forall_app in Hfull1 as [_ Ht]. apply Forall_cons in Ht as [Ht _].
        simpl in Ht. lia. }
      { rewrite !length_app in Hlen1. simpl in *. lia. }
      exists s', B'. split_and!; [exact Htrim| | |].
      * split; [done|]. eapply (same_data_Forall (λ c, 1 ≤ c)); [exact Hsd|]. by apply full_good.
      * rewrite (same_data_contents _ _ Hsd), <- Hcont.
        rewrite contents_app, (contents_empty ((la1, ln1) :: Z1)), app_nil_r; [done|].
        by constructor.
      * eapply packed_same_data; [exact Hsd|].
        exists A1, []. split_and!; [by rewrite app_nil_r|done|by left].
    + destruct (trim_spec (length Z1) Z1 (A1 ++ [(la1, ln1)]) s1 fuel)
        as (s' & B' & Htrim & Hck' & Hsd); [done| | |done| |].
      { by rewrite <- app_assoc. }
      { exists A1, la1, ln1. split; [done|lia]. }
      { rewrite !length_app in Hlen1. simpl in *. lia. }
      exists s', B'. split_and!; [exact Htrim| | |].
      * split; [done|]. eapply (same_data_Forall (λ c, 1 ≤ c)); [exact Hsd|].
        apply Forall_app. split; [by apply full_good|].
        constructor; [simpl; lia|constructor].
      * rewrite (same_data_contents _ _ Hsd), <- Hcont.
        replace (A1 ++ (la1, ln1) :: Z1) with ((A1 ++ [(la1, ln1)]) ++ Z1)
          by (by rewrite <- app_assoc).
        by rewrite (contents_app _ Z1), (contents_empty Z1 Hempty1), app_nil_r.
      * eapply packed_same_data; [exact Hsd|].
        exists A1, [(la1, ln1)]. split_and!; [done|done|].
        right. exists la1, ln1. split; [done|lia].
  - (* every node is full already *)
    cbn [first_addr].
    destruct fuel as [|fuel]; [lia|].
    cbn [compact_pour]. rewrite bind_mret.
    destruct (trim_spec 0 [] (A' ++ [(la', ln')]) s (S fuel))
      as (s' & B' & Htrim & Hck' & Hsd); [done| | |constructor|lia|].
    { by rewrite app_nil_r. }
    { exists A', la', ln'. split; [done|lia]. }
    exists s', B'. split_and!; [exact Htrim| | |].
    * split; [done|]. eapply (same_data_Forall (λ c, 1 ≤ c)); [exact Hsd|]. done.
    * by rewrite (same_data_contents _ _ Hsd).
    * eapply packed_same_data; [exact Hsd|].
      exists (A' ++ [(la', ln')]), []. split_and!; [by rewrite app_nil_r| |by left].
      apply Forall_app. split; [done|]. by constructor.
Qed.


(** ** Fuel

    A run that terminates with some fuel terminates with the same
    outcome with any larger amount. *)

Lemma bind_mono {A B} (m : M A) (k k' : A → M B) (s : state) r :
  (m ≫= k) s = r → r ≠ OutOfFuel →
  (∀ a s', k a s' = r → k' a s' = r) →
  (m ≫= k') s = r.
Proof.
  unfold mbind, M_bind. intros H Hr Hk. destruct (m s); auto.
Qed.

Lemma find_element_loop_mono fuel : ∀ fuel' index acc w (s : state) r,
  (fuel ≤ fuel')%nat → find_element_loop fuel index acc w s = r → r ≠ OutOfFuel →
  find_element_loop fuel' index acc w s = r.
Proof.
  induction fuel as [|fuel IH]; intros fuel' index acc w s r Hle Hrun Hr.
  - cbn [find_element_loop] in Hrun. unfold out_of_fuel in Hrun. by subst r.
  - destruct fuel' as [|fuel']; [lia|]. cbn [find_element_loop] in *.
    eapply bind_mono; [exact Hrun|done|]. intros c s1 Hk. cbv beta in Hk |- *.
    revert Hk. destruct (acc + c <=? index); intros Hk; [|done].
    eapply bind_mono; [exact Hk|done|]. intros nx s2 Hk2. cbv beta in Hk2 |- *.
    eapply IH; [lia|done|done].
Qed.

Lemma clear_loop_mono fuel : ∀ fuel' w (s : state) r,
  (fuel ≤ fuel')%nat → clear_loop fuel w s = r → r ≠ OutOfFuel →
  clear_loop fuel' w s = r.
Proof.
  induction fuel as [|fuel IH]; intros fuel' w s r Hle Hrun Hr.
  - cbn [clear_loop] in Hrun. unfold out_of_fuel in Hrun. by subst r.
  - destruct fuel' as [|fuel']; [lia|]. cbn [clear_loop] in *.
    destruct w as [a|]; [|done].
    eapply bind_mono; [exact Hrun|done|]. intros nx s1 Hk. cbv beta in Hk |- *.
    eapply bind_mono; [exact Hk|done|]. intros [] s2 Hk2. cbv beta in Hk2 |- *.
    eapply IH; [lia|done|done].
Qed.

Lemma compact_skip_mono fuel : ∀ fuel' l w (s : state) r,
  (fuel ≤ fuel')%nat → compact_skip fuel l w s = r → r ≠ OutOfFuel →
  compact_skip fuel' l w s = r.
Proof.
  induction fuel as [|fuel IH]; intros fuel' l w s r Hle Hrun Hr.
  - cbn [compact_skip] in Hrun. unfold out_of_fuel in Hrun. by subst r.
  - destruct fuel' as [|fuel']; [lia|]. cbn [compact_skip] in *.
    eapply bind_mono; [exact Hrun|done|]. intros lc s1 Hk. cbv beta in Hk |- *.
    eapply bind_mono; [exact Hk|done|]. intros a s2 Hk2. cbv beta in Hk2 |- *.
    revert Hk2. destruct ((lc =? a) && negb (ptr_eqb w None)); intros Hk2; [|done].
    eapply bind_mono; [exact Hk2|done|]. intros l' s3 Hk3. cbv beta in Hk3 |- *.
    eapply bind_mono; [exact Hk3|done|]. intros r' s4 Hk4. cbv beta in Hk4 |- *.
    eapply IH; [lia|done|done].
Qed.

Lemma compact_pour_mono fuel : ∀ fuel' l w (s : state) r,
  (fuel ≤ fuel')%nat → compact_pour fuel l w s = r → r ≠ OutOfFuel →
  compact_pour fuel' l w s = r.
Proof.
  induction fuel as [|fuel IH]; intros fuel' l w s r Hle Hrun Hr.
  - cbn [compact_pour] in Hrun. unfold out_of_fuel in Hrun. by subst r.
  - destruct fuel' as [|fuel']; [lia|]. cbn [compact_pour] in *.
    destruct w as [a|]; [|done].
    eapply bind_mono; [exact Hrun|done|]. intros rc s1 Hk. cbv beta in Hk |- *.
    eapply bind_mono; [exact Hk|done|]. intros [] s2 Hk2. cbv beta in Hk2 |- *.
    eapply bind_mono; [exact Hk2|done|]. intros lc s3 Hk3. cbv beta in Hk3 |- *.
    eapply bind_mono; [exact Hk3|done|]. intros az s4 Hk4. cbv beta in Hk4 |- *.
    eapply bind_mono; [exact Hk4|done|]. intros l1 s5 Hk5. cbv beta in Hk5 |- *.
    eapply bind_mono; [exact Hk5|done|]. intros l2 s6 Hk6. cbv beta in Hk6 |- *.
    eapply bind_mono; [exact Hk6|done|]. intros r' s7 Hk7. cbv beta in Hk7 |- *.
    eapply IH; [lia|done|done].
Qed.

Lemma compact_trim_mono fuel : ∀ fuel' (s : state) r,
  (fuel ≤ fuel')%nat → compact_trim fuel s = r → r ≠ OutOfFuel →
  compact_trim fuel' s = r.
Proof.
  induction fuel as [|fuel IH]; intros fuel' s r Hle Hrun Hr.
  - cbn [compact_trim] in Hrun. unfold out_of_fuel in Hrun. by subst r.
  - destruct fuel' as [|fuel']; [lia|]. cbn [compact_trim] in *.
    eapply bind_mono; [exact Hrun|done|]. intros tl s1 Hk. cbv beta in Hk |- *.
    eapply bind_mono; [exact Hk|done|]. intros c s2 Hk2. cbv beta in Hk2 |- *.
    revert Hk2. destruct (c =? 0); intros Hk2; [|done].
    eapply bind_mono; [exact Hk2|done|]. intros [] s3 Hk3. cbv beta in Hk3 |- *.
    eapply IH; [lia|done|done].
Qed.

Lemma insert_mono fuel fuel' index v (s : state) r :
  (fuel ≤ fuel')%nat → insert fuel index v s = r → r ≠ OutOfFuel →
  insert fuel' index v s = r.
Proof.
  intros Hle Hrun Hr. unfold insert in *.
  eapply bind_mono; [exact Hrun|done|]. intros sz s1. cbv beta.
  destruct ((index <? 0) || (sz <? index)); [done|].
  destruct (index =? sz); [done|]. destruct (index =? 0); [done|].
  intros Hk. unfold find_element in *. rewrite bind_assoc in Hk |- *.
  eapply bind_mono; [exact Hk|done|]. intros hd s2 Hk2. cbv beta in Hk2 |- *.
  revert Hk2. unfold mbind, M_bind.
  destruct (find_element_loop fuel index 0 hd s2) as [info s3| | |] eqn:E; intros Hk2.
  - by rewrite (find_element_loop_mono fuel fuel' index 0 hd s2 _ Hle E).
  - by rewrite (find_element_loop_mono fuel fuel' index 0 hd s2 _ Hle E).
  - by rewrite (find_element_loop_mono fuel fuel' index 0 hd s2 _ Hle E).
  - by subst r.
Qed.

Lemma erase_mono fuel fuel' index (s : state) r :
  (fuel ≤ fuel')%nat → erase fuel index s = r → r ≠ OutOfFuel →
  erase fuel' index s = r.
Proof.
  intros Hle Hrun Hr. unfold erase in *.
  eapply bind_mono; [exact Hrun|done|]. intros sz s1. cbv beta.
  destruct (index =? 0); [done|]. destruct (index =? sz); [done|].
  intros Hk. unfold find_element in *. rewrite bind_assoc in Hk |- *.
  eapply bind_mono; [exact Hk|done|]. intros hd s2 Hk2. cbv beta in Hk2 |- *.
  revert Hk2. unfold mbind, M_bind.
  destruct (find_element_loop fuel index 0 hd s2) as [info s3| | |] eqn:E; intros Hk2.
  - by rewrite (find_element_loop_mono fuel fuel' index 0 hd s2 _ Hle E).
  - by rewrite (find_element_loop_mono fuel fuel' index 0 hd s2 _ Hle E).
  - by rewrite (find_element_loop_mono fuel fuel' index 0 hd s2 _ Hle E).
  - by subst r.
Qed.

Lemma clear_mono fuel fuel' (s : state) r :
  (fuel ≤ fuel')%nat → clear fuel s = r → r ≠ OutOfFuel → clear fuel' s = r.
Proof.
  intros Hle Hrun Hr. unfold clear in *.
  eapply bind_mono; [exact Hrun|done|]. intros hd s1 Hk. cbv beta in Hk |- *.
  revert Hk. unfold mbind, M_bind.
  destruct (clear_loop fuel hd s1) as [[] s3| | |] eqn:E; intros Hk.
  - by rewrite (clear_loop_mono fuel fuel' hd s1 _ Hle E).
  - by rewrite (clear_loop_mono fuel fuel' hd s1 _ Hle E).
  - by rewrite (clear_loop_mono fuel fuel' hd s1 _ Hle E).
  - by subst r.
Qed.

Lemma compact_mono fuel fuel' (s : state) r :
  (fuel ≤ fuel')%nat → compact fuel s = r → r ≠ OutOfFuel → compact fuel' s = r.
Proof.
  intros Hle Hrun Hr. unfold compact in *.
  eapply bind_mono; [exact Hrun|done|]. intros hd s1. cbv beta.
  destruct (ptr_eqb hd None); [done|]. intros Hk.
  eapply bind_mono; [exact Hk|done|]. intros rf s2 Hk2. cbv beta in Hk2 |- *.
  revert Hk2. unfold mbind, M_bind.
  destruct (compact_skip fuel hd rf s2) as [[l r'] s3| | |] eqn:E; intros Hk2.
  2-4: try (by rewrite (compact_skip_mono fuel fuel' hd rf s2 _ Hle E)).
  rewrite (compact_skip_mono fuel fuel' hd rf s2 _ Hle E) by done.
  revert Hk2.
  destruct (compact_pour fuel l r' s3) as [[] s4| | |] eqn:E2; intros Hk2.
  2-4: try (by rewrite (compact_pour_mono fuel fuel' l r' s3 _ Hle E2)).
  rewrite (compact_pour_mono fuel fuel' l r' s3 _ Hle E2) by done.
  by apply (compact_trim_mono fuel).
Qed.


(** ** Which exceptions an operation can raise *)

Lemma raises_bind {A B} P (m : M A) (k : A → M B) :
  raises P m → (∀ a, raises P (k a)) → raises P (m ≫= k).
Proof.
  intros Hm Hk s e s'. unfold mbind, M_bind.
  destruct (m s) as [a s1|e1 s1| |] eqn:E; try done.
  - apply Hk.
  - intros [= <- <-]. by eapply Hm.
Qed.

Lemma raises_mret {A} P (a : A) : raises P (mret a : M A).
Proof. by intros s e s'. Qed.

Lemma raises_get {A} P (f : state → A) : raises P (get f).
Proof. by intros s e s'. Qed.

Lemma raises_modify P f : raises P (modify f).
Proof. by intros s e s'. Qed.

Lemma raises_fault {A} P : raises P (fault : M A).
Proof. by intros s e s'. Qed.

Lemma raises_out_of_fuel {A} P : raises P (out_of_fuel : M A).
Proof. by intros s e s'. Qed.

Lemma raises_deref P p : raises P (deref p).
Proof.
  intros s e s'. unfold deref. destruct p as [a|]; [|done]. by destruct (heap s !! a).
Qed.

Lemma raises_store P p n : raises P (store p n).
Proof.
  intros s e s'. unfold store. destruct p as [a|]; [|done]. by destruct (heap s !! a).
Qed.

Lemma raises_delete_LNode P p : raises P (delete_LNode p).
Proof.
  intros s e s'. unfold delete_LNode. destruct p as [a|]; [|done].
  by destruct (heap s !! a).
Qed.

Lemma raises_if {A} P (b : bool) (m1 m2 : M A) :
  raises P m1 → raises P m2 → raises P (if b then m1 else m2).
Proof. by destruct b. Qed.

Lemma raises_new_LNode P :
  P (LariatException E_NO_MEMORY) →
  raises P (try_catch_bad_alloc new_LNode (throw (LariatException E_NO_MEMORY))).
Proof.
  intros HP s e s'. unfold try_catch_bad_alloc, new_LNode, throw.
  destruct (avail s); simpl; [|done]. by intros [= <- <-].
Qed.

Ltac raises_prim :=
  lazymatch goal with
  | |- raises _ (mret _) => apply raises_mret
  | |- raises _ (get _) => apply raises_get
  | |- raises _ (modify _) => apply raises_modify
  | |- raises _ fault => apply raises_fault
  | |- raises _ out_of_fuel => apply raises_out_of_fuel
  | |- raises _ (deref _) => apply raises_deref
  | |- raises _ (store _ _) => apply raises_store
  | |- raises _ (delete_LNode _) => apply raises_delete_LNode
  | |- raises _ (_ ≫= _) => apply raises_bind; [|intros ?]
  | |- raises _ (match ?x with Some _ => _ | None => _ end) => destruct x
  | |- raises _ (if _ then _ else _) => apply raises_if
  end.

Lemma raises_get_next P p : raises P (get_next p).
Proof. unfold get_next. repeat raises_prim. Qed.
Lemma raises_get_prev P p : raises P (get_prev p).
Proof. unfold get_prev. repeat raises_prim. Qed.
Lemma raises_get_count P p : raises P (get_count p).
Proof. unfold get_count. repeat raises_prim. Qed.
Lemma raises_set_next P p q : raises P (set_next p q).
Proof. unfold set_next. repeat raises_prim. Qed.
Lemma raises_set_prev P p q : raises P (set_prev p q).
Proof. unfold set_prev. repeat raises_prim. Qed.
Lemma raises_set_count P p c : raises P (set_count p c).
Proof. unfold set_count. repeat raises_prim. Qed.
Lemma raises_get_value P p i : raises P (get_value p i).
Proof. unfold get_value. repeat raises_prim. Qed.
Lemma raises_set_value P p i v : raises P (set_value p i v).
Proof. unfold set_value. repeat raises_prim. Qed.
Lemma raises_read P value : raises P (read value).
Proof. destruct value; [apply raises_mret|apply raises_get_value]. Qed.

Lemma raises_for_loop {A} P k : ∀ i (acc : A) body,
  (∀ i acc, raises P (body i acc)) → raises P (for_loop k i acc body).
Proof.
  induction k as [|k IH]; intros i acc body Hb; simpl.
  - apply raises_mret.
  - apply raises_bind; [apply Hb|]. intros acc'. by apply IH.
Qed.

Ltac raises_step :=
  lazymatch goal with
  | |- raises _ (get_next _) => apply raises_get_next
  | |- raises _ (get_prev _) => apply raises_get_prev
  | |- raises _ (get_count _) => apply raises_get_count
  | |- raises _ (set_next _ _) => apply raises_set_next
  | |- raises _ (set_prev _ _) => apply raises_set_prev
  | |- raises _ (set_count _ _) => apply raises_set_count
  | |- raises _ (get_value _ _) => apply raises_get_value
  | |- raises _ (set_value _ _ _) => apply raises_set_value
  | |- raises _ (read _) => apply raises_read
  | |- raises _ (for_loop _ _ _ _) => apply raises_for_loop; intros ? ?
  | |- raises _ (try_catch_bad_alloc new_LNode _) => apply raises_new_LNode; assumption
  | |- _ => raises_prim
  end.

Lemma raises_shiftUp P p l : raises P (shiftUp p l).
Proof. unfold shiftUp. repeat raises_step. Qed.

Lemma raises_shiftDown P p l : raises P (shiftDown p l).
Proof. unfold shiftDown. repeat raises_step. Qed.

Lemma raises_deleteNode P p : raises P (deleteNode p).
Proof. unfold deleteNode. repeat raises_step. Qed.

Lemma raises_find_element_loop P fuel : ∀ index acc w,
  raises P (find_element_loop fuel index acc w).
Proof.
  induction fuel as [|fuel IH]; intros index acc w; simpl.
  - apply raises_out_of_fuel.
  - repeat raises_step. apply IH.
Qed.

Lemma raises_find_element P fuel index : raises P (find_element fuel index).
Proof. unfold find_element. raises_step; [raises_step|]. apply raises_find_element_loop. Qed.

Lemma raises_split P p :
  P (LariatException E_NO_MEMORY) → raises P (split p).
Proof. intros HP. unfold split. repeat raises_step. Qed.

Lemma raises_push_first_value P value :
  P (LariatException E_NO_MEMORY) → raises P (push_first_value value).
Proof. intros HP. unfold push_first_value. repeat raises_step. Qed.

Ltac raises_op :=
  lazymatch goal with
  | |- raises _ (shiftUp _ _) => apply raises_shiftUp
  | |- raises _ (shiftDown _ _) => apply raises_shiftDown
  | |- raises _ (deleteNode _) => apply raises_deleteNode
  | |- raises _ (find_element _ _) => apply raises_find_element
  | |- raises _ (split _) => apply raises_split; assumption
  | |- raises _ (push_first_value _) => apply raises_push_first_value; assumption
  | |- _ => raises_step
  end.

Lemma raises_pop_back P : raises P pop_back.
Proof. unfold pop_back. repeat raises_op. Qed.

Lemma raises_pop_front P : raises P pop_front.
Proof. unfold pop_front. repeat raises_op. Qed.

Lemma raises_erase P fuel index : raises P (erase fuel index).
Proof.
  unfold erase. raises_op; [raises_op|].
  apply raises_if; [apply raises_pop_front|].
  apply raises_if; [apply raises_pop_back|].
  repeat raises_op.
Qed.

Lemma raises_push_back_in_node P p v :
  P (LariatException E_NO_MEMORY) → raises P (push_back_in_node p v).
Proof. intros HP. unfold push_back_in_node. repeat raises_op. Qed.

Ltac raises_node :=
  lazymatch goal with
  | |- raises _ (push_back_in_node _ _) =>
      apply raises_push_back_in_node; assumption
  | |- _ => raises_op
  end.

Lemma raises_insert_in_full_node P p l v :
  P (LariatException E_NO_MEMORY) → raises P (insert_in_full_node p l v).
Proof. intros HP. unfold insert_in_full_node. repeat raises_node. Qed.

Lemma raises_push_back P v :
  P (LariatException E_NO_MEMORY) → raises P (push_back v).
Proof.
  intros HP. unfold push_back. repeat raises_node.
Qed.

Lemma raises_push_front P v :
  P (LariatException E_NO_MEMORY) → raises P (push_front v).
Proof.
  intros HP. unfold push_front. repeat raises_node.
Qed.


Lemma insert_raises_in_range (s : state) fuel index v e s' :
  0 ≤ index ≤ size_ s →
  insert fuel index v s = Throw e s' → e = LariatException E_NO_MEMORY.
Proof.
  intros Hi Hrun. unfold insert in Hrun. rewrite bind_get in Hrun.
  replace ((index <? 0) || (size_ s <? index)) with false in Hrun
    by (symmetry; apply orb_false_iff; lia).
  refine ((_ : raises (λ e, e = LariatException E_NO_MEMORY) _) s e s' Hrun).
  apply raises_if; [by apply raises_push_back|].
  apply raises_if; [by apply raises_push_front|].
  repeat lazymatch goal with
  | |- raises _ (insert_in_full_node _ _ _) =>
      apply raises_insert_in_full_node; reflexivity
  | |- _ => raises_op
  end.
Qed.

(** ** Arguments passed by reference *)

Lemma get_value_pure p i (s : state) :
  get_value p i s = Fault ∨ ∃ x, get_value p i s = Ok x s.
Proof.
  unfold get_value, deref, mbind, M_bind.
  destruct p as [a|]; [|by left].
  destruct (heap s !! a) as [n|]; [|by left].
  destruct ((0 <=? i) && (i <? Size)); [|by left].
  destruct (values n !! Z.to_nat i) as [x|]; [right; by exists x|by left].
Qed.

Lemma by_ref_const {A} (m : M A) : by_ref (λ _, m).
Proof. intros value s. right. by exists junk. Qed.

Lemma by_ref_read {A} (k : T → M A) : by_ref (λ value, read value ≫= k).
Proof.
  intros [v|p i] s; [right; by exists v|].
  unfold mbind, M_bind, read.
  destruct (get_value_pure p i s) as [->|[x ->]]; [by left|].
  right. by exists x.
Qed.

Lemma by_ref_bind {A B} (m : M A) (K : A → cref → M B) :
  (∀ a, by_ref (K a)) → by_ref (λ value, m ≫= λ a, K a value).
Proof.
  intros HK value s. unfold mbind, M_bind.
  destruct (m s) as [a s1|e s1| |]; [apply HK| | |]; right; by exists junk.
Qed.

Lemma by_ref_if {A} (b : bool) (F G : cref → M A) :
  by_ref F → by_ref G → by_ref (λ value, if b then F value else G value).
Proof. by destruct b. Qed.

Ltac by_ref_step :=
  lazymatch goal with
  | |- by_ref (λ _, read _ ≫= _) => apply by_ref_read
  | |- by_ref (λ _, if _ then _ else _) => apply by_ref_if
  | |- by_ref (λ _, _ ≫= _) => first [apply by_ref_const | apply by_ref_bind; intros ?]
  | |- by_ref push_first_value => fail
  | |- by_ref push_back => fail
  | |- by_ref push_front => fail
  | |- by_ref (push_back_in_node _) => fail
  | |- by_ref (insert_in_full_node _ _) => fail
  | |- _ => apply by_ref_const
  end.

Lemma by_ref_push_first_value : by_ref push_first_value.
Proof. unfold push_first_value. repeat by_ref_step. Qed.

Lemma by_ref_push_back_in_node node : by_ref (push_back_in_node node).
Proof. unfold push_back_in_node. repeat by_ref_step. Qed.

Lemma by_ref_insert_in_full_node node l : by_ref (insert_in_full_node node l).
Proof. unfold insert_in_full_node. repeat by_ref_step. Qed.

Lemma by_ref_push_back : by_ref push_back.
Proof.
  unfold push_back. repeat by_ref_step.
  - apply by_ref_push_first_value.
  - apply by_ref_push_back_in_node.
Qed.

Lemma by_ref_push_front : by_ref push_front.
Proof.
  unfold push_front. repeat by_ref_step. apply by_ref_push_first_value.
Qed.

Lemma by_ref_insert fuel index : by_ref (insert fuel index).
Proof.
  unfold insert. repeat by_ref_step.
  - apply by_ref_push_back.
  - apply by_ref_push_front.
  - apply by_ref_insert_in_full_node.
Qed.

(** A call with a reference as argument is undefined, or it is the call
    with some outside value in its place. *)
Lemma exec_by_ref fuel o (s : state) :
  exec fuel o s = Fault ∨ ∃ v, exec fuel o s = exec fuel (with_value o v) s.
Proof.
  destruct o as [index value|value|value|index| | | |]; simpl;
    try (right; by exists junk).
  - apply by_ref_insert.
  - apply by_ref_push_back.
  - apply by_ref_push_front.
Qed.

(** *** Functions that read their argument before they overwrite it *)

Lemma get_value_Ok p i v (s : state) :
  get_value p i s = Ok v s
  ↔ ∃ a n, p = Some a ∧ heap s !! a = Some n ∧ 0 ≤ i < Size
           ∧ values n !! Z.to_nat i = Some v.
Proof.
  split.
  - unfold get_value, deref, mbind, M_bind.
    destruct p as [a|]; [|done].
    destruct (heap s !! a) as [n|] eqn:Ha; [|done].
    destruct ((0 <=? i) && (i <? Size)) eqn:Hi; [|done].
    destruct (values n !! Z.to_nat i) as [x|] eqn:Hx; [|done].
    intros [= <-]. exists a, n. split_and!; try done; lia.
  - intros (a & n & -> & Ha & Hi & Hx). by apply (run_get_value a n).
Qed.

Lemma keeps_weaken {A} p i v (R R' : A → Prop) (m : M A) :
  (∀ a, R a → R' a) → keeps p i v R m → keeps p i v R' m.
Proof.
  intros HR Hm s a s' Hv Hrun. destruct (Hm s a s' Hv Hrun) as [? ?]. auto.
Qed.

Lemma keeps_bind {A B} p i v (R1 : A → Prop) (R2 : B → Prop) (m : M A) (k : A → M B) :
  keeps p i v R1 m → (∀ a, R1 a → keeps p i v R2 (k a)) → keeps p i v R2 (m ≫= k).
Proof.
  intros Hm Hk s b s' Hv. unfold mbind, M_bind.
  destruct (m s) as [a s1|e s1| |] eqn:E; try done.
  destruct (Hm s a s1 Hv E) as [Hv1 Ha]. by apply Hk.
Qed.

(** a computation that does not change the memory *)
Lemma keeps_same_heap {A} p i v (m : M A) :
  (∀ s a s', m s = Ok a s' → heap s' = heap s) → keeps p i v (λ _, True) m.
Proof.
  intros Hm s a s' Hv Hrun. split; [|done].
  apply get_value_Ok in Hv as (b & n & -> & Hb & Hi & Hx).
  apply get_value_Ok. exists b, n. by rewrite (Hm s a s' Hrun).
Qed.

Lemma keeps_mret {A} p i v (a : A) : keeps p i v (λ _, True) (mret a).
Proof. apply keeps_same_heap. by intros s a' s' [= _ <-]. Qed.

Lemma keeps_get {A} p i v (f : state → A) : keeps p i v (λ _, True) (get f).
Proof. apply keeps_same_heap. by intros s a' s' [= _ <-]. Qed.

Lemma keeps_modify p i v (f : state → state) :
  (∀ s, heap (f s) = heap s) → keeps p i v (λ _, True) (modify f).
Proof.
  intros Hf. apply keeps_same_heap. intros s a s' Hrun.
  unfold modify in Hrun. inversion Hrun; subst. apply Hf.
Qed.

Lemma keeps_deref p i v q : keeps p i v (λ _, True) (deref q).
Proof.
  apply keeps_same_heap. intros s a s'. unfold deref.
  destruct q as [b|]; [|done]. destruct (heap s !! b); [|done]. by intros [= _ <-].
Qed.

(** updating the links or the count of a node *)
Lemma keeps_update p i v q (g : LNode → LNode) :
  (∀ n, values (g n) = values n) →
  keeps p i v (λ _, True) (n ← deref q; store q (g n)).
Proof.
  intros Hg s [] s' Hv. unfold deref, store, mbind, M_bind.
  destruct q as [b|]; [|done]. destruct (heap s !! b) as [n|] eqn:Hb; [|done].
  rewrite Hb. intros [= <-]. split; [|done].
  apply get_value_Ok in Hv as (a & n0 & -> & Ha & Hi & Hx).
  apply get_value_Ok. destruct (decide (a = b)) as [->|Hne].
  - exists b, (g n). mred. rewrite lookup_insert_eq. rewrite Hg.
    rewrite Hb in Ha. injection Ha as ->. done.
  - exists a, n0. mred. by rewrite lookup_insert_ne.
Qed.

Lemma keeps_set_next p i v q x : keeps p i v (λ _, True) (set_next q x).
Proof. apply (keeps_update p i v q (λ n, mkLNode x (prev n) (count n) (values n))). done. Qed.

Lemma keeps_set_prev p i v q x : keeps p i v (λ _, True) (set_prev q x).
Proof. apply (keeps_update p i v q (λ n, mkLNode (next n) x (count n) (values n))). done. Qed.

Lemma keeps_set_count p i v q c : keeps p i v (λ _, True) (set_count q c).
Proof. apply (keeps_update p i v q (λ n, mkLNode (next n) (prev n) c (values n))). done. Qed.

Lemma keeps_get_next p i v q : keeps p i v (λ _, True) (get_next q).
Proof.
  unfold get_next. eapply keeps_bind; [apply keeps_deref|]. intros n _. apply keeps_mret.
Qed.

Lemma keeps_get_prev p i v q : keeps p i v (λ _, True) (get_prev q).
Proof.
  unfold get_prev. eapply keeps_bind; [apply keeps_deref|]. intros n _. apply keeps_mret.
Qed.

Lemma keeps_get_count p i v q : keeps p i v (λ _, True) (get_count q).
Proof.
  unfold get_count. eapply keeps_bind; [apply keeps_deref|]. intros n _. apply keeps_mret.
Qed.

Lemma keeps_get_value p i v q j : keeps p i v (λ _, True) (get_value q j).
Proof.
  apply keeps_same_heap. intros s a s' Hrun.
  destruct (get_value_pure q j s) as [Hf|[x Hx]]; congruence.
Qed.

(** writing a slot of another node *)
Lemma keeps_set_value p i v q j x :
  q ≠ p → keeps p i v (λ _, True) (set_value q j x).
Proof.
  intros Hqp s [] s' Hv. unfold set_value, deref, store, mbind, M_bind, fault.
  destruct q as [b|]; [|done]. destruct (heap s !! b) as [n|] eqn:Hb; [|done].
  destruct ((0 <=? j) && (j <? Size) && (j <? Z.of_nat (length (values n)))); [|done].
  rewrite Hb. intros [= <-]. split; [|done].
  apply get_value_Ok in Hv as (a & n0 & -> & Ha & Hi & Hx).
  apply get_value_Ok. exists a, n0. mred.
  rewrite lookup_insert_ne by congruence. done.
Qed.

(** a node just allocated is not the node of a slot that was there
    before *)
Lemma keeps_new_LNode p i v :
  keeps p i v (λ q, q ≠ p)
        (try_catch_bad_alloc new_LNode (throw (LariatException E_NO_MEMORY))).
Proof.
  intros s q s' Hv. unfold try_catch_bad_alloc, new_LNode, throw.
  destruct (avail s) as [|av]; [done|]. intros [= <- <-].
  apply get_value_Ok in Hv as (a & n & -> & Ha & Hi & Hx).
  pose proof (fresh_not_in _ _ _ Ha) as Hne.
  split; [|congruence].
  apply get_value_Ok. exists a, n. cbn [heap]. by rewrite lookup_insert_ne.
Qed.

Lemma keeps_if {A} p i v (R : A → Prop) (b : bool) (m1 m2 : M A) :
  keeps p i v R m1 → keeps p i v R m2 → keeps p i v R (if b then m1 else m2).
Proof. by destruct b. Qed.

Lemma keeps_for_loop {A} p i v k : ∀ j (acc : A) body,
  (∀ j acc, keeps p i v (λ _, True) (body j acc)) →
  keeps p i v (λ _, True) (for_loop k j acc body).
Proof.
  induction k as [|k IH]; intros j acc body Hb; simpl.
  - apply keeps_mret.
  - eapply keeps_bind; [apply Hb|]. intros acc' _. by apply IH.
Qed.

Ltac keeps_step :=
  lazymatch goal with
  | |- keeps _ _ _ _ (mret _) => apply keeps_mret
  | |- keeps _ _ _ _ (get _) => apply keeps_get
  | |- keeps _ _ _ _ (modify _) => apply keeps_modify; done
  | |- keeps _ _ _ _ (get_next _) => apply keeps_get_next
  | |- keeps _ _ _ _ (get_prev _) => apply keeps_get_prev
  | |- keeps _ _ _ _ (get_count _) => apply keeps_get_count
  | |- keeps _ _ _ _ (get_value _ _) => apply keeps_get_value
  | |- keeps _ _ _ _ (set_next _ _) => apply keeps_set_next
  | |- keeps _ _ _ _ (set_prev _ _) => apply keeps_set_prev
  | |- keeps _ _ _ _ (set_count _ _) => apply keeps_set_count
  | |- keeps _ _ _ _ (set_value _ _ _) => apply keeps_set_value; assumption
  | |- keeps _ _ _ _ (for_loop _ _ _ _) => apply keeps_for_loop; intros ? ?
  | |- keeps _ _ _ _ (match ?x with Some _ => _ | None => _ end) => destruct x
  | |- keeps _ _ _ _ (if _ then _ else _) => apply keeps_if
  | |- keeps ?p _ _ _ (try_catch_bad_alloc new_LNode _) =>
      apply (keeps_weaken _ _ _ (λ q, q ≠ p)); [done|apply keeps_new_LNode]
  | |- keeps _ _ _ _ (try_catch_bad_alloc new_LNode _ ≫= _) =>
      eapply keeps_bind; [apply keeps_new_LNode|intros ? ?; cbv beta in *]
  | |- keeps _ _ _ _ (_ ≫= _) =>
      apply (keeps_bind _ _ _ (λ _, True)); [|intros ? _]
  end.

(** [split] copies into the node it has just allocated *)
Lemma keeps_split p i v node : keeps p i v (λ _, True) (split node).
Proof. unfold split. repeat keeps_step. Qed.

Ltac keeps_op :=
  lazymatch goal with
  | |- keeps _ _ _ _ (split _) => apply keeps_split
  | |- _ => keeps_step
  end.

Lemma same_read_const {A} p i v (m : M A) : same_read p i v (λ _, m).
Proof. by intros s _. Qed.

Lemma same_read_read {A} p i v (k : T → M A) :
  same_read p i v (λ value, read value ≫= k).
Proof. intros s Hv. unfold mbind, M_bind, read. by rewrite Hv. Qed.

Lemma same_read_bind {A B} p i v (m : M A) (K : A → cref → M B) :
  keeps p i v (λ _, True) m → (∀ a, same_read p i v (K a)) →
  same_read p i v (λ value, m ≫= λ a, K a value).
Proof.
  intros Hm HK s Hv. unfold mbind, M_bind.
  destruct (m s) as [a s1|e s1| |] eqn:E; try done.
  apply HK. by apply (Hm s a s1).
Qed.

Lemma same_read_if {A} p i v (b : bool) (F G : cref → M A) :
  same_read p i v F → same_read p i v G →
  same_read p i v (λ value, if b then F value else G value).
Proof. by destruct b. Qed.

Ltac same_read_step :=
  lazymatch goal with
  | |- same_read _ _ _ (λ _, read _ ≫= _) => apply same_read_read
  | |- same_read _ _ _ (λ _, if _ then _ else _) => apply same_read_if
  | |- same_read _ _ _ (λ _, _ ≫= _) =>
      first [apply same_read_const
            | apply same_read_bind; [solve [repeat keeps_op]|intros ?]]
  end.

Lemma same_read_push_first_value p i v : same_read p i v push_first_value.
Proof. unfold push_first_value. repeat same_read_step. Qed.

Lemma same_read_push_back_in_node p i v node :
  same_read p i v (push_back_in_node node).
Proof. unfold push_back_in_node. repeat same_read_step. Qed.

Lemma same_read_push_back p i v : same_read p i v push_back.
Proof.
  unfold push_back. repeat same_read_step.
  - apply same_read_push_first_value.
  - apply same_read_push_back_in_node.
Qed.

(** [push_back] copies its argument before it changes any slot the
    argument can refer to: a reference that reads [v] on entry is as good
    as [v]. *)
Lemma push_back_by_read value v (s : state) :
  read value s = Ok v s → push_back value s = push_back (Outside v) s.
Proof.
  destruct value as [v'|p i]; simpl.
  - by intros [= ->].
  - intros Hv. by apply same_read_push_back.
Qed.

(** ** Sequences of operations *)

Lemma exec_mono fuel fuel' o (s : state) r :
  (fuel ≤ fuel')%nat → exec fuel o s = r → r ≠ OutOfFuel → exec fuel' o s = r.
Proof.
  intros Hle Hrun Hr. destruct o; simpl in *; try done.
  - by eapply insert_mono.
  - by eapply erase_mono.
  - by eapply clear_mono.
  - by eapply compact_mono.
Qed.

Lemma good_new mem : good (Lariat_new mem) [].
Proof.
  split; [|constructor]. constructor; simpl; try done; constructor.
Qed.

Lemma ok_or_oom_returns (r : result T unit) (s s' : state) P :
  ok_or_oom r s P → returns r s' → ∃ L', good s' L'.
Proof.
  intros [(s1 & L1 & -> & Hg & _)|(_ & s1 & L1 & -> & Hg)] [Hr|[e Hr]];
    inversion Hr; subst; by exists L1.
Qed.

Lemma erase_zero fuel (s : state) : erase fuel 0 s = pop_front s.
Proof. done. Qed.

Lemma erase_size fuel (s : state) :
  size_ s ≠ 0 → erase fuel (size_ s) s = pop_back s.
Proof.
  intros Hne. unfold erase. rewrite bind_get.
  replace (size_ s =? 0) with false by lia. by rewrite Z.eqb_refl.
Qed.

Lemma pop_front_returns (s : state) L s' :
  good s L → returns (pop_front s) s' → ∃ L', good s' L'.
Proof.
  intros Hg Hret. destruct L as [|[a n] L2].
  - rewrite pop_front_empty in Hret by (apply chain_ok_nil_head, Hg).
    destruct Hret as [Hr|[e Hr]]; inversion Hr; subst. by exists [].
  - pose proof (chain_ok_node _ [] _ _ _ (proj1 Hg)) as [Hc _].
    destruct (Z.eq_dec (count n) Size) as [Hfull|Hroom].
    + rewrite (pop_front_full s a n L2 (proj1 Hg) Hfull) in Hret.
      by destruct Hret as [Hr|[e Hr]].
    + destruct (pop_front_spec s a n L2 Hg ltac:(lia)) as (s1 & L1 & Hrun & Hg1 & _).
      rewrite Hrun in Hret. destruct Hret as [Hr|[e Hr]]; inversion Hr; subst.
      by exists L1.
Qed.

Lemma pop_back_returns (s : state) L s' :
  good s L → returns (pop_back s) s' → ∃ L', good s' L'.
Proof.
  intros Hg Hret. destruct (decide (L = [])) as [->|Hne].
  - rewrite pop_back_empty in Hret by apply Hg. by destruct Hret as [Hr|[e Hr]].
  - destruct (pop_back_spec s L Hg Hne) as (s1 & L1 & Hrun & Hg1 & _).
    rewrite Hrun in Hret. destruct Hret as [Hr|[e Hr]]; inversion Hr; subst.
    by exists L1.
Qed.

Lemma exec_good (s : state) L fuel o s' :
  good s L → returns (exec fuel o s) s' → ∃ L', good s' L'.
Proof.
  intros Hg Hret.
  destruct (exec_by_ref fuel o s) as [Hfault|[v0 Hv0]].
  { rewrite Hfault in Hret. by destruct Hret as [Hr|[e Hr]]. }
  rewrite Hv0 in Hret. clear Hv0.
  assert (returns (exec (max fuel (S (length L))) (with_value o v0) s) s') as Hret'.
  { destruct Hret as [Hr|[e Hr]]; [left|right; exists e];
      (eapply exec_mono; [|exact Hr|done]); lia. }
  clear Hret. set (fuel' := max fuel (S (length L))) in *.
  assert (length L < fuel')%nat as Hf by lia. clearbody fuel'.
  pose proof (total_nonneg _ (ck_nodes _ _ (proj1 Hg))) as Hnn.
  rewrite <- (ck_size _ _ (proj1 Hg)) in Hnn.
  destruct o as [index v|v|v|index| | | |]; simpl in Hret'.
  - destruct (decide (0 ≤ index ≤ size_ s)) as [Hi|Hi].
    + eapply ok_or_oom_returns; [|exact Hret']. apply insert_outcome; [done|lia|done].
    + rewrite insert_bad_index in Hret' by lia.
      destruct Hret' as [Hr|[e Hr]]; inversion Hr; subst. by exists L.
  - eapply ok_or_oom_returns; [|exact Hret']. by apply push_back_outcome.
  - eapply ok_or_oom_returns; [|exact Hret']. by apply push_front_outcome.
  - destruct (Z.eq_dec index 0) as [->|Hn0].
    { rewrite erase_zero in Hret'. by eapply pop_front_returns. }
    destruct (Z.eq_dec index (size_ s)) as [->|Hns].
    { rewrite erase_size in Hret' by done. by eapply pop_back_returns. }
    destruct (decide (0 < index < size_ s)) as [Hi|Hi].
    + destruct (erase_middle_spec s L fuel' index Hg ltac:(lia) Hi)
        as [Hfault|(s1 & L1 & Hrun & Hg1 & _)].
      * rewrite Hfault in Hret'. by destruct Hret' as [Hr|[e Hr]].
      * rewrite Hrun in Hret'. destruct Hret' as [Hr|[e Hr]]; inversion Hr; subst.
        by exists L1.
    + rewrite (erase_out_of_range s L fuel' index Hg) in Hret'; [|lia|done].
      by destruct Hret' as [Hr|[e Hr]].
  - by eapply pop_back_returns.
  - by eapply pop_front_returns.
  - destruct (clear_spec s L fuel' (proj1 Hg) Hf) as (s1 & Hrun & Hg1).
    rewrite Hrun in Hret'. destruct Hret' as [Hr|[e Hr]]; inversion Hr; subst.
    by exists [].
  - destruct (compact_spec s L fuel' Hg Hf) as (s1 & L1 & Hrun & Hg1 & _).
    rewrite Hrun in Hret'. destruct Hret' as [Hr|[e Hr]]; inversion Hr; subst.
    by exists L1.
Qed.

Lemma reachable_good (s : state) : reachable s → ∃ L, good s L.
Proof.
  induction 1 as [mem|s o fuel s' _ [L Hg] Hret].
  - exists []. apply good_new.
  - by eapply exec_good.
Qed.

Lemma reachable_WF (s : state) : reachable s → WF s.
Proof. intros H. destruct (reachable_good s H) as [L Hg]. by exists L. Qed.


Lemma after_reachable fuel ops : ∀ s, reachable s → reachable (after fuel ops s).
Proof.
  induction ops as [|o ops IH]; intros s Hs; simpl; [done|].
  destruct (exec fuel o s) as [[] s'|e s'| |] eqn:E; try done.
  - apply IH. eapply reach_step; [exact Hs|]. left. exact E.
  - apply IH. eapply reach_step; [exact Hs|]. right. exists e. exact E.
Qed.

Lemma sumZ_counts L : sumZ ((λ p : positive * LNode, count p.2) <$> L) = total L.
Proof. induction L as [|p L IH]; [done|]. simpl. by rewrite <- IH. Qed.

Lemma good_observe (s : state) L fuel :
  good s L → (Z.to_nat (nodecount_ s) ≤ fuel)%nat →
  elements fuel s = Some (contents L)
  ∧ counts fuel s = Some ((λ p, count p.2) <$> L)
  ∧ size_ s = Z.of_nat (length (contents L)).
Proof.
  intros [H H1] Hf. rewrite (ck_nodecount _ _ H) in Hf.
  split_and!.
  - apply elements_spec; [done|lia].
  - apply counts_spec; [done|lia].
  - rewrite (ck_size _ _ H). symmetry. apply length_contents, H.
Qed.

Lemma good_elements (s : state) L fuel es :
  good s L → elements fuel s = Some es → es = contents L.
Proof.
  intros [H H1] He. pose proof (elements_fuel _ _ _ _ H He) as Hf.
  rewrite (elements_spec s L fuel H Hf) in He. by inversion He.
Qed.


Lemma full_counts (A : list (positive * LNode)) :
  Forall (λ p, count p.2 = Size) A →
  (λ p, count p.2) <$> A = replicate (length A) Size
  ∧ total A = Z.of_nat (length A) * Size.
Proof.
  induction 1 as [|p A Hp _ [IH1 IH2]]; [done|]. split.
  - rewrite fmap_cons, IH1. simpl. by rewrite Hp.
  - simpl total. simpl length. lia.
Qed.

Lemma packed_counts_spec L :
  packed L →
  (λ p, count p.2) <$> L = packed_counts (total L)
  ∧ Z.of_nat (length L) = (total L + Size - 1) / Size.
Proof.
  intros (A & B & -> & HA & HB).
  destruct (full_counts A HA) as [Hcs Htot].
  rewrite fmap_app, total_app, length_app, Hcs, Htot. unfold packed_counts.
  destruct HB as [->|(x & n & -> & Hc)]; simpl.
  - rewrite Z.add_0_r, app_nil_r, Nat.add_0_r.
    rewrite Z.div_mul by lia. rewrite Z.mod_mul by lia. simpl.
    rewrite app_nil_r, Nat2Z.id. split; [done|].
    apply (Z.div_unique _ _ _ (Size - 1)); lia.
  - rewrite Z.add_0_r.
    assert ((Z.of_nat (length A) * Size + count n) / Size = Z.of_nat (length A)) as Hd.
    { symmetry. apply (Z.div_unique _ _ _ (count n)); lia. }
    assert ((Z.of_nat (length A) * Size + count n) mod Size = count n) as Hm.
    { symmetry. apply (Z.mod_unique _ _ (Z.of_nat (length A))); lia. }
    rewrite Hd, Hm, Nat2Z.id. replace (count n =? 0) with false by lia.
    split; [done|].
    apply (Z.div_unique _ _ _ (count n - 1)); lia.
Qed.

(** the node holding a global index is determined by the index *)
Lemma locate_unique (L1 : list (positive * LNode)) : ∀ L1' p p' L2 L2' index,
  L1 ++ p :: L2 = L1' ++ p' :: L2' →
  Forall (λ q, node_ok q.2) (L1 ++ p :: L2) →
  total L1 ≤ index < total L1 + count p.2 →
  total L1' ≤ index < total L1' + count p'.2 →
  L1 = L1' ∧ p = p' ∧ L2 = L2'.
Proof.
  induction L1 as [|q L1 IH]; intros [|q' L1'] p p' L2 L2' index He Hok Hi Hi'.
  - by inversion He.
  - inversion He; subst. apply Forall_cons in Hok as [_ Hok].
    apply Forall_app in Hok as [Hok _]. pose proof (total_nonneg _ Hok).
    simpl in *. lia.
  - inversion He; subst. apply Forall_cons in Hok as [_ Hok].
    apply Forall_app in Hok as [Hok _]. pose proof (total_nonneg _ Hok).
    simpl in *. lia.
  - inversion He; subst. apply Forall_cons in Hok as [_ Hok].
    destruct (IH L1' p p' L2 L2' (index - count q'.2) H1 Hok) as (-> & -> & ->);
      [simpl in *; lia|simpl in *; lia|done].
Qed.

Lemma find_element_at (s : state) L1 a n L2 fuel index :
  chain_ok s (L1 ++ (a, n) :: L2) →
  total L1 ≤ index < total L1 + count n →
  (length (L1 ++ (a, n) :: L2) ≤ fuel)%nat →
  find_element fuel index s = Ok (mkInfo (Some a) (index - total L1)) s.
Proof.
  intros H Hi Hf. pose proof (ck_nodes _ _ H) as Hok.
  assert (0 ≤ index < size_ s) as Hr.
  { rewrite (ck_size _ _ H), total_app. simpl.
    pose proof Hok as Hok'. apply Forall_app in Hok' as [Hok1 Hok2].
    apply Forall_cons in Hok2 as [_ Hok2].
    pose proof (total_nonneg _ Hok1). pose proof (total_nonneg _ Hok2). lia. }
  destruct (find_element_spec s _ fuel index H Hr Hf)
    as (L1' & a' & n' & L2' & He & Hi' & Hrun).
  destruct (locate_unique L1 L1' (a, n) (a', n') L2 L2' index He Hok Hi Hi')
    as (-> & [= -> ->] & ->).
  exact Hrun.
Qed.

Lemma segments_spec (s : state) L fuel :
  chain_ok s L → (length L ≤ fuel)%nat → segments fuel s = Some (seg_view <$> L).
Proof.
  intros H Hf. unfold segments. rewrite (ck_head _ _ H).
  apply (walk_spec L _ None fuel); [apply H|apply H|done].
Qed.

Lemma sumZ_seg_view L : sumZ ((seg_view <$> L).*1) = total L.
Proof. induction L as [|p L IH]; [done|]. simpl. by rewrite <- IH. Qed.

(** [insert] into a node with spare capacity, by the node it lands in *)
Lemma insert_room_path (s : state) L1 a n L2 fuel index v :
  chain_ok s (L1 ++ (a, n) :: L2) → count n < Size →
  total L1 ≤ index < total L1 + count n → 0 < index < size_ s →
  (length (L1 ++ (a, n) :: L2) ≤ fuel)%nat →
  ∃ s' n', insert fuel index (Outside v) s = Ok tt s'
    ∧ chain_ok s' (L1 ++ (a, n') :: L2)
    ∧ inserted_with_room n n' (index - total L1) v.
Proof.
  intros H Hroom Hi His Hf.
  destruct (insert_with_room_spec s L1 a n L2 (index - total L1) v H)
    as (s' & n' & Hrun & Hck & Hins & _); [lia|lia|].
  exists s', n'. split; [|done].
  unfold insert. mstep.
  replace ((index <? 0) || (size_ s <? index)) with false
    by (symmetry; apply orb_false_iff; lia).
  replace (index =? size_ s) with false by lia.
  replace (index =? 0) with false by lia.
  erewrite bind_Ok by (by apply (find_element_at s L1 a n L2)). mred.
  pose proof (chain_ok_lookup _ _ _ _ _ H) as Ha.
  mstep. mstep. rewrite (ck_asize _ _ H).
  replace (count n <? Size) with true by lia.
  exact Hrun.
Qed.

(** With more fuel than there are nodes, no call on a well-formed
    container runs out of fuel: the loops of the source terminate. *)
Lemma pop_front_fuel (s : state) L : good s L → pop_front s ≠ OutOfFuel.
Proof.
  intros Hg. destruct L as [|[a n] L2].
  - by rewrite pop_front_empty by (apply chain_ok_nil_head, Hg).
  - pose proof (chain_ok_node _ [] _ _ _ (proj1 Hg)) as [Hc _].
    destruct (Z.eq_dec (count n) Size) as [Hfull|Hroom].
    + by rewrite (pop_front_full s a n L2 (proj1 Hg) Hfull).
    + destruct (pop_front_spec s a n L2 Hg ltac:(lia)) as (s1 & L1 & -> & _). done.
Qed.

Lemma pop_back_fuel (s : state) L : good s L → pop_back s ≠ OutOfFuel.
Proof.
  intros Hg. destruct (decide (L = [])) as [->|Hne].
  - by rewrite pop_back_empty by apply Hg.
  - destruct (pop_back_spec s L Hg Hne) as (s1 & L1 & -> & _). done.
Qed.

Lemma ok_or_oom_fuel (r : result T unit) (s : state) P :
  ok_or_oom r s P → r ≠ OutOfFuel.
Proof. by intros [(s1 & L1 & -> & _)|(_ & s1 & L1 & -> & _)]. Qed.

Lemma exec_enough_fuel (s : state) L fuel o :
  good s L → (length L < fuel)%nat → exec fuel o s ≠ OutOfFuel.
Proof.
  intros Hg Hf.
  pose proof (total_nonneg _ (ck_nodes _ _ (proj1 Hg))) as Hnn.
  rewrite <- (ck_size _ _ (proj1 Hg)) in Hnn.
  destruct (exec_by_ref fuel o s) as [->|[v0 ->]]; [done|].
  destruct o as [index v|v|v|index| | | |]; simpl.
  - destruct (decide (0 ≤ index ≤ size_ s)) as [Hi|Hi].
    + eapply ok_or_oom_fuel. apply insert_outcome; [done|lia|done].
    + by rewrite insert_bad_index by lia.
  - eapply ok_or_oom_fuel. by apply push_back_outcome.
  - eapply ok_or_oom_fuel. by apply push_front_outcome.
  - destruct (Z.eq_dec index 0) as [->|Hn0].
    { rewrite erase_zero. by eapply pop_front_fuel. }
    destruct (Z.eq_dec index (size_ s)) as [->|Hns].
    { rewrite erase_size by done. by eapply pop_back_fuel. }
    destruct (decide (0 < index < size_ s)) as [Hi|Hi].
    + by destruct (erase_middle_spec s L fuel index Hg ltac:(lia) Hi)
        as [->|(s1 & L1 & -> & _)].
    + by rewrite (erase_out_of_range s L fuel index Hg) by (done || lia).
  - by eapply pop_back_fuel.
  - by eapply pop_front_fuel.
  - by destruct (clear_spec s L fuel (proj1 Hg) Hf) as (s1 & -> & _).
  - by destruct (compact_spec s L fuel Hg Hf) as (s1 & L1 & -> & _).
Qed.

(** ** Main results *)

(** *** Functions that read their argument after they have moved it

    [insert_in_full_node], and the branch of [push_front] for a full
    head, rotate the node before they read [value]. *)

Lemma insert_full_path (s : state) L1 a n L2 fuel index value :
  chain_ok s (L1 ++ (a, n) :: L2) → count n = Size →
  total L1 ≤ index < total L1 + Size → 0 < index < size_ s →
  (length (L1 ++ (a, n) :: L2) ≤ fuel)%nat →
  insert fuel index value s
  = insert_in_full_node (Some a) (index - total L1) value s.
Proof.
  intros H Hfull Hi His Hf.
  unfold insert. mstep.
  replace ((index <? 0) || (size_ s <? index)) with false
    by (symmetry; apply orb_false_iff; lia).
  replace (index =? size_ s) with false by lia.
  replace (index =? 0) with false by lia.
  erewrite bind_Ok by (apply (find_element_at s L1 a n L2); [done|lia|done]). mred.
  pose proof (chain_ok_lookup _ _ _ _ _ H) as Ha.
  mstep. mstep. rewrite (ck_asize _ _ H).
  by replace (count n <? Size) with false by lia.
Qed.

Lemma push_front_full_path (s : state) a n L2 value :
  chain_ok s ((a, n) :: L2) → count n = Size →
  push_front value s = insert_in_full_node (Some a) 0 value s.
Proof.
  intros H Hfull. unfold push_front. mstep.
  rewrite (ck_head _ _ H). cbn [first_addr fst].
  rewrite (ptr_eqb_ne (Some a) None) by done.
  pose proof (chain_ok_lookup _ [] _ _ _ H) as Ha.
  mstep. mstep. rewrite (ck_asize _ _ H).
  by replace (count n =? Size) with true by lia.
Qed.

(** After the rotation the slot [j ≥ l] holds the element that was
    before it, and the slot [l] holds the one that was last. *)
Lemma insert_in_full_node_rotated (s : state) L1 a n L2 l j y :
  chain_ok s (L1 ++ (a, n) :: L2) → count n = Size → 0 ≤ l → l ≤ j < Size →
  live n !! Z.to_nat (if j =? l then Size - 1 else j - 1) = Some y →
  insert_in_full_node (Some a) l (Slot (Some a) j) s
  = insert_in_full_node (Some a) l (Outside y) s.
Proof.
  intros H Hfull Hl Hj Hy.
  pose proof (chain_ok_lookup _ _ _ _ _ H) as Ha.
  pose proof (chain_ok_node _ _ _ _ _ H) as Hok. destruct (Hok) as [Hc Hlen].
  rewrite (live_full n) in Hy by done.
  destruct (list_split_one (values n) (Z.to_nat l)) as (pre & x0 & rest0 & Hv & Hpre); [lia|].
  destruct (list_snoc_inv rest0 x0) as (init & z & Hw).
  rewrite Hw in Hv.
  assert (length pre + length init + 1 = Z.to_nat Size)%nat as Hsz.
  { rewrite <- Hlen, Hv. list_len. lia. }
  assert (∃ x todo, init ++ [z] = x :: todo
                    ∧ rot x [] todo = z :: init) as (x & todo & Hxt & Hrot).
  { destruct init as [|x t].
    - by exists z, [].
    - exists x, (t ++ [z]). split; [done|]. by rewrite rot_snoc. }
  assert (length todo = length init) as Htodo.
  { apply (f_equal length) in Hxt. revert Hxt. list_len. lia. }
  assert (shiftUp (Some a) l s
          = Ok tt (set_heap (<[a := upd_values n (pre ++ z :: init)]> (heap s)) s))
    as Hshift.
  { rewrite (shiftUp_spec a n pre x todo [] l s); [|exact Ha| |done|lia|lia].
    - by rewrite Hrot, app_nil_r.
    - rewrite Hv, Hxt. by rewrite app_nil_r. }
  assert ((pre ++ z :: init) !! Z.to_nat j = Some y) as Hyj.
  { rewrite Hv in Hy. destruct (Z.eqb_spec j l) as [->|Hne].
    - rewrite lookup_at by lia.
      rewrite app_assoc in Hy. rewrite lookup_at in Hy by (list_len; lia). done.
    - rewrite lookup_app_r by lia.
      rewrite lookup_app_r in Hy by lia.
      rewrite lookup_app_l in Hy by lia.
      replace (Z.to_nat j - length pre)%nat
        with (S (Z.to_nat (j - 1) - length pre)) by lia.
      done. }
  unfold insert_in_full_node.
  rewrite !(bind_Ok _ _ _ _ _ Hshift).
  set (s1 := set_heap (<[a := upd_values n (pre ++ z :: init)]> (heap s)) s).
  assert (heap s1 !! a = Some (upd_values n (pre ++ z :: init))) as Ha1
    by (unfold s1; mred; apply lookup_insert_eq).
  assert (get_value (Some a) l s1 = Ok z s1) as Hz.
  { apply (run_get_value a _ l z s1 Ha1); [lia|]. mred. apply lookup_at. lia. }
  rewrite !(bind_Ok _ _ _ _ _ Hz).
  assert (read (Slot (Some a) j) s1 = Ok y s1) as Hread.
  { simpl. apply (run_get_value a _ j y s1 Ha1); [lia|]. by mred. }
  rewrite (bind_Ok _ _ _ _ _ Hread). by rewrite bind_read.
Qed.

(** [insert] with an argument bound to an object outside the nodes (a
    temporary, a variable of the caller).  For a container holding [es]
    and an index with [0 < index < length es], the call succeeds when a
    node can be allocated; afterwards the traversal reads [es] with [v]
    inserted at position [index], and [size()] has grown by one,
    whichever path is taken.  On the path with spare capacity the node
    the index lands in receives [v] at the local index, its elements from
    there on move one slot toward the tail, and the other nodes stay as
    they were. *)
Theorem insert_keeps_order (s : state) fuel es index v :
  WF s → elements fuel s = Some es →
  0 < index < Z.of_nat (length es) → (1 ≤ avail s)%nat →
  ∃ s', insert fuel index (Outside v) s = Ok tt s'
    ∧ elements (Z.to_nat (nodecount_ s')) s'
      = Some (take (Z.to_nat index) es ++ v :: drop (Z.to_nat index) es)
    ∧ size s' = Ok (Z.of_nat (length es) + 1) s'
    ∧ WF s'
    ∧ ∀ sv1 c xs sv2,
        segments fuel s = Some (sv1 ++ (c, xs) :: sv2) →
        sumZ sv1.*1 ≤ index < sumZ sv1.*1 + c → c < Size →
        let l := Z.to_nat (index - sumZ sv1.*1) in
        segments fuel s'
        = Some (sv1 ++ (c + 1, take l xs ++ v :: drop l xs) :: sv2).
Proof.
  intros [L Hg] He Hi Hav.
  pose proof (good_elements s L fuel es Hg He) as ->.
  pose proof (elements_fuel _ _ _ _ (proj1 Hg) He) as Hf.
  pose proof (length_contents _ (ck_nodes _ _ (proj1 Hg))) as Hlen.
  rewrite <- (ck_size _ _ (proj1 Hg)) in Hlen.
  destruct (insert_outcome s L fuel index v Hg Hf ltac:(lia))
    as [(s' & L' & Hrun & Hg' & Hc)|[Hoom _]]; [|lia].
  exists s'. destruct (good_observe s' L' (Z.to_nat (nodecount_ s')) Hg' ltac:(lia))
    as (Hel & _ & Hsz).
  split_and!; [done| | |by exists L'|].
  - by rewrite Hel, Hc.
  - unfold size, get. rewrite Hsz, Hc. do 2 f_equal.
    rewrite length_app. simpl. rewrite length_take, length_drop. lia.
  - intros sv1 c xs sv2 Hseg Hin Hroom l.
    rewrite (segments_spec s L fuel (proj1 Hg) Hf) in Hseg.
    injection Hseg as Hseg.
    apply fmap_app_inv in Hseg as (L1 & R & -> & HR & ->).
    symmetry in HR. apply fmap_cons_inv in HR as ([a n] & L2 & [= -> ->] & -> & ->).
    rewrite sumZ_seg_view in Hin. subst l. rewrite sumZ_seg_view.
    destruct (insert_room_path s L1 a n L2 fuel index v (proj1 Hg))
      as (s1 & n' & Hrun1 & Hck1 & Hins); [done|done|lia|done|].
    rewrite Hrun in Hrun1. injection Hrun1 as <-.
    rewrite (segments_spec s' _ fuel Hck1)
      by (revert Hf; rewrite !length_app; simpl; lia).
    destruct Hins as (_ & _ & Hcn & _ & Hlive).
    rewrite fmap_app, fmap_cons. unfold seg_view at 2. simpl.
    by rewrite Hcn, Hlive.
Qed.

(** C1, as the code has it: [insert] takes its argument by reference,
    and on the path through a full node [insert_in_full_node] reads it
    only after [shiftUp] has rotated the node.  When the argument is an
    element of that node at or after the insertion point, as in
    [l.insert(i, l[k])] with [i ≤ k], the slot no longer holds it: what is
    inserted is the element that was before it (the node's last element
    when [k = i]).  The same element passed from outside is inserted as
    it should be. *)
Theorem insert_reads_argument_after_shift (s : state) L1 a n L2 fuel index j x y :
  good s (L1 ++ (a, n) :: L2) → count n = Size →
  0 < index → total L1 ≤ index → index - total L1 ≤ j < Size →
  live n !! Z.to_nat j = Some x →
  live n !! Z.to_nat (if j =? index - total L1 then Size - 1 else j - 1) = Some y →
  (length (L1 ++ (a, n) :: L2) ≤ fuel)%nat → (1 ≤ avail s)%nat →
  let es := contents (L1 ++ (a, n) :: L2) in
  find_element fuel (total L1 + j) s = Ok (mkInfo (Some a) j) s
  ∧ read (Slot (Some a) j) s = Ok x s
  ∧ (∃ s', insert fuel index (Outside x) s = Ok tt s'
       ∧ elements (Z.to_nat (nodecount_ s')) s'
         = Some (take (Z.to_nat index) es ++ x :: drop (Z.to_nat index) es))
  ∧ ∃ s', insert fuel index (Slot (Some a) j) s = Ok tt s'
      ∧ elements (Z.to_nat (nodecount_ s')) s'
        = Some (take (Z.to_nat index) es ++ y :: drop (Z.to_nat index) es)
      ∧ (x ≠ y →
         elements (Z.to_nat (nodecount_ s')) s'
         ≠ Some (take (Z.to_nat index) es ++ x :: drop (Z.to_nat index) es)).
Proof.
  intros Hg Hfull Hi0 Hi1 Hj Hx Hy Hf Hav es. pose proof Hg as [H H1].
  pose proof (chain_ok_lookup _ _ _ _ _ H) as Ha.
  pose proof (chain_ok_node _ _ _ _ _ H) as Hok.
  pose proof (ck_nodes _ _ H) as Hns. apply Forall_app in Hns as [Hns1 Hns2].
  apply Forall_cons in Hns2 as [_ Hns2].
  pose proof (total_nonneg _ Hns2) as Hnn2.
  pose proof (ck_size _ _ H) as Hsz. rewrite total_app in Hsz. simpl in Hsz.
  assert (∀ v, ∃ s', insert fuel index (Outside v) s = Ok tt s'
            ∧ elements (Z.to_nat (nodecount_ s')) s'
              = Some (take (Z.to_nat index) es ++ v :: drop (Z.to_nat index) es))
    as Hval.
  { intros v.
    destruct (insert_outcome s _ fuel index v Hg Hf ltac:(lia))
      as [(s' & L' & Hrun & Hg' & Hc)|[Hoom _]]; [|lia].
    exists s'. split; [done|].
    destruct (good_observe s' L' (Z.to_nat (nodecount_ s')) Hg' ltac:(lia))
      as (Hel & _).
    by rewrite Hel, Hc. }
  split_and!.
  - replace j with (total L1 + j - total L1) at 2 by lia.
    apply (find_element_at s L1 a n L2); [done|lia|done].
  - simpl. apply (run_get_value a n); [done|lia|].
    by rewrite (live_full n) in Hx.
  - apply Hval.
  - destruct (Hval y) as (s' & Hrun & Hel).
    exists s'. split_and!; [|done|].
    + rewrite (insert_full_path s L1 a n L2 fuel index) by (done || lia).
      rewrite (insert_in_full_node_rotated s L1 a n L2 _ j y) by (done || lia).
      by rewrite <- (insert_full_path s L1 a n L2 fuel index) by (done || lia).
    + intros Hne. rewrite Hel. intros [= Heq].
      apply app_inv_head in Heq. by injection Heq.
Qed.

(** C2: in every state reached from the empty container by calls of the
    public operations, [size()] is the sum of the counts of the nodes met
    on the way from head to tail, which is the number of live elements. *)
Theorem size_counts_live_elements (s : state) fuel :
  reachable s → (Z.to_nat (nodecount_ s) ≤ fuel)%nat →
  ∃ cs es, counts fuel s = Some cs ∧ elements fuel s = Some es
    ∧ size s = Ok (sumZ cs) s
    ∧ sumZ cs = Z.of_nat (length es).
Proof.
  intros Hr Hf. destruct (reachable_good s Hr) as [L Hg].
  destruct (good_observe s L fuel Hg Hf) as (Hel & Hcs & Hsz).
  eexists _, _. split_and!; [exact Hcs|exact Hel| |].
  - unfold size, get. by rewrite sumZ_counts, <- (ck_size _ _ (proj1 Hg)).
  - by rewrite sumZ_counts, <- (ck_size _ _ (proj1 Hg)).
Qed.

(** C3: in every reachable state every node has [count <= Size], and no
    node except possibly the last is empty.  The last node is not empty
    either: a node whose count drops to [0] is deleted before the call
    returns. *)
Theorem segment_counts_in_range (s : state) fuel :
  reachable s → (Z.to_nat (nodecount_ s) ≤ fuel)%nat →
  ∃ cs, counts fuel s = Some cs
    ∧ Forall (λ c, c ≤ Size) cs
    ∧ (∀ i c, cs !! i = Some c → (S i < length cs)%nat → 1 ≤ c)
    ∧ Forall (λ c, 1 ≤ c) cs.
Proof.
  intros Hr Hf. destruct (reachable_good s Hr) as [L Hg].
  destruct (good_observe s L fuel Hg Hf) as (_ & Hcs & _).
  assert (Forall (λ c, 1 ≤ c) ((λ p : positive * LNode, count p.2) <$> L)) as H1.
  { apply Forall_fmap. apply Hg. }
  eexists. split_and!; [exact Hcs| | |exact H1].
  - apply Forall_fmap. eapply Forall_impl; [apply (ck_nodes _ _ (proj1 Hg))|].
    intros p [Hc _]. simpl. lia.
  - intros i c Hi _. rewrite Forall_forall in H1.
    apply H1. by eapply list_elem_of_lookup_2.
Qed.

(** C5, as the code has it: the shift loop of [erase] runs [i] up to
    [count - 1] and reads [values[i + 1]], so its last round reads the slot
    at position [count].  In a full node that slot is outside the array:
    every general [erase] that lands in a full node, and already
    [shiftDown] itself, is undefined behaviour. *)
Theorem erase_in_full_node_reads_past_end (s : state) L1 a n L2 fuel index :
  chain_ok s (L1 ++ (a, n) :: L2) → count n = Size →
  total L1 ≤ index < total L1 + Size → 0 < index < size_ s →
  (length (L1 ++ (a, n) :: L2) ≤ fuel)%nat →
  shiftDown (Some a) (index - total L1) s = Fault
  ∧ erase fuel index s = Fault.
Proof.
  intros H Hfull Hi His Hf.
  pose proof (chain_ok_lookup _ _ _ _ _ H) as Ha.
  pose proof (chain_ok_node _ _ _ _ _ H) as Hok.
  split.
  - eapply shiftDown_full; [exact Ha|apply Hok|done|lia].
  - eapply erase_middle_full; [exact Ha|exact Hok|done| | |lia|lia].
    + instantiate (1 := index - total L1). lia.
    + apply (find_element_at s L1 a n L2); [done|lia|done].
Qed.

(** C6, as the code has it: [erase] has no bounds test.  For an index
    below [0] or above [size], where [insert] raises [E_BAD_INDEX] and
    leaves the container as it was, [erase] raises nothing: it walks off
    the end of the chain, or shifts from a negative slot of the head
    node, which is undefined behaviour. *)
Theorem erase_out_of_range_not_rejected (s : state) fuel index value :
  WF s → (Z.to_nat (nodecount_ s) < fuel)%nat →
  index < 0 ∨ size_ s < index →
  erase fuel index s = Fault
  ∧ insert fuel index value s = Throw (LariatException E_BAD_INDEX) s.
Proof.
  intros [L Hg] Hf Hi. split.
  - eapply erase_out_of_range; [exact Hg|done|].
    rewrite (ck_nodecount _ _ (proj1 Hg)) in Hf. lia.
  - by apply insert_bad_index.
Qed.

(** C7: [insert] raises the out-of-range exception exactly when
    [index < 0] or [index > size], and then the container is unchanged. *)
Theorem insert_out_of_range_iff (s : state) fuel index v :
  ((∃ s', insert fuel index v s = Throw (LariatException E_BAD_INDEX) s')
   ↔ (index < 0 ∨ size_ s < index))
  ∧ ∀ s', insert fuel index v s = Throw (LariatException E_BAD_INDEX) s' → s' = s.
Proof.
  assert (∀ s', insert fuel index v s = Throw (LariatException E_BAD_INDEX) s' →
                index < 0 ∨ size_ s < index) as Hin.
  { intros s' Hrun. destruct (decide (0 ≤ index ≤ size_ s)) as [Hi|Hi]; [|lia].
    by pose proof (insert_raises_in_range s fuel index v _ _ Hi Hrun). }
  split; [split|].
  - intros [s' Hrun]. by eapply Hin.
  - intros Hi. exists s. by apply insert_bad_index.
  - intros s' Hrun. pose proof (Hin s' Hrun) as Hi.
    rewrite insert_bad_index in Hrun by done. by inversion Hrun.
Qed.

(** C8: [split] on a full node moves its last [Size / 2] elements, one
    fewer when [Size] is even, in order into a new node linked right
    after it; the new node becomes the tail when the split node was. *)
Theorem split_full_node (s : state) L1 a n L2 :
  chain_ok s (L1 ++ (a, n) :: L2) → count n = Size → (1 ≤ avail s)%nat →
  ∃ b s' n1 m L2',
    split (Some a) s = Ok (Some b) s'
    ∧ chain_ok s' (L1 ++ (a, n1) :: (b, m) :: L2')
    ∧ count m = (if Z.rem Size 2 =? 0 then Z.quot Size 2 - 1 else Z.quot Size 2)
    ∧ count n1 = Size - count m
    ∧ live n1 = take (Z.to_nat (count n1)) (live n)
    ∧ live m = drop (Z.to_nat (count n1)) (live n)
    ∧ Forall2 same_data L2' L2
    ∧ tail_ s' = (if decide (L2 = []) then Some b else tail_ s).
Proof.
  intros H Hfull Hav.
  destruct (avail s) as [|av] eqn:Eav; [lia|].
  pose proof (chain_ok_node _ _ _ _ _ H) as Hok. destruct (Hok) as [Hc Hl].
  destruct (split_spec s L1 a n L2 av H Eav ltac:(lia)) as (s' & Hrun & Hck & _).
  pose proof (numSplit_of_bounds (count n) ltac:(lia)) as Hk.
  exists (fresh (dom (heap s))), s', (split_left n (fresh (dom (heap s)))),
    (split_right n a), (set_first_prev (Some (fresh (dom (heap s)))) L2).
  split_and!; try done.
  - simpl. unfold numSplit_of. by rewrite Hfull.
  - simpl. lia.
  - unfold live, split_left. simpl. rewrite take_take. f_equal. lia.
  - unfold live, split_left, split_right. simpl.
    rewrite take_app_length' by (list_len; lia).
    rewrite take_drop_commute. do 2 f_equal. lia.
  - destruct L2 as [|[x xn] L2]; simpl; [constructor|].
    constructor; [done|apply same_data_refl].
  - rewrite (ck_tail _ _ Hck), (ck_tail _ _ H).
    rewrite !last_addr_app, !last_addr_cons. simpl.
    destruct L2 as [|[x xn] L2]; simpl; [done|].
    by rewrite !last_addr_cons.
Qed.

(** C9: [compact] keeps the traversal order and the number of elements
    and leaves full nodes followed by at most one partly filled node, so
    that [ceil(size / Size)] nodes remain. *)
Theorem compact_packs (s : state) fuel es :
  WF s → elements fuel s = Some es →
  ∃ s', compact (S fuel) s = Ok tt s'
    ∧ elements (Z.to_nat (nodecount_ s')) s' = Some es
    ∧ size_ s' = Z.of_nat (length es)
    ∧ counts (Z.to_nat (nodecount_ s')) s' = Some (packed_counts (Z.of_nat (length es)))
    ∧ nodecount_ s' = (Z.of_nat (length es) + Size - 1) / Size
    ∧ WF s'.
Proof.
  intros [L Hg] He.
  pose proof (good_elements s L fuel es Hg He) as ->.
  pose proof (elements_fuel _ _ _ _ (proj1 Hg) He) as Hf.
  destruct (compact_spec s L (S fuel) Hg ltac:(lia)) as (s' & L' & Hrun & Hg' & Hc & Hp).
  destruct (good_observe s' L' (Z.to_nat (nodecount_ s')) Hg' ltac:(lia))
    as (Hel & Hcs & Hsz).
  destruct (packed_counts_spec L' Hp) as [Hpc Hlen].
  pose proof (length_contents _ (ck_nodes _ _ (proj1 Hg'))) as Htot.
  exists s'. split_and!; [done| | | | |by exists L'].
  - by rewrite Hel, Hc.
  - by rewrite Hsz, Hc.
  - by rewrite Hcs, Hpc, <- Htot, Hc.
  - by rewrite (ck_nodecount _ _ (proj1 Hg')), Hlen, <- Htot, Hc.
Qed.

(** C10: on an empty container [pop_front] returns at once and changes
    nothing. *)
Theorem pop_front_on_empty (s : state) :
  head_ s = None → pop_front s = Ok tt s.
Proof. apply pop_front_empty. Qed.

(** ** Further properties of the public interface *)

(** *** Appending and prepending *)

(** [push_back] appends: on a well-formed container holding [es] it
    either succeeds and the container holds [es ++ [v]], or no node can be
    allocated and it raises [E_NO_MEMORY] with the container exactly as it
    was.  [v] is what the argument reads on entry: the argument may be an
    element of the container itself. *)
Theorem push_back_appends (s : state) fuel es value v :
  WF s → elements fuel s = Some es → read value s = Ok v s →
  (∃ s', push_back value s = Ok tt s'
     ∧ elements (Z.to_nat (nodecount_ s')) s' = Some (es ++ [v])
     ∧ size_ s' = size_ s + 1
     ∧ WF s')
  ∨ (avail s = O ∧ push_back value s = Throw (LariatException E_NO_MEMORY) s).
Proof.
  intros [L Hg] He Hread. rewrite (push_back_by_read value v s Hread).
  pose proof (good_elements s L fuel es Hg He) as ->.
  destruct (push_back_cases s L v Hg) as [(s' & L' & Hrun & Hg' & Hc)|Hoom];
    [left|by right].
  destruct (good_observe s' L' (Z.to_nat (nodecount_ s')) Hg' ltac:(lia))
    as (Hel & _ & Hsz).
  destruct (good_observe s L (Z.to_nat (nodecount_ s)) Hg ltac:(lia))
    as (_ & _ & Hsz0).
  exists s'. split_and!; [done| | |by exists L'].
  - by rewrite Hel, Hc.
  - rewrite Hsz, Hsz0, Hc, length_app. simpl. lia.
Qed.

(** [push_front] prepends when a node can be allocated; the argument is
    bound to an object outside the nodes. *)
Theorem push_front_prepends (s : state) fuel es v :
  WF s → elements fuel s = Some es → (1 ≤ avail s)%nat →
  ∃ s', push_front (Outside v) s = Ok tt s'
    ∧ elements (Z.to_nat (nodecount_ s')) s' = Some (v :: es)
    ∧ size_ s' = size_ s + 1
    ∧ WF s'.
Proof.
  intros [L Hg] He Hav.
  pose proof (good_elements s L fuel es Hg He) as ->.
  destruct (push_front_outcome s L v Hg) as [(s' & L' & Hrun & Hg' & Hc)|[Hoom _]];
    [|lia].
  destruct (good_observe s' L' (Z.to_nat (nodecount_ s')) Hg' ltac:(lia))
    as (Hel & _ & Hsz).
  destruct (good_observe s L (Z.to_nat (nodecount_ s)) Hg ltac:(lia))
    as (_ & _ & Hsz0).
  exists s'. split_and!; [done| | |by exists L'].
  - by rewrite Hel, Hc.
  - rewrite Hsz, Hsz0, Hc. simpl. lia.
Qed.

(** [push_front] onto a full head reads its argument after
    [shiftUp(head_, 0)] has rotated the head node.  When the argument is
    an element of the head node, as in [l.push_front(l.first())], what is
    prepended is the element that was before it (the node's last element
    for the first one).  The same element passed from outside is
    prepended as it should be. *)
Theorem push_front_reads_argument_after_shift (s : state) a n L2 j x y :
  good s ((a, n) :: L2) → count n = Size → 0 ≤ j < Size →
  live n !! Z.to_nat j = Some x →
  live n !! Z.to_nat (if j =? 0 then Size - 1 else j - 1) = Some y →
  (1 ≤ avail s)%nat →
  let es := contents ((a, n) :: L2) in
  read (Slot (Some a) j) s = Ok x s
  ∧ (∃ s', push_front (Outside x) s = Ok tt s'
       ∧ elements (Z.to_nat (nodecount_ s')) s' = Some (x :: es))
  ∧ ∃ s', push_front (Slot (Some a) j) s = Ok tt s'
      ∧ elements (Z.to_nat (nodecount_ s')) s' = Some (y :: es)
      ∧ (x ≠ y → elements (Z.to_nat (nodecount_ s')) s' ≠ Some (x :: es)).
Proof.
  intros Hg Hfull Hj Hx Hy Hav es. pose proof Hg as [H H1].
  pose proof (chain_ok_lookup _ [] _ _ _ H) as Ha.
  pose proof (chain_ok_node _ [] _ _ _ H) as Hok.
  assert (∀ v, ∃ s', push_front (Outside v) s = Ok tt s'
            ∧ elements (Z.to_nat (nodecount_ s')) s' = Some (v :: es)) as Hval.
  { intros v.
    destruct (push_front_outcome s _ v Hg) as [(s' & L' & Hrun & Hg' & Hc)|[Hoom _]];
      [|lia].
    exists s'. split; [done|].
    destruct (good_observe s' L' (Z.to_nat (nodecount_ s')) Hg' ltac:(lia))
      as (Hel & _).
    by rewrite Hel, Hc. }
  split_and!.
  - simpl. apply (run_get_value a n); [done|lia|].
    by rewrite (live_full n) in Hx.
  - apply Hval.
  - destruct (Hval y) as (s' & Hrun & Hel).
    exists s'. split_and!; [|done|].
    + rewrite (push_front_full_path s a n L2) by done.
      rewrite (insert_in_full_node_rotated s [] a n L2 0 j y) by (done || lia).
      by rewrite <- (push_front_full_path s a n L2) by done.
    + intros Hne. rewrite Hel. by intros [= Heq].
Qed.

(** [insert] at the two ends, with an argument bound to an object
    outside the nodes: index [0] prepends and index [size] appends. *)
Theorem insert_at_ends (s : state) fuel es v :
  WF s → elements fuel s = Some es → (1 ≤ avail s)%nat →
  (∃ s', insert fuel 0 (Outside v) s = Ok tt s'
     ∧ elements (Z.to_nat (nodecount_ s')) s' = Some (v :: es))
  ∧ (∃ s', insert fuel (size_ s) (Outside v) s = Ok tt s'
       ∧ elements (Z.to_nat (nodecount_ s')) s' = Some (es ++ [v])).
Proof.
  intros [L Hg] He Hav.
  pose proof (good_elements s L fuel es Hg He) as ->.
  pose proof (elements_fuel _ _ _ _ (proj1 Hg) He) as Hf.
  pose proof (length_contents _ (ck_nodes _ _ (proj1 Hg))) as Hlen.
  rewrite <- (ck_size _ _ (proj1 Hg)) in Hlen.
  split.
  - destruct (insert_outcome s L fuel 0 v Hg Hf ltac:(lia))
      as [(s' & L' & Hrun & Hg' & Hc)|[Hoom _]]; [|lia].
    exists s'. split; [done|].
    destruct (good_observe s' L' (Z.to_nat (nodecount_ s')) Hg' ltac:(lia)) as (-> & _).
    by rewrite Hc.
  - destruct (insert_outcome s L fuel (size_ s) v Hg Hf ltac:(lia))
      as [(s' & L' & Hrun & Hg' & Hc)|[Hoom _]]; [|lia].
    exists s'. split; [done|].
    destruct (good_observe s' L' (Z.to_nat (nodecount_ s')) Hg' ltac:(lia)) as (-> & _).
    rewrite Hc. rewrite take_ge, drop_ge by lia. done.
Qed.

(** *** Removing *)

Lemma segments_inv (s : state) L fuel sv1 c xs sv2 :
  chain_ok s L → segments fuel s = Some (sv1 ++ (c, xs) :: sv2) →
  ∃ L1 a n L2, L = L1 ++ (a, n) :: L2
    ∧ sv1 = seg_view <$> L1 ∧ c = count n ∧ xs = live n ∧ sv2 = seg_view <$> L2
    ∧ (length L ≤ fuel)%nat.
Proof.
  intros H Hseg.
  assert (length L ≤ fuel)%nat as Hf.
  { unfold segments in Hseg. rewrite (ck_head _ _ H) in Hseg.
    eapply walk_fuel; [apply H|apply H|exact Hseg]. }
  rewrite (segments_spec s L fuel H Hf) in Hseg. injection Hseg as Hseg.
  apply fmap_app_inv in Hseg as (L1 & R & -> & HR & ->).
  symmetry in HR. apply fmap_cons_inv in HR as ([a n] & L2 & [= -> ->] & -> & ->).
  by exists L1, a, n, L2.
Qed.

Lemma good_empty (s : state) L : good s L → size_ s = 0 → L = [].
Proof.
  intros Hg Hsz. destruct (decide (L = [])) as [|Hne]; [done|].
  pose proof (good_size_pos s L Hg Hne). lia.
Qed.

(** [pop_back] removes the last element of a non-empty container. *)
Theorem pop_back_removes_last (s : state) fuel es :
  WF s → elements fuel s = Some es → es ≠ [] →
  ∃ s', pop_back s = Ok tt s'
    ∧ elements (Z.to_nat (nodecount_ s')) s' = Some (removelast es)
    ∧ size_ s' = size_ s - 1
    ∧ WF s'.
Proof.
  intros [L Hg] He Hne.
  pose proof (good_elements s L fuel es Hg He) as ->.
  assert (L ≠ []) as HL by (by intros ->).
  destruct (pop_back_spec s L Hg HL) as (s' & L' & Hrun & Hg' & Hc).
  destruct (good_observe s' L' (Z.to_nat (nodecount_ s')) Hg' ltac:(lia))
    as (Hel & _ & Hsz).
  destruct (good_observe s L (Z.to_nat (nodecount_ s)) Hg ltac:(lia))
    as (_ & _ & Hsz0).
  exists s'. split_and!; [done| | |by exists L'].
  - by rewrite Hel, Hc.
  - rewrite Hsz, Hsz0, Hc.
    destruct (contents L) as [|x l] using rev_ind; [done|].
    rewrite removelast_last, length_app. simpl. lia.
Qed.

(** [pop_back] has no test for the empty container: it dereferences the
    null [tail_]. *)
Theorem pop_back_on_empty (s : state) :
  WF s → size_ s = 0 → pop_back s = Fault.
Proof.
  intros [L Hg] Hsz. pose proof (good_empty s L Hg Hsz) as ->.
  apply pop_back_empty, Hg.
Qed.

(** [pop_front] removes the first element when the head node has a free
    slot. *)
Theorem pop_front_removes_first (s : state) fuel c xs rest :
  WF s → segments fuel s = Some ((c, xs) :: rest) → c < Size →
  ∃ s', pop_front s = Ok tt s'
    ∧ elements (Z.to_nat (nodecount_ s')) s' = Some (drop 1 (xs ++ concat rest.*2))
    ∧ size_ s' = size_ s - 1
    ∧ WF s'.
Proof.
  intros [L Hg] Hseg Hroom.
  destruct (segments_inv s L fuel [] c xs rest (proj1 Hg) Hseg)
    as (L1 & a & n & L2 & -> & HL1 & -> & -> & -> & Hf).
  symmetry in HL1. apply fmap_nil_inv in HL1 as ->. simpl in Hg.
  destruct (pop_front_spec s a n L2 Hg Hroom) as (s' & L' & Hrun & Hg' & Hc).
  destruct (good_observe s' L' (Z.to_nat (nodecount_ s')) Hg' ltac:(lia))
    as (Hel & _ & Hsz).
  destruct (good_observe s _ (Z.to_nat (nodecount_ s)) Hg ltac:(lia))
    as (_ & _ & Hsz0).
  rewrite contents_cons in Hc, Hsz0. simpl snd in Hc, Hsz0.
  rewrite concat_seg_view.
  exists s'. split_and!; [done| | |by exists L'].
  - by rewrite Hel, Hc.
  - rewrite Hsz, Hsz0, Hc, length_drop.
    pose proof (length_live n (chain_ok_node s [] a n L2 (proj1 Hg))) as Hl.
    destruct Hg as [_ H1]. apply Forall_cons in H1 as [H1 _]. simpl in H1.
    rewrite length_app. lia.
Qed.

(** [pop_front] on a container whose head node is full: the shift of
    the head node reads the slot past its array. *)
Theorem pop_front_full_head (s : state) fuel xs rest :
  WF s → segments fuel s = Some ((Size, xs) :: rest) → pop_front s = Fault.
Proof.
  intros [L Hg] Hseg.
  destruct (segments_inv s L fuel [] Size xs rest (proj1 Hg) Hseg)
    as (L1 & a & n & L2 & -> & HL1 & Hc & _).
  symmetry in HL1. apply fmap_nil_inv in HL1 as ->. simpl in Hg.
  by apply (pop_front_full s a n L2 (proj1 Hg)).
Qed.

(** With a free slot in the node, the general path of [erase] cannot
    fault. *)
Lemma erase_room_path (s : state) L1 a n L2 fuel index :
  good s (L1 ++ (a, n) :: L2) → count n < Size →
  total L1 ≤ index < total L1 + count n → 0 < index < size_ s →
  (length (L1 ++ (a, n) :: L2) ≤ fuel)%nat →
  ∃ s' L', erase fuel index s = Ok tt s' ∧ good s' L'
    ∧ contents L' = take (Z.to_nat index) (contents (L1 ++ (a, n) :: L2))
                    ++ drop (S (Z.to_nat index)) (contents (L1 ++ (a, n) :: L2)).
Proof.
  intros Hg Hroom Hr Hi Hf.
  destruct (erase_middle_spec s _ fuel index Hg Hf Hi) as [Hfault|Hok]; [|done].
  exfalso. pose proof Hg as [H H1].
  pose proof (find_element_at s L1 a n L2 fuel index H Hr Hf) as Hrun.
  revert Hfault. unfold erase. mstep.
  replace (index =? 0) with false by lia.
  replace (index =? size_ s) with false by lia.
  erewrite bind_Ok by exact Hrun. mred.
  destruct (remove_shift_spec s L1 a n L2 (index - total L1) H ltac:(lia) ltac:(lia))
    as (s1 & n' & Hrun1 & Hck1 & Hcn & Hlive & _).
  apply Forall_app in H1 as [H11 H12]. apply Forall_cons in H12 as [_ H12].
  destruct (cleanup_spec s1 L1 a n' L2 Hck1 H11 H12) as (s' & L' & Hrun' & _).
  revert Hrun1 Hrun'. unfold mbind, M_bind.
  destruct (shiftDown (Some a) (index - total L1) s) as [[] s0| | |]; try done.
  destruct (get_count (Some a) s0) as [c s0'| | |]; try done.
  destruct (set_count (Some a) (c - 1) s0') as [[] s0''| | |]; try done.
  unfold modify. intros [= <-] Hrun' Hfault.
  unfold set_size in Hrun'. congruence.
Qed.

(** [erase] strictly inside the container, where the node the index
    lands in has a free slot: the element at [index] is removed and the
    others keep their order. *)
Theorem erase_removes (s : state) fuel es sv1 c xs sv2 index :
  WF s → elements fuel s = Some es →
  segments fuel s = Some (sv1 ++ (c, xs) :: sv2) →
  sumZ sv1.*1 ≤ index < sumZ sv1.*1 + c → c < Size →
  0 < index < size_ s →
  ∃ s', erase fuel index s = Ok tt s'
    ∧ elements (Z.to_nat (nodecount_ s')) s'
      = Some (take (Z.to_nat index) es ++ drop (S (Z.to_nat index)) es)
    ∧ size_ s' = size_ s - 1
    ∧ WF s'.
Proof.
  intros [L Hg] He Hseg Hin Hroom Hi.
  pose proof (good_elements s L fuel es Hg He) as ->.
  destruct (segments_inv s L fuel sv1 c xs sv2 (proj1 Hg) Hseg)
    as (L1 & a & n & L2 & -> & -> & -> & -> & -> & Hf).
  rewrite sumZ_seg_view in Hin.
  destruct (erase_room_path s L1 a n L2 fuel index Hg Hroom Hin Hi Hf)
    as (s' & L' & Hrun & Hg' & Hc).
  destruct (good_observe s' L' (Z.to_nat (nodecount_ s')) Hg' ltac:(lia))
    as (Hel & _ & Hsz).
  destruct (good_observe s _ (Z.to_nat (nodecount_ s)) Hg ltac:(lia))
    as (_ & _ & Hsz0).
  exists s'. split_and!; [done| | |by exists L'].
  - by rewrite Hel, Hc.
  - rewrite Hsz, Hc, length_app, length_take, length_drop. lia.
Qed.

(** *** Element access *)

Lemma contents_lookup L1 (a : positive) (n : LNode) L2 index :
  Forall (λ p, node_ok p.2) L1 → node_ok n →
  total L1 ≤ index < total L1 + count n →
  contents (L1 ++ (a, n) :: L2) !! Z.to_nat index
  = values n !! Z.to_nat (index - total L1).
Proof.
  intros H1 Hn Hi.
  pose proof (length_contents _ H1) as Hlen1. pose proof (length_live _ Hn) as Hlenn.
  rewrite contents_app, contents_cons. simpl snd.
  rewrite lookup_app_r by lia. rewrite lookup_app_l by lia.
  replace (Z.to_nat index - length (contents L1))%nat
    with (Z.to_nat (index - total L1)) by lia.
  unfold live. apply lookup_take_lt. lia.
Qed.

(** an index outside [0, size) makes [find_element] walk off the chain,
    or stop at the head node with a negative local index *)
Lemma find_element_outside (s : state) L fuel index :
  good s L → (length L < fuel)%nat → index < 0 ∨ size_ s ≤ index →
  find_element fuel index s = Fault
  ∨ ∃ a, find_element fuel index s = Ok (mkInfo (Some a) index) s ∧ index < 0.
Proof.
  intros [H H1] Hf [Hneg|Hbig].
  - destruct L as [|[a n] L2].
    + left. unfold find_element. mstep.
      destruct (chain_ok_nil_head _ H) as [-> _].
      destruct fuel as [|fuel]; [simpl in Hf; lia|]. done.
    + right. exists a. split; [|done].
      pose proof (chain_ok_lookup _ [] _ _ _ H) as Ha.
      apply Forall_cons in H1 as [H1n _]. simpl in H1n.
      unfold find_element. mstep. rewrite (ck_head _ _ H). cbn [first_addr fst].
      destruct fuel as [|fuel]; [simpl in Hf; lia|]. cbn [find_element_loop].
      mstep. replace (0 + count n <=? index) with false by lia.
      by rewrite Z.sub_0_r.
  - left. unfold find_element. mstep. rewrite (ck_head _ _ H).
    eapply find_element_loop_off; [apply H|apply H|apply H| |done].
    rewrite <- (ck_size _ _ H). lia.
Qed.

Lemma subscript_get_spec (s : state) L fuel index x :
  chain_ok s L → (length L ≤ fuel)%nat →
  0 ≤ index → contents L !! Z.to_nat index = Some x →
  subscript_get fuel index s = Ok x s.
Proof.
  intros H Hf Hi Hx.
  pose proof (length_contents _ (ck_nodes _ _ H)) as Hlen.
  apply lookup_lt_Some in Hx as Hlt.
  destruct (find_element_spec s L fuel index H) as (L1 & a & n & L2 & -> & Hr & Hrun);
    [rewrite (ck_size _ _ H); lia|done|].
  pose proof (chain_ok_lookup _ _ _ _ _ H) as Ha.
  pose proof (chain_ok_node _ _ _ _ _ H) as Hok. destruct (Hok) as [Hc Hl].
  pose proof (ck_nodes _ _ H) as Hns. apply Forall_app in Hns as [Hns1 _].
  rewrite (contents_lookup L1 a n L2 index Hns1 Hok Hr) in Hx.
  unfold subscript_get. erewrite bind_Ok by exact Hrun. mred.
  apply (run_get_value a n); [done|lia|done].
Qed.

(** Reading [x[index]] gives the element at position [index] of the
    traversal and changes nothing. *)
Theorem subscript_reads (s : state) fuel es index x :
  WF s → elements fuel s = Some es →
  0 ≤ index → es !! Z.to_nat index = Some x →
  subscript_get fuel index s = Ok x s.
Proof.
  intros [L Hg] He Hi Hx.
  pose proof (good_elements s L fuel es Hg He) as ->.
  pose proof (elements_fuel _ _ _ _ (proj1 Hg) He) as Hf.
  apply (subscript_get_spec s L); [apply Hg|done|done|done].
Qed.

(** [operator[]] has no range check: an index outside [0, size) is
    undefined behaviour. *)
Theorem subscript_out_of_range (s : state) fuel index :
  WF s → (Z.to_nat (nodecount_ s) < fuel)%nat →
  index < 0 ∨ size_ s ≤ index →
  subscript_get fuel index s = Fault
  ∧ ∀ v, subscript_set fuel index v s = Fault.
Proof.
  intros [L Hg] Hf Hi.
  rewrite (ck_nodecount _ _ (proj1 Hg)) in Hf.
  destruct (find_element_outside s L fuel index Hg ltac:(lia) Hi)
    as [Hfault|(a & Hrun & Hneg)].
  - split; [|intros v]; by apply bind_Fault.
  - split; [|intros v].
    + unfold subscript_get. erewrite bind_Ok by exact Hrun. mred.
      by apply run_get_value_neg.
    + unfold subscript_set. erewrite bind_Ok by exact Hrun. mred.
      by apply run_set_value_neg.
Qed.

(** Assigning through [x[index]] replaces the element at position
    [index] and nothing else; reading it back gives the value written. *)
Theorem subscript_writes (s : state) fuel es index v :
  WF s → elements fuel s = Some es →
  0 ≤ index < Z.of_nat (length es) →
  ∃ s', subscript_set fuel index v s = Ok tt s'
    ∧ elements fuel s' = Some (<[Z.to_nat index := v]> es)
    ∧ counts fuel s' = counts fuel s
    ∧ size_ s' = size_ s
    ∧ subscript_get fuel index s' = Ok v s'
    ∧ WF s'.
Proof.
  intros [L Hg] He Hi. pose proof Hg as [H H1].
  pose proof (good_elements s L fuel es Hg He) as ->.
  pose proof (elements_fuel _ _ _ _ H He) as Hf.
  pose proof (length_contents _ (ck_nodes _ _ H)) as Hlen.
  destruct (find_element_spec s L fuel index H) as (L1 & a & n & L2 & -> & Hr & Hrun);
    [rewrite (ck_size _ _ H); lia|done|].
  pose proof (chain_ok_lookup _ _ _ _ _ H) as Ha.
  pose proof (chain_ok_node _ _ _ _ _ H) as Hok. destruct (Hok) as [Hc Hl].
  pose proof (ck_nodes _ _ H) as Hns. apply Forall_app in Hns as [Hns1 _].
  pose proof (length_contents _ Hns1) as Hlen1.
  set (l := index - total L1) in *.
  set (n' := upd_values n (<[Z.to_nat l := v]> (values n))).
  set (s' := set_heap (<[a := n']> (heap s)) s).
  assert (subscript_set fuel index v s = Ok tt s') as Hset.
  { unfold subscript_set. erewrite bind_Ok by exact Hrun. mred.
    apply (run_set_value a n); [done|lia|done]. }
  assert (node_ok n') as Hok'.
  { split; [done|]. unfold n'. simpl. by rewrite length_insert. }
  assert (chain_ok s' (L1 ++ (a, n') :: L2)) as H'.
  { eapply chain_ok_upd; [exact H| | |exact Hok'| | | | | |]; try done.
    unfold n'. simpl. lia. }
  assert (good s' (L1 ++ (a, n') :: L2)) as Hg'.
  { split; [done|]. apply Forall_app in H1 as [H11 H12].
    apply Forall_cons in H12 as [H1n H12]. apply Forall_app. split; [done|].
    by constructor. }
  assert (live n' = <[Z.to_nat l := v]> (live n)) as Hlive.
  { unfold live, n'. simpl. rewrite take_insert_lt by lia. done. }
  assert (contents (L1 ++ (a, n') :: L2)
          = <[Z.to_nat index := v]> (contents (L1 ++ (a, n) :: L2))) as Hcont.
  { rewrite !contents_app, !contents_cons. simpl snd. rewrite Hlive.
    rewrite insert_app_r_alt by lia.
    replace (Z.to_nat index - length (contents L1))%nat with (Z.to_nat l) by lia.
    f_equal. rewrite insert_app_l; [done|].
    pose proof (length_live _ Hok). lia. }
  assert (length (L1 ++ (a, n') :: L2) ≤ fuel)%nat as Hf'.
  { revert Hf. rewrite !length_app. simpl. lia. }
  exists s'. split_and!; [done| | |done| |by exists (L1 ++ (a, n') :: L2)].
  - by rewrite (elements_spec s' _ fuel H' Hf'), Hcont.
  - rewrite (counts_spec s' _ fuel H' Hf'), (counts_spec s _ fuel H Hf).
    by rewrite !fmap_app, !fmap_cons.
  - apply (subscript_get_spec s' (L1 ++ (a, n') :: L2)); [done|done|lia|].
    rewrite Hcont. apply list_lookup_insert_eq. lia.
Qed.

Lemma first_last_spec (s : state) L :
  good s L →
  (∀ x es', contents L = x :: es' → Lariat_first s = Ok x s)
  ∧ (∀ x es', contents L = es' ++ [x] → Lariat_last s = Ok x s)
  ∧ (contents L = [] → Lariat_first s = Fault ∧ Lariat_last s = Fault).
Proof.
  intros Hg. pose proof Hg as [H H1].
  split_and!.
  - intros x es' Hes. destruct L as [|[a n] L2]; [done|].
    pose proof (chain_ok_lookup _ [] _ _ _ H) as Ha.
    pose proof (chain_ok_node _ [] _ _ _ H) as [Hc Hl].
    apply Forall_cons in H1 as [H1n _]. simpl in H1n.
    unfold Lariat_first. mstep. rewrite (ck_head _ _ H). cbn [first_addr fst].
    apply (run_get_value a n); [done|lia|].
    rewrite contents_cons in Hes. simpl snd in Hes. unfold live in Hes.
    apply (f_equal (λ l, l !! 0%nat)) in Hes. simpl in Hes.
    rewrite lookup_app_l in Hes by (rewrite length_take; lia).
    by rewrite lookup_take_lt in Hes by lia.
  - intros x es' Hes. destruct L as [|[t tn] L0 _] using rev_ind.
    { by destruct es'. }
    destruct (chain_ok_snoc_tail _ _ _ _ H) as [Htl _].
    pose proof (chain_ok_lookup _ _ _ _ _ H) as Ht.
    pose proof (chain_ok_node _ _ _ _ _ H) as Hok. destruct (Hok) as [Hc Hl].
    apply Forall_app in H1 as [_ H1t]. apply Forall_cons in H1t as [H1t _]. simpl in H1t.
    unfold Lariat_last. mstep. rewrite Htl. mstep.
    apply (run_get_value t tn); [done|lia|].
    rewrite contents_app in Hes. unfold contents at 2 in Hes. simpl in Hes.
    rewrite app_nil_r in Hes.
    pose proof (length_live _ Hok) as Hll.
    apply (f_equal (λ l, last l)) in Hes. rewrite last_snoc in Hes.
    rewrite last_app in Hes.
    destruct (last (live tn)) as [y|] eqn:Ey.
    + injection Hes as ->. rewrite last_lookup in Ey.
      unfold live in Ey. rewrite lookup_take_lt in Ey by (rewrite length_take; lia).
      rewrite <- Ey. f_equal. rewrite length_take. lia.
    + apply last_None in Ey. rewrite Ey in Hll. simpl in Hll. lia.
  - intros Hnil.
    assert (L = []) as ->.
    { destruct (decide (L = [])) as [|Hne]; [done|].
      by destruct (good_contents_nonempty L (ck_nodes _ _ H) H1 Hne). }
    destruct (chain_ok_nil_head _ H) as [Hhd Htl].
    unfold Lariat_first, Lariat_last. rewrite !bind_get, Hhd, Htl. done.
Qed.

(** [first()] and [last()] read the two ends of a non-empty container;
    on the empty container they dereference a null pointer. *)
Theorem first_and_last (s : state) fuel es :
  WF s → elements fuel s = Some es →
  (∀ x es', es = x :: es' → Lariat_first s = Ok x s)
  ∧ (∀ x es', es = es' ++ [x] → Lariat_last s = Ok x s)
  ∧ (es = [] → Lariat_first s = Fault ∧ Lariat_last s = Fault).
Proof.
  intros [L Hg] He.
  pose proof (good_elements s L fuel es Hg He) as ->.
  by apply first_last_spec.
Qed.

(** What [insert] put at [index] is what [x[index]] reads; at the two
    ends it is what [first()] and [last()] read.  The argument is bound
    to an object outside the nodes. *)
Theorem inserted_value_reads_back (s : state) fuel es index v :
  WF s → elements fuel s = Some es →
  0 ≤ index ≤ Z.of_nat (length es) → (1 ≤ avail s)%nat →
  ∃ s', insert fuel index (Outside v) s = Ok tt s'
    ∧ subscript_get (Z.to_nat (nodecount_ s')) index s' = Ok v s'
    ∧ (index = 0 → Lariat_first s' = Ok v s')
    ∧ (index = Z.of_nat (length es) → Lariat_last s' = Ok v s').
Proof.
  intros [L Hg] He Hi Hav.
  pose proof (good_elements s L fuel es Hg He) as ->.
  pose proof (elements_fuel _ _ _ _ (proj1 Hg) He) as Hf.
  pose proof (length_contents _ (ck_nodes _ _ (proj1 Hg))) as Hlen.
  rewrite <- (ck_size _ _ (proj1 Hg)) in Hlen.
  destruct (insert_outcome s L fuel index v Hg Hf ltac:(lia))
    as [(s' & L' & Hrun & Hg' & Hc)|[Hoom _]]; [|lia].
  destruct (first_last_spec s' L' Hg') as (Hfirst & Hlast & _).
  exists s'. split_and!; [done| | |].
  - apply (subscript_get_spec s' L'); [apply Hg'| |lia|].
    + rewrite (ck_nodecount _ _ (proj1 Hg')). lia.
    + rewrite Hc. rewrite lookup_app_r by (rewrite length_take; lia).
      rewrite length_take. replace (_ - _)%nat with 0%nat by lia. done.
  - intros ->. apply (Hfirst v (contents L)). by rewrite Hc.
  - intros ->. apply (Hlast v (contents L)). rewrite Hc.
    rewrite take_ge, drop_ge by lia. done.
Qed.

(** *** Searching *)

Context `{!EqDecision T}.

Lemma find_in_node_spec (v : T) k : ∀ a (n : LNode) i index (s : state),
  heap s !! a = Some n → 0 ≤ i → i + Z.of_nat k ≤ Size →
  length (values n) = Z.to_nat Size →
  find_in_node k (Some a) i index v s
  = Ok (match list_find (λ x, x = v) (take k (drop (Z.to_nat i) (values n))) with
        | Some (j, _) => Some (index + Z.of_nat j)
        | None => None
        end) s.
Proof.
  induction k as [|k IH]; intros a n i index s Ha Hi Hk Hl; [done|].
  destruct (lookup_lt_is_Some_2 (values n) (Z.to_nat i)) as [x Hx]; [lia|].
  cbn [find_in_node]. mget x; [|exact Hx].
  rewrite (drop_S _ x _ Hx). cbn [take list_find].
  destruct (decide (x = v)) as [->|Hne].
  - rewrite run_mret. do 2 f_equal. lia.
  - rewrite (IH a n (i + 1) (index + 1) s Ha ltac:(lia) ltac:(lia) Hl).
    replace (Z.to_nat (i + 1)) with (S (Z.to_nat i)) by lia.
    destruct (list_find _ _) as [[j y]|]; simpl; [|done].
    do 2 f_equal. lia.
Qed.

Lemma find_loop_spec (v : T) L : ∀ pre fuel index (s : state),
  agree (heap s) L → lk pre L None → Forall (λ p, node_ok p.2) L →
  (length L < fuel)%nat →
  find_loop fuel (first_addr L None) index v s
  = Ok (match list_find (λ x, x = v) (contents L) with
        | Some (j, _) => index + Z.of_nat j
        | None => size_ s
        end) s.
Proof.
  induction L as [|[a n] L IH]; intros pre fuel index s Hag Hlk Hok Hf.
  - destruct fuel as [|fuel]; [simpl in Hf; lia|]. done.
  - destruct fuel as [|fuel]; [simpl in Hf; lia|].
    apply Forall_cons in Hag as [Ha Hag]. destruct Hlk as (_ & Hn & Hlk).
    apply Forall_cons in Hok as [[Hc Hl] Hok]. simpl in *.
    mstep.
    erewrite bind_Ok by (apply (find_in_node_spec v _ a n 0 index s); [done|lia|lia|done]).
    rewrite drop_0, contents_cons. simpl snd. fold (live n).
    destruct (list_find (λ x, x = v) (live n)) as [[j y]|] eqn:E.
    + rewrite (list_find_app_l _ _ _ _ _ E). by rewrite run_mret.
    + rewrite (list_find_app_r _ _ _ E). mstep. rewrite Hn.
      rewrite (IH (Some a) fuel (index + count n) s Hag Hlk Hok ltac:(lia)).
      destruct (list_find _ (contents L)) as [[j y]|]; simpl; [|done].
      f_equal. unfold live. rewrite length_take. lia.
Qed.

(** [find] returns the position of the first element equal to [v], or
    [size] when there is none; a position it returns can be read back
    with [operator[]]. *)
Theorem find_first_occurrence (s : state) fuel es v :
  WF s → elements fuel s = Some es →
  ∃ r, Lariat_find (S fuel) v s = Ok r s
    ∧ (((v ∉ es) ∧ r = size_ s)
       ∨ (0 ≤ r < size_ s
          ∧ es !! Z.to_nat r = Some v
          ∧ (∀ j, (j < Z.to_nat r)%nat → es !! j ≠ Some v)
          ∧ subscript_get fuel r s = Ok v s)).
Proof.
  intros [L Hg] He. pose proof Hg as [H H1].
  pose proof (good_elements s L fuel es Hg He) as ->.
  pose proof (elements_fuel _ _ _ _ H He) as Hf.
  pose proof (length_contents _ (ck_nodes _ _ H)) as Hlen.
  rewrite <- (ck_size _ _ H) in Hlen.
  eexists. split.
  { unfold Lariat_find. rewrite bind_get, (ck_head _ _ H).
    apply (find_loop_spec v L None); [apply H|apply H|apply H|lia]. }
  destruct (list_find (λ x, x = v) (contents L)) as [[j y]|] eqn:E.
  - right. apply list_find_Some in E as (Hj & -> & Hleast).
    pose proof (lookup_lt_Some _ _ _ Hj) as Hlt.
    rewrite Z.add_0_l, Nat2Z.id. split_and!; [lia|lia|done| |].
    + intros k Hk Hkv. by apply (Hleast k v).
    + apply (subscript_get_spec s L); [done|done|lia|].
      by rewrite Nat2Z.id.
  - left. split; [|done]. apply list_find_None in E.
    rewrite Forall_forall in E. intros Hin. by apply (E v).
Qed.

(** *** Invariants, termination and exceptions *)

(** Between calls the bookkeeping agrees with the chain: [nodecount_] is
    the number of nodes the traversal meets, [asize_] is the capacity,
    and [head_] and [tail_] are null exactly when the container is
    empty. *)
Theorem bookkeeping_invariant (s : state) fuel :
  reachable s → (Z.to_nat (nodecount_ s) ≤ fuel)%nat →
  ∃ cs, counts fuel s = Some cs
    ∧ nodecount_ s = Z.of_nat (length cs)
    ∧ asize_ s = Size
    ∧ 0 ≤ size_ s
    ∧ (head_ s = None ↔ size_ s = 0)
    ∧ (tail_ s = None ↔ size_ s = 0).
Proof.
  intros Hr Hf. destruct (reachable_good s Hr) as [L Hg]. pose proof Hg as [H H1].
  destruct (good_observe s L fuel Hg Hf) as (_ & Hcs & Hsz).
  exists ((λ p : positive * LNode, count p.2) <$> L).
  split_and!; [done| | | | |].
  - by rewrite length_fmap, (ck_nodecount _ _ H).
  - apply H.
  - lia.
  - rewrite (ck_head _ _ H). destruct L as [|[a n] L2].
    + by rewrite (good_size_nil s Hg).
    + pose proof (good_size_pos s _ Hg ltac:(done)). simpl. split; [done|lia].
  - rewrite (ck_tail _ _ H). destruct L as [|[t tn] L0 _] using rev_ind.
    + by rewrite (good_size_nil s Hg).
    + pose proof (good_size_pos s _ Hg ltac:(by destruct L0)).
      rewrite last_addr_snoc. split; [done|lia].
Qed.

(** Every loop of the public mutators ends on a well-formed container:
    with more fuel than there are nodes no call runs out of fuel. *)
Theorem calls_terminate (s : state) fuel o :
  WF s → (Z.to_nat (nodecount_ s) < fuel)%nat → exec fuel o s ≠ OutOfFuel.
Proof.
  intros [L Hg] Hf. rewrite (ck_nodecount _ _ (proj1 Hg)) in Hf.
  apply (exec_enough_fuel s L); [done|lia].
Qed.

Lemma raises_throw {A} (P : exn → Prop) e : P e → raises P (throw e : M A).
Proof. intros HP s e' s'. unfold throw. by intros [= <- <-]. Qed.

Lemma raises_clear_loop P fuel : ∀ w, raises P (clear_loop fuel w).
Proof.
  induction fuel as [|fuel IH]; intros w; simpl.
  - apply raises_out_of_fuel.
  - repeat raises_step. apply IH.
Qed.

Lemma raises_clear P fuel : raises P (clear fuel).
Proof.
  unfold clear. raises_step; [raises_step|].
  raises_step; [apply raises_clear_loop|]. repeat raises_step.
Qed.

Lemma raises_compact_skip P fuel : ∀ l r, raises P (compact_skip fuel l r).
Proof.
  induction fuel as [|fuel IH]; intros l r; simpl.
  - apply raises_out_of_fuel.
  - repeat raises_step. apply IH.
Qed.

Lemma raises_compact_pour P fuel : ∀ l r, raises P (compact_pour fuel l r).
Proof.
  induction fuel as [|fuel IH]; intros l r; simpl.
  - apply raises_out_of_fuel.
  - repeat raises_step. apply IH.
Qed.

Lemma raises_compact_trim P fuel : raises P (compact_trim fuel).
Proof.
  induction fuel as [|fuel IH]; simpl.
  - apply raises_out_of_fuel.
  - repeat lazymatch goal with
    | |- raises _ (deleteNode _) => apply raises_deleteNode
    | |- raises _ (compact_trim _) => apply IH
    | |- _ => raises_step
    end.
Qed.

Lemma raises_compact P fuel : raises P (compact fuel).
Proof.
  unfold compact. raises_step; [raises_step|]. intros.
  apply raises_if; [apply raises_mret|].
  raises_step; [raises_step|].
  raises_step; [apply raises_compact_skip|].
  lazymatch goal with |- raises _ (let (_, _) := ?x in _) => destruct x end.
  raises_step; [apply raises_compact_pour|]. apply raises_compact_trim.
Qed.

(** The exceptions of the public mutators: [erase], the pops, [clear]
    and [compact] raise none; the pushes raise only [E_NO_MEMORY];
    [insert] raises [E_BAD_INDEX] only for an index outside [0, size],
    before it changes anything.  [std::bad_alloc] never escapes and
    [E_DATA_ERROR] is never raised. *)
Theorem exceptions_raised (s : state) fuel o e s' :
  exec fuel o s = Throw e s' →
  match o with
  | Insert index _ =>
      e = LariatException E_NO_MEMORY
      ∨ (e = LariatException E_BAD_INDEX ∧ (index < 0 ∨ size_ s < index) ∧ s' = s)
  | PushBack _ | PushFront _ => e = LariatException E_NO_MEMORY
  | Erase _ | PopBack | PopFront | Clear | Compact => False
  end.
Proof.
  intros Hrun. destruct o as [index v|v|v|index| | | |]; simpl in Hrun.
  - destruct (decide (0 ≤ index ≤ size_ s)) as [Hi|Hi].
    + left. by eapply insert_raises_in_range.
    + right. rewrite insert_bad_index in Hrun by lia.
      injection Hrun as <- <-. split_and!; [done|lia|done].
  - by apply (raises_push_back (λ e, e = LariatException E_NO_MEMORY) v eq_refl s e s').
  - by apply (raises_push_front (λ e, e = LariatException E_NO_MEMORY) v eq_refl s e s').
  - by apply (raises_erase (λ _, False) fuel index s e s').
  - by apply (raises_pop_back (λ _, False) s e s').
  - by apply (raises_pop_front (λ _, False) s e s').
  - by apply (raises_clear (λ _, False) fuel s e s').
  - by apply (raises_compact (λ _, False) fuel s e s').
Qed.

(** *** Composition *)

(** [pop_back] undoes [push_back], whatever the argument of [push_back]
    refers to. *)
Theorem push_back_pop_back (s : state) fuel es value v :
  WF s → elements fuel s = Some es → read value s = Ok v s → (1 ≤ avail s)%nat →
  ∃ s1 s2, push_back value s = Ok tt s1 ∧ pop_back s1 = Ok tt s2
    ∧ elements (Z.to_nat (nodecount_ s2)) s2 = Some es
    ∧ size_ s2 = size_ s
    ∧ WF s2.
Proof.
  intros [L Hg] He Hread Hav. rewrite (push_back_by_read value v s Hread).
  pose proof (good_elements s L fuel es Hg He) as ->.
  destruct (push_back_cases s L v Hg) as [(s1 & L1 & Hrun1 & Hg1 & Hc1)|[Hoom _]];
    [|lia].
  assert (L1 ≠ []) as HL1.
  { intros ->. by destruct (contents L). }
  destruct (pop_back_spec s1 L1 Hg1 HL1) as (s2 & L2 & Hrun2 & Hg2 & Hc2).
  rewrite Hc1, removelast_last in Hc2.
  destruct (good_observe s2 L2 (Z.to_nat (nodecount_ s2)) Hg2 ltac:(lia))
    as (Hel & _ & Hsz).
  destruct (good_observe s L (Z.to_nat (nodecount_ s)) Hg ltac:(lia))
    as (_ & _ & Hsz0).
  exists s1, s2. split_and!; [done|done| | |by exists L2].
  - by rewrite Hel, Hc2.
  - by rewrite Hsz, Hsz0, Hc2.
Qed.

Lemma seg_view_determined (L : list (positive * LNode)) : ∀ L',
  Forall (λ p, node_ok p.2) L → Forall (λ p, node_ok p.2) L' →
  (λ p : positive * LNode, count p.2) <$> L = (λ p, count p.2) <$> L' →
  contents L = contents L' → seg_view <$> L = seg_view <$> L'.
Proof.
  induction L as [|[a n] L IH]; intros [|[a' n'] L'] Hok Hok' Hcs Hc; try done.
  apply Forall_cons in Hok as [Hn Hok]. apply Forall_cons in Hok' as [Hn' Hok'].
  rewrite !fmap_cons in Hcs. injection Hcs as Hcn Hcs. simpl in Hcn.
  rewrite !contents_cons in Hc. simpl snd in Hc.
  pose proof (length_live _ Hn) as Hl. pose proof (length_live _ Hn') as Hl'.
  apply app_inj_1 in Hc as [Hlive Hrest]; [|simpl in *; lia].
  rewrite !fmap_cons. unfold seg_view at 1 3. simpl. rewrite Hcn, Hlive.
  f_equal. by apply IH.
Qed.

(** [compact] is idempotent on what the traversal shows: a second
    [compact] leaves every node with the count and the elements it had. *)
Theorem compact_twice (s : state) fuel es :
  WF s → elements fuel s = Some es →
  ∃ s1 s2, compact (S fuel) s = Ok tt s1
    ∧ compact (S (Z.to_nat (nodecount_ s1))) s1 = Ok tt s2
    ∧ nodecount_ s2 = nodecount_ s1
    ∧ segments (Z.to_nat (nodecount_ s2)) s2 = segments (Z.to_nat (nodecount_ s1)) s1
    ∧ elements (Z.to_nat (nodecount_ s2)) s2 = Some es.
Proof.
  intros [L Hg] He.
  pose proof (good_elements s L fuel es Hg He) as ->.
  pose proof (elements_fuel _ _ _ _ (proj1 Hg) He) as Hf.
  destruct (compact_spec s L (S fuel) Hg ltac:(lia)) as (s1 & L1 & Hrun1 & Hg1 & Hc1 & Hp1).
  pose proof (ck_nodecount _ _ (proj1 Hg1)) as Hn1.
  destruct (compact_spec s1 L1 (S (Z.to_nat (nodecount_ s1))) Hg1 ltac:(lia))
    as (s2 & L2 & Hrun2 & Hg2 & Hc2 & Hp2).
  pose proof (ck_nodecount _ _ (proj1 Hg2)) as Hn2.
  destruct (packed_counts_spec L1 Hp1) as [Hpc1 Hlen1].
  destruct (packed_counts_spec L2 Hp2) as [Hpc2 Hlen2].
  pose proof (length_contents _ (ck_nodes _ _ (proj1 Hg1))) as Ht1.
  pose proof (length_contents _ (ck_nodes _ _ (proj1 Hg2))) as Ht2.
  assert (total L2 = total L1) as Htot by (rewrite <- Ht1, <- Ht2, Hc2; done).
  assert (nodecount_ s2 = nodecount_ s1) as Hnn.
  { by rewrite Hn2, Hn1, Hlen1, Hlen2, Htot. }
  exists s1, s2. split_and!; [done|done|done| |].
  - rewrite (segments_spec s2 L2) by (apply Hg2 || lia).
    rewrite (segments_spec s1 L1) by (apply Hg1 || lia).
    f_equal. apply seg_view_determined; [apply Hg2|apply Hg1| |done].
    by rewrite Hpc1, Hpc2, Htot.
  - destruct (good_observe s2 L2 (Z.to_nat (nodecount_ s2)) Hg2 ltac:(lia)) as (-> & _).
    by rewrite Hc2, Hc1.
Qed.

(** *** Copying from another container *)

(** What [push_back] leaves alone: the nodes that are not on the chain
    of the container it is called on. *)
Lemma push_first_value_frame (s : state) v av s' :
  avail s = S av → push_first_value (Outside v) s = Ok tt s' →
  ∀ x nx, heap s !! x = Some nx → heap s' !! x = Some nx.
Proof.
  intros Hav Hrun x nx Hx. pose proof (fresh_not_in _ _ _ Hx) as Hxb.
  revert Hrun. destruct s as [h av' hd tl sz nc asz]. simpl in *. subst.
  unfold push_first_value.
  erewrite bind_Ok; [|by apply run_new_LNode]. mred.
  repeat mstep. mset. repeat mstep.
  intros [= <-]. mred. by rewrite !lookup_insert_ne by done.
Qed.

Lemma push_back_in_node_frame (s : state) L1 a n L2 v s' :
  chain_ok s (L1 ++ (a, n) :: L2) → count n < Size →
  push_back_in_node (Some a) (Outside v) s = Ok tt s' →
  ∀ x nx, x ≠ a → heap s !! x = Some nx → heap s' !! x = Some nx.
Proof.
  intros H Hlt Hrun x nx Hxa Hx. revert Hrun.
  pose proof (chain_ok_lookup _ _ _ _ _ H) as Ha.
  pose proof (chain_ok_node _ _ _ _ _ H) as Hok. destruct (Hok) as [Hc Hl].
  pose proof (ck_asize _ _ H) as Has.
  unfold push_back_in_node. mstep. mstep. rewrite Has.
  replace (Size <=? count n) with false by lia.
  mstep. mstep. mset. repeat mstep.
  intros [= <-]. mred. by rewrite !lookup_insert_ne by done.
Qed.

Lemma split_frame (s : state) L1 a n L2 av r s' :
  chain_ok s (L1 ++ (a, n) :: L2) → avail s = S av → 1 ≤ count n →
  split (Some a) s = Ok r s' →
  ∀ x nx, x ∉ (L1 ++ (a, n) :: L2).*1 → heap s !! x = Some nx →
          heap s' !! x = Some nx.
Proof.
  intros H Hav Hc Hrun x nx Hxn Hx. revert Hrun.
  set (b := fresh (dom (heap s))).
  set (k := numSplit_of (count n)).
  pose proof (numSplit_of_bounds _ Hc) as Hk. fold k in Hk.
  pose proof (chain_ok_lookup _ _ _ _ _ H) as Ha.
  destruct (chain_ok_node _ _ _ _ _ H) as [Hcn Hln].
  pose proof (fresh_not_in _ _ _ Ha) as Hab. fold b in Hab.
  pose proof (fresh_not_in _ _ _ Hx) as Hxb. fold b in Hxb.
  assert (x ≠ a) as Hxa.
  { intros ->. apply Hxn. rewrite fmap_app, fmap_cons. apply elem_of_app. right. left. }
  pose proof (ck_agree _ _ H) as Hag. apply Forall_app in Hag as [_ Hag2].
  apply Forall_cons in Hag2 as [_ Hag2].
  pose proof (ck_links _ _ H) as Hlk.
  apply lk_app in Hlk as [_ (_ & Hnx & _)]. simpl in Hnx.
  destruct s as [h av' hd tl sz nc asz]. simpl in Hav, Ha, Hx, b, Hab, Hxb, Hag2. subst av'.
  unfold split. mstep. mstep.
  erewrite bind_Ok; [|by apply run_new_LNode]. mred. fold b.
  mstep.
  change (if Z.rem (count n) 2 =? 0 then Z.quot (count n) 2 - 1 else Z.quot (count n) 2)
    with k.
  erewrite (bind_Ok (for_loop _ _ _ _)).
  2:{ eapply (split_copy_run _ _
                (take (Z.to_nat k) (drop (Z.to_nat (count n - k)) (values n)))
                (take (Z.to_nat (count n - k)) (values n))
                (drop (Z.to_nat (count n)) (values n))
                (replicate (Z.to_nat k) junk) (replicate (Z.to_nat (Size - k)) junk) a b n).
      - list_len. lia.
      - list_len. lia.
      - done.
      - hlookup.
      - hlookup.
      - rewrite <- (take_drop (Z.to_nat (count n - k)) (values n)) at 1.
        f_equal.
        rewrite <- (take_drop (Z.to_nat k) (drop (Z.to_nat (count n - k)) (values n))) at 1.
        f_equal. rewrite drop_drop. f_equal. lia.
      - mred. rewrite <- replicate_add. f_equal. lia.
      - list_len. lia.
      - done.
      - mred. list_len. lia. }
  mred. repeat mstep. rewrite Z.add_0_l.
  destruct L2 as [|[y yn] L2].
  - simpl in Hnx. rewrite Hnx.
    destruct (ptr_eqb (Some a) tl); repeat mstep;
      intros [= <- <-]; mred; by rewrite !lookup_insert_ne by done.
  - simpl in Hnx. rewrite Hnx.
    apply Forall_cons in Hag2 as [Hy _]. simpl in Hy.
    assert (x ≠ y) as Hxy.
    { intros ->. apply Hxn. rewrite fmap_app, !fmap_cons. apply elem_of_app.
      right. right. left. }
    assert (y ≠ a) as Hya.
    { intros ->. destruct (NoDup_middle _ _ _ _ (ck_nodup _ _ H)) as (_ & Ha2 & _).
      apply Ha2. simpl. left. }
    pose proof (fresh_not_in _ _ _ Hy) as Hyb. fold b in Hyb.
    repeat mstep.
    destruct (ptr_eqb (Some a) tl); repeat mstep;
      intros [= <- <-]; mred; by rewrite !lookup_insert_ne by done.
Qed.

Lemma push_back_framed (s : state) L v (F : list (positive * LNode)) :
  good s L → agree (heap s) F → (∀ x, x ∈ F.*1 → x ∉ L.*1) → (1 ≤ avail s)%nat →
  ∃ s' L', push_back (Outside v) s = Ok tt s' ∧ good s' L'
    ∧ contents L' = contents L ++ [v]
    ∧ agree (heap s') F ∧ (∀ x, x ∈ F.*1 → x ∉ L'.*1)
    ∧ (avail s ≤ S (avail s'))%nat.
Proof.
  intros [H H1] HF Hdis Hav0.
  assert (∀ s', (∀ x nx, x ∉ L.*1 → heap s !! x = Some nx → heap s' !! x = Some nx) →
                agree (heap s') F) as Hkeep.
  { intros s' Hfr. unfold agree in *. rewrite Forall_forall in HF |- *.
    intros [x nx] Hin. simpl. apply Hfr; [|by apply (HF (x, nx))].
    apply Hdis. apply list_elem_of_fmap. by exists (x, nx). }
  pose proof (fresh_not_in_chain _ _ HF) as HbF.
  destruct (avail s) as [|av] eqn:Hav; [lia|].
  unfold push_back. mstep. mstep.
  destruct L as [|[t tn] L0 _] using rev_ind.
  - destruct (chain_ok_nil_head _ H) as [-> ->]. rewrite !ptr_eqb_refl. simpl.
    destruct (push_first_value_spec s v av H Hav) as (s' & Hrun & Hck & Hav').
    exists s', [(fresh (dom (heap s)), first_node v)].
    split_and!; [exact Hrun| | | | |lia].
    + split; [exact Hck|]. constructor; [simpl; lia|constructor].
    + unfold contents. simpl. by rewrite live_first_node.
    + apply Hkeep. intros x nx _. by apply (push_first_value_frame s v av).
    + intros x Hx Hin. simpl in Hin. apply list_elem_of_singleton in Hin as ->.
      by apply HbF.
  - destruct (chain_ok_snoc_tail _ _ _ _ H) as [Htl [x0 Hhd]]. rewrite Hhd, Htl.
    rewrite (ptr_eqb_ne (Some x0) None) by done. simpl.
    pose proof (chain_ok_lookup _ _ _ _ _ H) as Ht.
    pose proof (chain_ok_node _ _ _ _ _ H) as Hok. destruct (Hok) as [Hc Hl].
    apply Forall_app in H1 as [H10 H1t]. apply Forall_cons in H1t as [H1t _]. simpl in H1t.
    mstep. mstep. rewrite (ck_asize _ _ H).
    destruct (Z.eqb_spec (count tn) Size) as [Hfull|Hroom].
    + destruct (split_spec s L0 t tn [] av H Hav H1t) as (s1 & Hrun & Hck & Hav1).
      pose proof (split_frame s L0 t tn [] av _ s1 H Hav H1t Hrun) as Hfr1.
      rewrite bind_assoc. erewrite bind_Ok by exact Hrun. repeat mstep.
      simpl in Hck.
      replace (L0 ++ [(t, split_left tn (fresh (dom (heap s))));
                      (fresh (dom (heap s)), split_right tn t)])
        with ((L0 ++ [(t, split_left tn (fresh (dom (heap s))))])
              ++ [(fresh (dom (heap s)), split_right tn t)]) in Hck
        by (by rewrite <- app_assoc).
      destruct (chain_ok_snoc_tail _ _ _ _ Hck) as [Htl1 _]. rewrite Htl1.
      pose proof (numSplit_of_bounds _ H1t) as Hk.
      destruct (push_back_in_node_spec s1 _ _ _ [] v Hck) as (s2 & Hrun2 & Hck2 & Hav2).
      { simpl. lia. }
      pose proof (push_back_in_node_frame s1 _ _ _ [] v s2 Hck ltac:(simpl; lia) Hrun2)
        as Hfr2.
      eexists s2, _. split_and!; [exact Hrun2| | | | |lia].
      * split; [exact Hck2|].
        apply Forall_app. split; [apply Forall_app; split; [done|]|].
        -- constructor; [simpl; lia|constructor].
        -- constructor; [simpl; lia|constructor].
      * rewrite !contents_app. unfold contents at 2 3 5. simpl.
        rewrite !app_nil_r. rewrite live_node_push.
        -- rewrite <- !app_assoc. f_equal. rewrite app_assoc. f_equal.
           by apply live_split.
        -- by apply node_ok_split_right.
        -- simpl. lia.
      * apply Hkeep. intros x nx Hxn Hx. apply Hfr2.
        -- by apply (fresh_not_in _ _ _ Hx).
        -- by apply Hfr1.
      * intros x Hx Hin. rewrite !fmap_app in Hin. simpl in Hin.
        apply elem_of_app in Hin as [Hin|Hin].
        -- apply (Hdis x Hx). by rewrite fmap_app.
        -- apply list_elem_of_singleton in Hin as ->. by apply HbF.
    + destruct (push_back_in_node_spec s L0 t tn [] v H) as (s2 & Hrun2 & Hck2 & Hav2);
        [lia|].
      pose proof (push_back_in_node_frame s L0 t tn [] v s2 H ltac:(lia) Hrun2) as Hfr2.
      repeat mstep. rewrite Htl.
      eexists s2, _. split_and!; [exact Hrun2| | | | |lia].
      * split; [exact Hck2|].
        apply Forall_app. split; [done|]. constructor; [simpl; lia|constructor].
      * rewrite !contents_app. unfold contents at 2 4. simpl.
        rewrite !app_nil_r. rewrite live_node_push; [|done|lia].
        by rewrite app_assoc.
      * apply Hkeep. intros x nx Hxn Hx. apply Hfr2; [|done].
        intros ->. apply Hxn. rewrite fmap_app. apply elem_of_app. right. left.
      * intros x Hx Hin. apply (Hdis x Hx). by rewrite !fmap_app in Hin |- *.
Qed.

Lemma copy_loop_spec fuel : ∀ (R : list (positive * LNode)) pre i (s : state) L F,
  good s L → agree (heap s) F → (∀ x, x ∈ F.*1 → x ∉ L.*1) →
  (∀ p, p ∈ R → p ∈ F) → lk pre R None → Forall (λ p, node_ok p.2) R →
  0 ≤ i → match R with [] => i = 0 | p :: _ => i ≤ count p.2 end →
  (length (drop (Z.to_nat i) (contents R)) ≤ avail s)%nat →
  (length (drop (Z.to_nat i) (contents R)) + length R < fuel)%nat →
  ∃ s' L', copy_loop fuel (first_addr R None) i s = Ok tt s' ∧ good s' L'
    ∧ contents L' = contents L ++ drop (Z.to_nat i) (contents R)
    ∧ agree (heap s') F ∧ (∀ x, x ∈ F.*1 → x ∉ L'.*1).
Proof.
  induction fuel as [|fuel IH]; intros R pre i s L F Hg HF Hdis HR Hlk Hok Hi Hic Hav Hf;
    [lia|].
  destruct R as [|[a n] R'].
  - subst i. exists s, L. simpl. by rewrite app_nil_r.
  - simpl in Hic. pose proof Hlk as Hlk0. destruct Hlk as (_ & Hn & Hlk).
    pose proof Hok as Hok0.
    apply Forall_cons in Hok as [Hokn Hok]. pose proof Hokn as [Hc Hl]. simpl in Hc, Hl.
    assert (heap s !! a = Some n) as Ha.
    { eapply (agree_lookup _ F); [done|]. apply HR. left. }
    pose proof (length_live _ Hokn) as Hll. simpl in Hll.
    cbn [copy_loop first_addr fst]. mstep.
    destruct (Z.ltb_spec i (count n)) as [Hlt|Hge].
    + destruct (lookup_lt_is_Some_2 (values n) (Z.to_nat i)) as [x Hx]; [lia|].
      assert (contents ((a, n) :: R') !! Z.to_nat i = Some x) as Hcx.
      { rewrite contents_cons. simpl snd. rewrite lookup_app_l by lia.
        unfold live. by rewrite lookup_take_lt by lia. }
      rewrite (drop_S _ x _ Hcx) in Hav, Hf |- *. simpl in Hav, Hf.
      destruct (push_back_framed s L x F Hg HF Hdis ltac:(lia))
        as (s1 & L1 & Hrun1 & Hg1 & Hc1 & HF1 & Hdis1 & Hav1).
      rewrite <- (push_back_by_read (Slot (Some a) i) x s) in Hrun1
        by (apply (run_get_value a n); [exact Ha|lia|exact Hx]).
      erewrite bind_Ok by exact Hrun1.
      replace (S (Z.to_nat i)) with (Z.to_nat (i + 1)) in Hav, Hf |- * by lia.
      destruct (IH ((a, n) :: R') pre (i + 1) s1 L1 F Hg1 HF1 Hdis1 HR Hlk0 Hok0)
        as (s' & L' & Hrun' & Hg' & Hc' & HF' & Hdis'); [lia|simpl; lia|lia|simpl; lia|].
      exists s', L'. split_and!; try done.
      rewrite Hc', Hc1. by rewrite <- app_assoc.
    + assert (i = count n) as -> by lia.
      assert (drop (Z.to_nat (count n)) (contents ((a, n) :: R')) = contents R') as Hd.
      { rewrite contents_cons. simpl snd. rewrite drop_app_length'; [done|lia]. }
      rewrite Hd in Hav, Hf |- *. simpl in Hn.
      mstep. rewrite Hn.
      assert (∀ p, p ∈ R' → p ∈ F) as HR' by (intros p Hp; apply HR; by right).
      assert (match R' with [] => 0 = 0 | p :: _ => 0 ≤ count p.2 end) as Hic'.
      { destruct R' as [|[y yn] R'']; [done|].
        apply Forall_cons in Hok as [[Hyc _] _]. simpl in *. lia. }
      destruct (IH R' (Some a) 0 s L F Hg HF Hdis HR' Hlk Hok ltac:(lia) Hic')
        as (s' & L' & Hrun' & Hg' & Hc' & HF' & Hdis').
      { by rewrite drop_0. }
      { rewrite drop_0. simpl in Hf. lia. }
      exists s', L'. by split_and!.
Qed.

(** *** [clear], step by step *)

Lemma clear_loop_run L : ∀ pre fuel (s : state),
  NoDup L.*1 → agree (heap s) L → lk pre L None → (length L < fuel)%nat →
  clear_loop fuel (first_addr L None) s
  = Ok tt (mkState (foldl (λ h a, delete a h) (heap s) L.*1) (length L + avail s)
                   (head_ s) (tail_ s) (size_ s) (nodecount_ s) (asize_ s)).
Proof.
  induction L as [|[a n] L IH]; intros pre fuel s Hnd Hag Hlk Hf.
  - destruct fuel as [|fuel]; [simpl in Hf; lia|]. by destruct s.
  - destruct fuel as [|fuel]; [simpl in Hf; lia|].
    apply Forall_cons in Hag as [Ha Hag]. destruct Hlk as (_ & Hn & Hlk).
    rewrite fmap_cons in Hnd. apply NoDup_cons in Hnd as [Hna Hnd].
    simpl in *. mstep. mstep. rewrite Hn.
    rewrite (IH (Some a) fuel _ Hnd); [|by apply agree_delete_notin|done|lia].
    mred. do 2 f_equal. lia.
Qed.

Lemma clear_run (s : state) L fuel :
  chain_ok s L → (length L < fuel)%nat →
  clear fuel s
  = Ok tt (mkState (foldl (λ h a, delete a h) (heap s) L.*1) (length L + avail s)
                   None None 0 0 (asize_ s)).
Proof.
  intros H Hf. unfold clear. mstep. rewrite (ck_head _ _ H).
  erewrite bind_Ok by (apply (clear_loop_run L None); [apply H|apply H|apply H|done]).
  by repeat mstep.
Qed.

Lemma lookup_delete_all (h : gmap positive LNode) (l : list positive) x :
  foldl (λ h a, delete a h) h l !! x = if decide (x ∈ l) then None else h !! x.
Proof.
  revert h. induction l as [|a l IH]; intros h; simpl; [done|].
  rewrite IH. destruct (decide (x ∈ l)) as [Hin|Hnin].
  - rewrite decide_True; [done|by right].
  - destruct (decide (x = a)) as [->|Hne].
    + rewrite decide_True by left. apply lookup_delete_eq.
    + rewrite decide_False; [by apply lookup_delete_ne|].
      intros [->|Hin]%elem_of_cons; done.
Qed.

Lemma empty_good (h : gmap positive LNode) av :
  good (mkState h av None None 0 0 Size) [].
Proof. split; [|constructor]. constructor; simpl; try done; constructor. Qed.

(** [clear] (and with it the destructor) deletes every node of the chain
    and leaves an empty container that can be used again. *)
Theorem clear_empties (s : state) fuel :
  WF s → (Z.to_nat (nodecount_ s) < fuel)%nat →
  ∃ s', clear fuel s = Ok tt s'
    ∧ Lariat_destroy fuel s = Ok tt s'
    ∧ elements 0 s' = Some []
    ∧ size_ s' = 0 ∧ nodecount_ s' = 0 ∧ head_ s' = None ∧ tail_ s' = None
    ∧ avail s' = (Z.to_nat (nodecount_ s) + avail s)%nat
    ∧ WF s'.
Proof.
  intros [L Hg] Hf. pose proof Hg as [H H1].
  rewrite (ck_nodecount _ _ H) in Hf |- *. rewrite Nat2Z.id in Hf |- *.
  eexists. split; [by apply (clear_run s L)|].
  split; [by apply (clear_run s L)|].
  split_and!; try done.
  exists []. rewrite (ck_asize _ _ H). apply empty_good.
Qed.

(** Assigning a container to itself empties it: [operator=] clears the
    left-hand side before it reads [other.head_]. *)
Theorem self_assignment_empties (s : state) fuel :
  WF s → (Z.to_nat (nodecount_ s) < fuel)%nat →
  ∃ s', Lariat_assign fuel This s = Ok tt s'
    ∧ elements 0 s' = Some [] ∧ size_ s' = 0 ∧ WF s'.
Proof.
  intros [L Hg] Hf. pose proof Hg as [H H1].
  rewrite (ck_nodecount _ _ H), Nat2Z.id in Hf.
  eexists. split.
  { unfold Lariat_assign. erewrite bind_Ok by (by apply (clear_run s L)).
    rewrite bind_get. mred. destruct fuel as [|fuel]; [lia|]. reflexivity. }
  split_and!; try done.
  exists []. rewrite (ck_asize _ _ H). apply empty_good.
Qed.

Lemma with_heap_chain (o : state) Lo (h : gmap positive LNode) :
  chain_ok o Lo → agree h Lo → chain_ok (set_heap h o) Lo.
Proof. intros H Hag. destruct H. by constructor. Qed.

(** The copy constructor: the new container holds the elements of [rhs]
    in the same order, and [rhs] is as it was.  [rhs] is the state of the
    source with the memory in which the copy is built. *)
Theorem copy_constructor (rhs : state) fuel es :
  WF rhs → elements fuel rhs = Some es → (length es ≤ avail rhs)%nat →
  ∃ s', Lariat_copy (S (length es + fuel)) (head_ rhs) rhs = Ok tt s'
    ∧ elements (Z.to_nat (nodecount_ s')) s' = Some es
    ∧ size_ s' = size_ rhs
    ∧ WF s'
    ∧ segments fuel (set_heap (heap s') rhs) = segments fuel rhs.
Proof.
  intros [Lo Hgo] He Hav. pose proof Hgo as [Ho Ho1].
  pose proof (good_elements rhs Lo fuel es Hgo He) as ->.
  pose proof (elements_fuel _ _ _ _ Ho He) as Hf.
  destruct (copy_loop_spec (S (length (contents Lo) + fuel)) Lo None 0
              (mkState (heap rhs) (avail rhs) None None 0 0 Size) [] Lo)
    as (s' & L' & Hrun & Hg' & Hc & HF & _).
  { apply empty_good. }
  { apply Ho. }
  { intros x _ Hin. simpl in Hin. by apply elem_of_nil in Hin. }
  { done. }
  { apply Ho. }
  { apply Ho. }
  { done. }
  { destruct Lo as [|[a n] Lo']; [done|].
    pose proof (ck_nodes _ _ Ho) as Hns. apply Forall_cons in Hns as [[Hc _] _].
    simpl in *. lia. }
  { by rewrite drop_0. }
  { rewrite drop_0. lia. }
  rewrite drop_0 in Hc. simpl in Hc.
  destruct (good_observe s' L' (Z.to_nat (nodecount_ s')) Hg' ltac:(lia))
    as (Hel & _ & Hsz).
  destruct (good_observe rhs Lo fuel Hgo) as (_ & _ & Hszo).
  { rewrite (ck_nodecount _ _ Ho). lia. }
  exists s'. split_and!.
  - unfold Lariat_copy. rewrite bind_modify. rewrite (ck_head _ _ Ho). exact Hrun.
  - by rewrite Hel, Hc.
  - by rewrite Hsz, Hszo, Hc.
  - by exists L'.
  - rewrite (segments_spec _ Lo fuel (with_heap_chain rhs Lo (heap s') Ho HF) Hf).
    by rewrite (segments_spec rhs Lo fuel Ho Hf).
Qed.

(** [a = b] for two different containers in the same memory: afterwards
    [a] holds the elements of [b] in order and [b] is as it was. *)
Theorem assignment_copies (s other : state) L Lo fuel es :
  good s L → good other Lo → heap other = heap s →
  (∀ x, x ∈ Lo.*1 → x ∉ L.*1) →
  elements fuel other = Some es →
  (length es ≤ Z.to_nat (nodecount_ s) + avail s)%nat →
  ∃ s', Lariat_assign (S (Z.to_nat (nodecount_ s) + length es + fuel))
          (Other (head_ other)) s = Ok tt s'
    ∧ elements (Z.to_nat (nodecount_ s')) s' = Some es
    ∧ size_ s' = size_ other
    ∧ WF s'
    ∧ segments fuel (set_heap (heap s') other) = segments fuel other.
Proof.
  intros Hg Hgo Hheap Hdis He Hav. pose proof Hg as [H H1]. pose proof Hgo as [Ho Ho1].
  rewrite (ck_nodecount _ _ H), Nat2Z.id in Hav |- *.
  pose proof (good_elements other Lo fuel es Hgo He) as ->.
  pose proof (elements_fuel _ _ _ _ Ho He) as Hf.
  set (s1 := mkState (foldl (λ h a, delete a h) (heap s) L.*1) (length L + avail s)
                     None None 0 0 (asize_ s)).
  assert (agree (heap s1) Lo) as Hag1.
  { pose proof (ck_agree _ _ Ho) as Hag. rewrite Hheap in Hag.
    unfold agree in *. rewrite Forall_forall in Hag |- *. intros [x nx] Hin.
    simpl. rewrite lookup_delete_all. rewrite decide_False; [by apply (Hag (x, nx))|].
    apply Hdis. apply list_elem_of_fmap. by exists (x, nx). }
  destruct (copy_loop_spec (S (length L + length (contents Lo) + fuel)) Lo None 0 s1 [] Lo)
    as (s' & L' & Hrun & Hg' & Hc & HF & _).
  { unfold s1. rewrite (ck_asize _ _ H). apply empty_good. }
  { done. }
  { intros x _ Hin. simpl in Hin. by apply elem_of_nil in Hin. }
  { done. }
  { apply Ho. }
  { apply Ho. }
  { done. }
  { destruct Lo as [|[a n] Lo']; [done|].
    pose proof (ck_nodes _ _ Ho) as Hns. apply Forall_cons in Hns as [[Hc _] _].
    simpl in *. lia. }
  { by rewrite drop_0. }
  { rewrite drop_0. lia. }
  rewrite drop_0 in Hc. simpl in Hc.
  destruct (good_observe s' L' (Z.to_nat (nodecount_ s')) Hg' ltac:(lia))
    as (Hel & _ & Hsz).
  destruct (good_observe other Lo fuel Hgo) as (_ & _ & Hszo).
  { rewrite (ck_nodecount _ _ Ho). lia. }
  exists s'. split_and!.
  - unfold Lariat_assign. erewrite bind_Ok by (apply (clear_run s L); [done|lia]).
    rewrite bind_mret. rewrite (ck_head _ _ Ho). exact Hrun.
  - by rewrite Hel, Hc.
  - by rewrite Hsz, Hszo, Hc.
  - by exists L'.
  - rewrite (segments_spec _ Lo fuel (with_heap_chain other Lo (heap s') Ho HF) Hf).
    by rewrite (segments_spec other Lo fuel Ho Hf).
Qed.

(** *** Memory accounting *)

Lemma gs_bind0 {A B} d (m : M A) (k : A → M B) :
  gap_shift 0 m → (∀ a, gap_shift d (k a)) → gap_shift d (m ≫= k).
Proof.
  intros Hm Hk s. unfold mbind, M_bind. specialize (Hm s).
  destruct (m s) as [a s1|e s1| |]; try done.
  specialize (Hk a s1). destruct (k a s1) as [b s2|e s2| |]; try done; lia.
Qed.

Lemma gs_bind_quiet {A B} d1 d2 (m : M A) (k : A → M B) :
  gap_shift d1 m → (∀ a, gap_shift d2 (k a)) → (∀ a, raises (λ _, False) (k a)) →
  gap_shift (d1 + d2) (m ≫= k).
Proof.
  intros Hm Hk Hq s. unfold mbind, M_bind. specialize (Hm s).
  destruct (m s) as [a s1|e s1| |]; try done.
  specialize (Hk a s1). specialize (Hq a s1).
  destruct (k a s1) as [b s2|e s2| |]; try done; [lia|].
  by destruct (Hq e s2).
Qed.

Lemma gs_mret {A} (a : A) : gap_shift 0 (mret a : M A).
Proof. intros s. simpl. lia. Qed.

Lemma gs_get {A} (f : state → A) : gap_shift 0 (get f).
Proof. intros s. simpl. lia. Qed.

Lemma gs_fault {A} d : gap_shift d (fault : M A).
Proof. by intros s. Qed.

Lemma gs_out_of_fuel {A} d : gap_shift d (out_of_fuel : M A).
Proof. by intros s. Qed.

Lemma gs_throw {A} d e : gap_shift d (throw e : M A).
Proof. by intros s. Qed.

Lemma gs_modify0 (f : state → state) :
  (∀ s, heap (f s) = heap s ∧ nodecount_ (f s) = nodecount_ s) →
  gap_shift 0 (modify f).
Proof.
  intros Hf s. destruct (Hf s) as [Hh Hn]. simpl. unfold gap, allocated.
  rewrite Hh, Hn. lia.
Qed.

Lemma gs_count_up : gap_shift (-1) (modify (λ s, set_nodecount (nodecount_ s + 1) s)).
Proof. intros s. simpl. unfold gap, allocated. simpl. lia. Qed.

Lemma gs_count_down : gap_shift 1 (modify (λ s, set_nodecount (nodecount_ s - 1) s)).
Proof. intros s. simpl. unfold gap, allocated. simpl. lia. Qed.

Lemma gs_deref p : gap_shift 0 (deref p).
Proof.
  intros s. unfold deref. destruct p as [a|]; [|done].
  destruct (heap s !! a); [lia|done].
Qed.

Lemma gs_store p n : gap_shift 0 (store p n).
Proof.
  intros s. unfold store. destruct p as [a|]; [|done].
  destruct (heap s !! a) as [n0|] eqn:E; [|done].
  unfold gap, allocated. simpl. rewrite map_size_insert_Some by done. lia.
Qed.

Lemma gs_new_LNode :
  gap_shift 1 (try_catch_bad_alloc new_LNode (throw (LariatException E_NO_MEMORY))).
Proof.
  intros s. unfold try_catch_bad_alloc, new_LNode, throw.
  destruct (avail s); simpl; [done|].
  unfold gap, allocated. simpl.
  rewrite map_size_insert_None; [lia|].
  apply not_elem_of_dom. apply is_fresh.
Qed.

Lemma gs_delete_LNode a : gap_shift (-1) (delete_LNode (Some a)).
Proof.
  intros s. unfold delete_LNode. destruct (heap s !! a) as [n0|] eqn:E; [|done].
  unfold gap, allocated. simpl. rewrite map_size_delete_Some by done.
  assert (base.size (heap s) ≠ 0)%nat; [|lia].
  intros Hz. apply map_size_empty_inv in Hz. rewrite Hz in E. by rewrite lookup_empty in E.
Qed.

Lemma gs_if {A} d (b : bool) (m1 m2 : M A) :
  gap_shift d m1 → gap_shift d m2 → gap_shift d (if b then m1 else m2).
Proof. by destruct b. Qed.

Lemma gs_for_loop {A} k : ∀ i (acc : A) body,
  (∀ i acc, gap_shift 0 (body i acc)) → gap_shift 0 (for_loop k i acc body).
Proof.
  induction k as [|k IH]; intros i acc body Hb; simpl.
  - apply gs_mret.
  - apply gs_bind0; [apply Hb|]. intros acc'. by apply IH.
Qed.

Ltac gs_prim :=
  lazymatch goal with
  | |- gap_shift _ (mret _) => apply gs_mret
  | |- gap_shift _ (get _) => apply gs_get
  | |- gap_shift _ fault => apply gs_fault
  | |- gap_shift _ out_of_fuel => apply gs_out_of_fuel
  | |- gap_shift _ (throw _) => apply gs_throw
  | |- gap_shift _ (deref _) => apply gs_deref
  | |- gap_shift _ (store _ _) => apply gs_store
  | |- gap_shift _ (modify (set_head _)) => apply gs_modify0; by intros ?
  | |- gap_shift _ (modify (set_tail _)) => apply gs_modify0; by intros ?
  | |- gap_shift _ (modify (λ s, set_size _ s)) => apply gs_modify0; by intros ?
  | |- gap_shift _ (_ ≫= _) => apply gs_bind0; [|intros ?]
  | |- gap_shift _ (match ?x with Some _ => _ | None => _ end) => destruct x
  | |- gap_shift _ (if _ then _ else _) => apply gs_if
  end.

Lemma gs_get_next p : gap_shift 0 (get_next p).
Proof. unfold get_next. repeat gs_prim. Qed.
Lemma gs_get_prev p : gap_shift 0 (get_prev p).
Proof. unfold get_prev. repeat gs_prim. Qed.
Lemma gs_get_count p : gap_shift 0 (get_count p).
Proof. unfold get_count. repeat gs_prim. Qed.
Lemma gs_set_next p q : gap_shift 0 (set_next p q).
Proof. unfold set_next. repeat gs_prim. Qed.
Lemma gs_set_prev p q : gap_shift 0 (set_prev p q).
Proof. unfold set_prev. repeat gs_prim. Qed.
Lemma gs_set_count p c : gap_shift 0 (set_count p c).
Proof. unfold set_count. repeat gs_prim. Qed.
Lemma gs_get_value p i : gap_shift 0 (get_value p i).
Proof. unfold get_value. repeat gs_prim. Qed.
Lemma gs_set_value p i v : gap_shift 0 (set_value p i v).
Proof. unfold set_value. repeat gs_prim. Qed.
Lemma gs_read value : gap_shift 0 (read value).
Proof. destruct value; [apply gs_mret|apply gs_get_value]. Qed.

Ltac gs_step :=
  lazymatch goal with
  | |- gap_shift _ (get_next _) => apply gs_get_next
  | |- gap_shift _ (get_prev _) => apply gs_get_prev
  | |- gap_shift _ (get_count _) => apply gs_get_count
  | |- gap_shift _ (set_next _ _) => apply gs_set_next
  | |- gap_shift _ (set_prev _ _) => apply gs_set_prev
  | |- gap_shift _ (set_count _ _) => apply gs_set_count
  | |- gap_shift _ (get_value _ _) => apply gs_get_value
  | |- gap_shift _ (set_value _ _ _) => apply gs_set_value
  | |- gap_shift _ (read _) => apply gs_read
  | |- gap_shift _ (for_loop _ _ _ _) => apply gs_for_loop; intros ? ?
  | |- _ => gs_prim
  end.

Lemma gs_shiftUp p l : gap_shift 0 (shiftUp p l).
Proof. unfold shiftUp. repeat gs_step. Qed.

Lemma gs_shiftDown p l : gap_shift 0 (shiftDown p l).
Proof. unfold shiftDown. repeat gs_step. Qed.

Lemma gs_find_element_loop fuel : ∀ index acc w,
  gap_shift 0 (find_element_loop fuel index acc w).
Proof.
  induction fuel as [|fuel IH]; intros index acc w; simpl.
  - apply gs_out_of_fuel.
  - repeat gs_step. apply IH.
Qed.

Lemma gs_find_element fuel index : gap_shift 0 (find_element fuel index).
Proof. unfold find_element. gs_step; [gs_step|]. intros. apply gs_find_element_loop. Qed.

(** [gs_walk] steps over the statements that neither allocate, delete
    nor count a node. *)
Ltac gs_walk := repeat (gs_step; [solve [repeat gs_step]|]).

(** [split] and [push_first_value] count the node they allocate;
    nothing can throw between the allocation and the count. *)
Lemma gs_split p : gap_shift 0 (split p).
Proof.
  unfold split. gs_walk.
  apply (gs_bind_quiet 1 (-1)).
  - apply gs_new_LNode.
  - intros b. gs_walk. apply (gs_bind_quiet (-1) 0).
    + apply gs_count_up.
    + intros _. repeat gs_step.
    + intros _. repeat raises_step.
  - intros b. repeat raises_step.
Qed.

Lemma gs_push_first_value v : gap_shift 0 (push_first_value v).
Proof.
  unfold push_first_value.
  apply (gs_bind_quiet 1 (-1)).
  - apply gs_new_LNode.
  - intros b. gs_walk. apply gs_count_up.
  - intros b. repeat raises_step.
Qed.

Ltac gs_case :=
  lazymatch goal with
  | |- gap_shift _ (match ?x with Some _ => _ | None => _ end) => destruct x
  end.

(** [delete p] after [p] has been dereferenced: [p] is not null *)
Ltac gs_unlink :=
  lazymatch goal with
  | |- gap_shift _ (get_prev ?t ≫= _) =>
      destruct t; [|by intros ?]; gs_walk;
      apply (gs_bind_quiet (-1) 1);
      [ apply gs_delete_LNode
      | intros _; gs_walk; apply gs_count_down
      | intros _; repeat raises_step ]
  end.

Lemma gs_deleteNode p : gap_shift 0 (deleteNode p).
Proof.
  unfold deleteNode. gs_walk. apply gs_if; [|apply gs_if].
  - gs_case; [|apply gs_mret]. gs_walk.
    gs_case.
    + apply (gs_bind_quiet (-1) 1); [apply gs_delete_LNode| |].
      * intros _. gs_walk. apply gs_count_down.
      * intros _. repeat raises_step.
    + apply (gs_bind_quiet (-1) 1); [apply gs_delete_LNode| |].
      * intros _. gs_walk. apply gs_count_down.
      * intros _. repeat raises_step.
  - gs_unlink.
  - gs_unlink.
Qed.

Ltac gs_op :=
  lazymatch goal with
  | |- gap_shift _ (shiftUp _ _) => apply gs_shiftUp
  | |- gap_shift _ (shiftDown _ _) => apply gs_shiftDown
  | |- gap_shift _ (deleteNode _) => apply gs_deleteNode
  | |- gap_shift _ (find_element _ _) => apply gs_find_element
  | |- gap_shift _ (split _) => apply gs_split
  | |- gap_shift _ (push_first_value _) => apply gs_push_first_value
  | |- _ => gs_step
  end.

Lemma gs_push_back_in_node p v : gap_shift 0 (push_back_in_node p v).
Proof. unfold push_back_in_node. repeat gs_op. Qed.

Ltac gs_node :=
  lazymatch goal with
  | |- gap_shift _ (push_back_in_node _ _) => apply gs_push_back_in_node
  | |- _ => gs_op
  end.

Lemma gs_insert_in_full_node p l v : gap_shift 0 (insert_in_full_node p l v).
Proof. unfold insert_in_full_node. repeat gs_node. Qed.

Lemma gs_push_back v : gap_shift 0 (push_back v).
Proof. unfold push_back. repeat gs_node. Qed.

Lemma gs_push_front v : gap_shift 0 (push_front v).
Proof. unfold push_front. repeat gs_node. Qed.

Lemma gs_pop_back : gap_shift 0 pop_back.
Proof. unfold pop_back. repeat gs_op. Qed.

Lemma gs_pop_front : gap_shift 0 pop_front.
Proof. unfold pop_front. repeat gs_op. Qed.

Lemma gs_insert fuel index v : gap_shift 0 (insert fuel index v).
Proof.
  unfold insert. gs_step; [gs_step|]. intros.
  apply gs_if; [apply gs_throw|].
  apply gs_if; [apply gs_push_back|].
  apply gs_if; [apply gs_push_front|].
  repeat lazymatch goal with
  | |- gap_shift _ (insert_in_full_node _ _ _) => apply gs_insert_in_full_node
  | |- _ => gs_op
  end.
Qed.

Lemma gs_erase fuel index : gap_shift 0 (erase fuel index).
Proof.
  unfold erase. gs_step; [gs_step|]. intros.
  apply gs_if; [apply gs_pop_front|].
  apply gs_if; [apply gs_pop_back|].
  repeat gs_op.
Qed.

Lemma gs_compact_skip fuel : ∀ l r, gap_shift 0 (compact_skip fuel l r).
Proof.
  induction fuel as [|fuel IH]; intros l r; simpl.
  - apply gs_out_of_fuel.
  - repeat gs_step. apply IH.
Qed.

Lemma gs_compact_pour fuel : ∀ l r, gap_shift 0 (compact_pour fuel l r).
Proof.
  induction fuel as [|fuel IH]; intros l r; simpl.
  - apply gs_out_of_fuel.
  - repeat gs_step. apply IH.
Qed.

Lemma gs_compact_trim fuel : gap_shift 0 (compact_trim fuel).
Proof.
  induction fuel as [|fuel IH]; simpl.
  - apply gs_out_of_fuel.
  - repeat lazymatch goal with
    | |- gap_shift _ (compact_trim _) => apply IH
    | |- _ => gs_op
    end.
Qed.

Lemma gs_compact fuel : gap_shift 0 (compact fuel).
Proof.
  unfold compact. gs_step; [gs_step|]. intros.
  apply gs_if; [apply gs_mret|].
  gs_step; [gs_step|].
  gs_step; [apply gs_compact_skip|].
  lazymatch goal with |- gap_shift _ (let (_, _) := ?x in _) => destruct x end.
  gs_step; [apply gs_compact_pour|]. apply gs_compact_trim.
Qed.

Lemma size_delete_all (h : gmap positive LNode) (L : list (positive * LNode)) :
  NoDup L.*1 → agree h L →
  Z.of_nat (base.size (foldl (λ h a, delete a h) h L.*1))
  = Z.of_nat (base.size h) - Z.of_nat (length L).
Proof.
  revert h. induction L as [|[a n] L IH]; intros h Hnd Hag; simpl; [lia|].
  apply Forall_cons in Hag as [Ha Hag]. simpl in Ha.
  rewrite fmap_cons in Hnd. apply NoDup_cons in Hnd as [Hna Hnd].
  rewrite IH; [|done|by apply agree_delete_notin].
  rewrite map_size_delete_Some by done.
  assert (base.size h ≠ 0)%nat; [|lia].
  intros Hz. apply map_size_empty_inv in Hz. rewrite Hz in Ha. by rewrite lookup_empty in Ha.
Qed.

Lemma exec_gap (s : state) fuel o s' :
  reachable s → gap s = 0 → returns (exec fuel o s) s' → gap s' = 0.
Proof.
  intros Hr Hgap Hret.
  assert (∀ m : M unit, gap_shift 0 m → returns (m s) s' → gap s' = 0) as Hgs.
  { intros m Hm Hm'. specialize (Hm s).
    destruct Hm' as [Hm'|[e Hm']]; rewrite Hm' in Hm; lia. }
  destruct o as [index v|v|v|index| | | |]; simpl in Hret.
  - by apply (Hgs _ (gs_insert fuel index v)).
  - by apply (Hgs _ (gs_push_back v)).
  - by apply (Hgs _ (gs_push_front v)).
  - by apply (Hgs _ (gs_erase fuel index)).
  - by apply (Hgs _ gs_pop_back).
  - by apply (Hgs _ gs_pop_front).
  - destruct (reachable_good s Hr) as [L [H _]].
    assert (returns (clear (max fuel (S (length L))) s) s') as Hret'.
    { destruct Hret as [Hc|[e Hc]]; [left|right; exists e];
        (eapply clear_mono; [|exact Hc|done]); lia. }
    rewrite (clear_run s L) in Hret' by (done || lia).
    destruct Hret' as [Hc|[e Hc]]; [|done]. injection Hc as <-.
    unfold gap, allocated in *. simpl.
    rewrite (size_delete_all _ L (ck_nodup _ _ H) (ck_agree _ _ H)).
    rewrite (ck_nodecount _ _ H) in Hgap. lia.
  - by apply (Hgs _ (gs_compact fuel)).
Qed.

Lemma reachable_gap (s : state) : reachable s → gap s = 0.
Proof.
  induction 1 as [mem|s o fuel s' Hr IH Hret]; [done|].
  by apply (exec_gap s fuel o s').
Qed.

(** No node is leaked: between calls the nodes allocated and not yet
    deleted are as many as [nodecount_] says, that is, as many as the
    chain has. *)
Theorem no_node_leaked (s : state) :
  reachable s → allocated s = nodecount_ s.
Proof. intros Hr. pose proof (reachable_gap s Hr) as Hgap. unfold gap in Hgap. lia. Qed.

(** The destructor gives back every node: after [~Lariat()] on a
    container in a reachable state the free store holds no node. *)
Theorem destructor_frees_all (s : state) fuel :
  reachable s → (Z.to_nat (nodecount_ s) < fuel)%nat →
  ∃ s', Lariat_destroy fuel s = Ok tt s' ∧ heap s' = ∅.
Proof.
  intros Hr Hf. destruct (reachable_good s Hr) as [L [H _]].
  rewrite (ck_nodecount _ _ H), Nat2Z.id in Hf.
  pose proof (reachable_gap s Hr) as Hgap.
  eexists. split; [by apply (clear_run s L)|]. simpl.
  apply map_size_empty_inv. apply Nat2Z.inj.
  rewrite (size_delete_all _ L (ck_nodup _ _ H) (ck_agree _ _ H)).
  unfold gap, allocated in Hgap. rewrite (ck_nodecount _ _ H) in Hgap. lia.
Qed.

End Lariat.

(** * Concrete runs

    Containers of integers with four slots per node; [0] fills the slots
    of a fresh node. *)

Lemma four_pos : 1 ≤ 4.
Proof. lia. Qed.

(** Inserting 99 at index 2 of the container 1..7: the first node has a
    free slot. *)
Lemma insert_keeps_order_witness :
  let s := after 4 0 3 (PushBack ∘ Outside <$> [1; 2; 3; 4; 5; 6; 7]) (Lariat_new 4 5) in
  segments 3 s = Some [(3, [1; 2; 3]); (4, [4; 5; 6; 7])]
  ∧ ∃ s', insert 4 0 3 2 (Outside 99) s = Ok tt s'
    ∧ elements (Z.to_nat (nodecount_ s')) s' = Some [1; 2; 99; 3; 4; 5; 6; 7]
    ∧ size s' = Ok 8 s'
    ∧ segments 3 s' = Some [(4, [1; 2; 99; 3]); (4, [4; 5; 6; 7])].
Proof.
  intros s.
  assert (segments 3 s = Some ([] ++ (3, [1; 2; 3]) :: [(4, [4; 5; 6; 7])])) as Hseg
    by (vm_compute; reflexivity).
  assert (elements 3 s = Some [1; 2; 3; 4; 5; 6; 7]) as He by (vm_compute; reflexivity).
  split; [exact Hseg|].
  destruct (insert_keeps_order 4 0 four_pos s 3 _ 2 99
              (reachable_WF 4 0 four_pos _ (after_reachable 4 0 _ _ _ (reach_new 4 0 5)))
              He ltac:(simpl; lia) ltac:(vm_compute; lia))
    as (s' & Hrun & Hel & Hsz & _ & Hpath).
  exists s'. split_and!; [exact Hrun|exact Hel|exact Hsz|].
  apply (Hpath [] 3 [1; 2; 3] [(4, [4; 5; 6; 7])] Hseg); simpl; lia.
Defined.

(** [l.insert(5, l[6])] on the container 1..7, whose second node
    [4; 5; 6; 7] is full: the element inserted is 6, not the 7 that
    [l[6]] held. *)
Lemma insert_reads_argument_after_shift_witness :
  let s := after 4 0 3 (PushBack ∘ Outside <$> [1; 2; 3; 4; 5; 6; 7]) (Lariat_new 4 5) in
  segments 2 s = Some [(3, [1; 2; 3]); (4, [4; 5; 6; 7])]
  ∧ find_element 3 6 s = Ok (mkInfo (Some 2%positive) 3) s
  ∧ read 4 (Slot (Some 2%positive) 3) s = Ok 7 s
  ∧ (∃ s', insert 4 0 3 5 (Outside 7) s = Ok tt s'
       ∧ elements (Z.to_nat (nodecount_ s')) s' = Some [1; 2; 3; 4; 5; 7; 6; 7])
  ∧ ∃ s', insert 4 0 3 5 (Slot (Some 2%positive) 3) s = Ok tt s'
      ∧ elements (Z.to_nat (nodecount_ s')) s' = Some [1; 2; 3; 4; 5; 6; 6; 7]
      ∧ (7 ≠ 6 →
         elements (Z.to_nat (nodecount_ s')) s' ≠ Some [1; 2; 3; 4; 5; 7; 6; 7]).
Proof.
  intros s. split; [vm_compute; reflexivity|].
  refine (insert_reads_argument_after_shift 4 0 four_pos s
            [(1%positive, mkLNode (Some 2%positive) None 3 [1; 2; 3; 4])]
            2%positive (mkLNode None (Some 1%positive) 4 [4; 5; 6; 7]) []
            3 5 3 7 6 _ _ _ _ _ _ _ _ _).
  - split; [|clear; repeat constructor; simpl; lia]. constructor.
    + apply NoDup_cons. split; [|apply NoDup_singleton].
      intros Hin%list_elem_of_singleton. discriminate.
    + repeat (constructor; [vm_compute; reflexivity|]). constructor.
    + clear. simpl. done.
    + vm_compute. reflexivity.
    + vm_compute. reflexivity.
    + clear. repeat constructor; simpl; lia.
    + vm_compute. reflexivity.
    + vm_compute. reflexivity.
    + vm_compute. reflexivity.
  - reflexivity.
  - lia.
  - simpl. lia.
  - simpl. lia.
  - reflexivity.
  - reflexivity.
  - simpl. lia.
  - vm_compute. lia.
Defined.

(** The container 1..7 built by [push_back]. *)
Lemma size_counts_live_elements_witness :
  let s := after 4 0 3 (PushBack ∘ Outside <$> [1; 2; 3; 4; 5; 6; 7]) (Lariat_new 4 5) in
  ∃ cs es, counts 2 s = Some cs ∧ elements 2 s = Some es
    ∧ size s = Ok (sumZ cs) s ∧ sumZ cs = Z.of_nat (length es).
Proof.
  intros s.
  apply (size_counts_live_elements 4 0 four_pos s 2).
  - apply after_reachable, reach_new.
  - vm_compute. lia.
Defined.

(** The counts of the container 1..7 built by [push_back]. *)
Lemma segment_counts_in_range_witness :
  let s := after 4 0 3 (PushBack ∘ Outside <$> [1; 2; 3; 4; 5; 6; 7]) (Lariat_new 4 5) in
  ∃ cs, counts 2 s = Some cs
    ∧ Forall (λ c, c ≤ 4) cs
    ∧ (∀ i c, cs !! i = Some c → (S i < length cs)%nat → 1 ≤ c)
    ∧ Forall (λ c, 1 ≤ c) cs.
Proof.
  intros s.
  apply (segment_counts_in_range 4 0 four_pos s 2).
  - apply after_reachable, reach_new.
  - vm_compute. lia.
Defined.

(** C4, as the code has it: with no memory left, [push_back] onto a full
    tail leaves the container as it was, but [insert] into a full node
    and [push_front] onto a full head have already rotated the node and
    overwritten a slot when [split] fails to allocate: the node's last
    element is lost. *)
Theorem allocation_failure_loses_element :
  let s := after 4 0 3 (PushBack ∘ Outside <$> [1; 2; 3; 4]) (Lariat_new 4 1) in
  avail s = O
  ∧ elements 1 s = Some [1; 2; 3; 4]
  ∧ push_back 4 0 (Outside 99) s = Throw (LariatException E_NO_MEMORY) s
  ∧ (∃ s', insert 4 0 1 2 (Outside 99) s = Throw (LariatException E_NO_MEMORY) s'
       ∧ elements 1 s' = Some [1; 2; 99; 3] ∧ size_ s' = 4)
  ∧ (∃ s', push_front 4 0 (Outside 99) s = Throw (LariatException E_NO_MEMORY) s'
       ∧ elements 1 s' = Some [99; 1; 2; 3] ∧ size_ s' = 4).
Proof.
  intros s. split_and!.
  - vm_compute. reflexivity.
  - vm_compute. reflexivity.
  - vm_compute. reflexivity.
  - eexists. split_and!; vm_compute; reflexivity.
  - eexists. split_and!; vm_compute; reflexivity.
Qed.

(** Erasing index 1 of the single full node 1, 2, 3, 4. *)
Lemma erase_in_full_node_reads_past_end_witness :
  let s := after 4 0 3 (PushBack ∘ Outside <$> [1; 2; 3; 4]) (Lariat_new 4 5) in
  elements 1 s = Some [1; 2; 3; 4]
  ∧ shiftDown 4 (Some 1%positive) 1 s = Fault
  ∧ erase 4 1 1 s = Fault.
Proof.
  intros s. split; [vm_compute; reflexivity|].
  refine (erase_in_full_node_reads_past_end 4 four_pos s []
            1%positive (mkLNode None None 4 [1; 2; 3; 4]) [] 1 1 _ _ _ _ _).
  - constructor.
    + apply NoDup_singleton.
    + repeat constructor.
    + simpl. done.
    + vm_compute. reflexivity.
    + vm_compute. reflexivity.
    + repeat constructor; simpl; lia.
    + vm_compute. reflexivity.
    + vm_compute. reflexivity.
    + vm_compute. reflexivity.
  - reflexivity.
  - simpl. lia.
  - by vm_compute.
  - simpl. lia.
Defined.

(** Inserting at index 4 and at index -1 into the container 1, 2, 3; the
    second call passes a reference to the first element. *)
Lemma insert_out_of_range_iff_witness :
  let s := after 4 0 3 (PushBack ∘ Outside <$> [1; 2; 3]) (Lariat_new 4 5) in
  insert 4 0 3 4 (Outside 99) s = Throw (LariatException E_BAD_INDEX) s
  ∧ insert 4 0 3 (-1) (Slot (Some 1%positive) 0) s
    = Throw (LariatException E_BAD_INDEX) s.
Proof.
  intros s. split.
  - destruct (proj2 (proj1 (insert_out_of_range_iff 4 0 s 3 4 (Outside 99))))
      as [s' Hrun]; [right; by vm_compute|].
    by rewrite (proj2 (insert_out_of_range_iff 4 0 s 3 4 (Outside 99)) s' Hrun) in Hrun.
  - destruct (proj2 (proj1 (insert_out_of_range_iff 4 0 s 3 (-1)
                              (Slot (Some 1%positive) 0))))
      as [s' Hrun]; [left; lia|].
    by rewrite (proj2 (insert_out_of_range_iff 4 0 s 3 (-1)
                         (Slot (Some 1%positive) 0)) s' Hrun) in Hrun.
Defined.

(** [erase 7] and [erase (-1)] on the container 1, 2, 3, beside [insert]
    at the same indexes. *)
Lemma erase_out_of_range_not_rejected_witness :
  let s := after 4 0 3 (PushBack ∘ Outside <$> [1; 2; 3]) (Lariat_new 4 5) in
  elements 1 s = Some [1; 2; 3]
  ∧ (erase 4 3 7 s = Fault
     ∧ insert 4 0 3 7 (Outside 99) s = Throw (LariatException E_BAD_INDEX) s)
  ∧ (erase 4 3 (-1) s = Fault
     ∧ insert 4 0 3 (-1) (Outside 99) s = Throw (LariatException E_BAD_INDEX) s).
Proof.
  intros s.
  assert (WF 4 s) as Hwf
    by (apply (reachable_WF 4 0 four_pos), after_reachable, reach_new).
  split; [|split].
  - vm_compute. reflexivity.
  - apply (erase_out_of_range_not_rejected 4 0 four_pos s 3 7 (Outside 99) Hwf);
      [vm_compute; lia|right; by vm_compute].
  - apply (erase_out_of_range_not_rejected 4 0 four_pos s 3 (-1) (Outside 99) Hwf);
      [vm_compute; lia|left; lia].
Defined.

(** Splitting the full tail node of the container 1..7: one element
    moves to the new tail. *)
Lemma split_full_node_witness :
  let s := after 4 0 3 (PushBack ∘ Outside <$> [1; 2; 3; 4; 5; 6; 7]) (Lariat_new 4 5) in
  let n1 := mkLNode (Some 2%positive) None 3 [1; 2; 3; 4] in
  let n2 := mkLNode None (Some 1%positive) 4 [4; 5; 6; 7] in
  segments 2 s = Some [(3, [1; 2; 3]); (4, [4; 5; 6; 7])]
  ∧ ∃ b s' n m L2',
      split 4 0 (Some 2%positive) s = Ok (Some b) s'
      ∧ chain_ok 4 s' ([(1%positive, n1)] ++ (2%positive, n) :: (b, m) :: L2')
      ∧ count m = 1
      ∧ count n = 4 - count m
      ∧ live n = take (Z.to_nat (count n)) (live n2)
      ∧ live m = drop (Z.to_nat (count n)) (live n2)
      ∧ Forall2 same_data L2' []
      ∧ tail_ s' = Some b.
Proof.
  intros s n1 n2. split; [vm_compute; reflexivity|].
  refine (split_full_node 4 0 four_pos s [(1%positive, n1)] 2%positive n2 [] _ _ _).
  - constructor.
    + apply NoDup_cons. split; [|apply NoDup_singleton].
      intros Hin%list_elem_of_singleton. discriminate.
    + repeat constructor.
    + simpl. done.
    + vm_compute. reflexivity.
    + vm_compute. reflexivity.
    + repeat constructor; simpl; lia.
    + vm_compute. reflexivity.
    + vm_compute. reflexivity.
    + vm_compute. reflexivity.
  - reflexivity.
  - vm_compute. lia.
Defined.

(** Capacity 4, [push_back] 1..7, then [compact]: two nodes, 4 and 3
    elements, in the same order. *)
Lemma compact_packs_witness :
  let s := after 4 0 3 (PushBack ∘ Outside <$> [1; 2; 3; 4; 5; 6; 7]) (Lariat_new 4 5) in
  counts 2 s = Some [3; 4]
  ∧ ∃ s', compact 4 3 s = Ok tt s'
    ∧ elements (Z.to_nat (nodecount_ s')) s' = Some [1; 2; 3; 4; 5; 6; 7]
    ∧ size_ s' = 7
    ∧ counts (Z.to_nat (nodecount_ s')) s' = Some [4; 3]
    ∧ nodecount_ s' = 2
    ∧ WF 4 s'.
Proof.
  intros s. split; [vm_compute; reflexivity|].
  refine (compact_packs 4 four_pos s 2 [1; 2; 3; 4; 5; 6; 7] _ _).
  - apply (reachable_WF 4 0 four_pos), after_reachable, reach_new.
  - vm_compute. reflexivity.
Defined.

(** [pop_front] on a freshly constructed container. *)
Lemma pop_front_on_empty_witness :
  pop_front 4 (Lariat_new (T:=Z) 4 5) = Ok tt (Lariat_new 4 5).
Proof. apply pop_front_on_empty. reflexivity. Defined.

(** * Concrete runs of the rest of the interface

    The container [1; 2; 3; 4; 5] with four slots per node is built by
    five calls of [push_back]: its nodes hold [1; 2; 3] and [4; 5]. *)

Lemma five_WF :
  WF 4 (after 4 0 3 (PushBack ∘ Outside <$> [1; 2; 3; 4; 5]) (Lariat_new 4 10)).
Proof. apply (reachable_WF 4 0 four_pos), after_reachable, reach_new. Qed.

Lemma push_back_appends_witness :
  let s := after 4 0 3 (PushBack ∘ Outside <$> [1; 2; 3; 4; 5]) (Lariat_new 4 10) in
  elements 2 s = Some [1; 2; 3; 4; 5]
  ∧ read 4 (Slot (Some 1%positive) 1) s = Ok 2 s
  ∧ ((∃ s', push_back 4 0 (Slot (Some 1%positive) 1) s = Ok tt s'
        ∧ elements (Z.to_nat (nodecount_ s')) s' = Some ([1; 2; 3; 4; 5] ++ [2])
        ∧ size_ s' = size_ s + 1
        ∧ WF 4 s')
     ∨ (avail s = O
        ∧ push_back 4 0 (Slot (Some 1%positive) 1) s
          = Throw (LariatException E_NO_MEMORY) s)).
Proof.
  intros s.
  assert (elements 2 s = Some [1; 2; 3; 4; 5]) as He by (vm_compute; reflexivity).
  assert (read 4 (Slot (Some 1%positive) 1) s = Ok 2 s) as Hread
    by (vm_compute; reflexivity).
  split; [exact He|]. split; [exact Hread|].
  exact (push_back_appends 4 0 four_pos s 2 _ _ 2 five_WF He Hread).
Defined.

Lemma push_front_prepends_witness :
  let s := after 4 0 3 (PushBack ∘ Outside <$> [1; 2; 3; 4; 5]) (Lariat_new 4 10) in
  elements 2 s = Some [1; 2; 3; 4; 5]
  ∧ ∃ s', push_front 4 0 (Outside 0) s = Ok tt s'
    ∧ elements (Z.to_nat (nodecount_ s')) s' = Some [0; 1; 2; 3; 4; 5]
    ∧ size_ s' = size_ s + 1
    ∧ WF 4 s'.
Proof.
  intros s.
  assert (elements 2 s = Some [1; 2; 3; 4; 5]) as He by (vm_compute; reflexivity).
  split; [exact He|].
  apply (push_front_prepends 4 0 four_pos s 2 _ 0 five_WF He).
  vm_compute. lia.
Defined.

(** [l.push_front(l.first())] on the full node 1, 2, 3, 4: the element
    prepended is 4. *)
Lemma push_front_reads_argument_after_shift_witness :
  let s := after 4 0 3 (PushBack ∘ Outside <$> [1; 2; 3; 4]) (Lariat_new 4 5) in
  segments 1 s = Some [(4, [1; 2; 3; 4])]
  ∧ Lariat_first 4 s = Ok 1 s
  ∧ read 4 (Slot (Some 1%positive) 0) s = Ok 1 s
  ∧ (∃ s', push_front 4 0 (Outside 1) s = Ok tt s'
       ∧ elements (Z.to_nat (nodecount_ s')) s' = Some [1; 1; 2; 3; 4])
  ∧ ∃ s', push_front 4 0 (Slot (Some 1%positive) 0) s = Ok tt s'
      ∧ elements (Z.to_nat (nodecount_ s')) s' = Some [4; 1; 2; 3; 4]
      ∧ (1 ≠ 4 → elements (Z.to_nat (nodecount_ s')) s' ≠ Some [1; 1; 2; 3; 4]).
Proof.
  intros s. split; [vm_compute; reflexivity|]. split; [vm_compute; reflexivity|].
  refine (push_front_reads_argument_after_shift 4 0 four_pos s
            1%positive (mkLNode None None 4 [1; 2; 3; 4]) [] 0 1 4 _ _ _ _ _ _).
  - split; [|clear; repeat constructor; simpl; lia]. constructor.
    + apply NoDup_singleton.
    + repeat (constructor; [vm_compute; reflexivity|]). constructor.
    + clear. simpl. done.
    + vm_compute. reflexivity.
    + vm_compute. reflexivity.
    + clear. repeat constructor; simpl; lia.
    + vm_compute. reflexivity.
    + vm_compute. reflexivity.
    + vm_compute. reflexivity.
  - reflexivity.
  - lia.
  - reflexivity.
  - reflexivity.
  - vm_compute. lia.
Defined.

Lemma insert_at_ends_witness :
  let s := after 4 0 3 (PushBack ∘ Outside <$> [1; 2; 3; 4; 5]) (Lariat_new 4 10) in
  elements 2 s = Some [1; 2; 3; 4; 5]
  ∧ (∃ s', insert 4 0 2 0 (Outside 9) s = Ok tt s'
       ∧ elements (Z.to_nat (nodecount_ s')) s' = Some [9; 1; 2; 3; 4; 5])
  ∧ (∃ s', insert 4 0 2 (size_ s) (Outside 9) s = Ok tt s'
       ∧ elements (Z.to_nat (nodecount_ s')) s' = Some ([1; 2; 3; 4; 5] ++ [9])).
Proof.
  intros s.
  assert (elements 2 s = Some [1; 2; 3; 4; 5]) as He by (vm_compute; reflexivity).
  split; [exact He|].
  apply (insert_at_ends 4 0 four_pos s 2 _ 9 five_WF He).
  vm_compute. lia.
Defined.

Lemma pop_back_removes_last_witness :
  let s := after 4 0 3 (PushBack ∘ Outside <$> [1; 2; 3; 4; 5]) (Lariat_new 4 10) in
  elements 2 s = Some [1; 2; 3; 4; 5]
  ∧ ∃ s', pop_back s = Ok tt s'
    ∧ elements (Z.to_nat (nodecount_ s')) s' = Some [1; 2; 3; 4]
    ∧ size_ s' = size_ s - 1
    ∧ WF 4 s'.
Proof.
  intros s.
  assert (elements 2 s = Some [1; 2; 3; 4; 5]) as He by (vm_compute; reflexivity).
  split; [exact He|].
  by apply (pop_back_removes_last 4 four_pos s 2 _ five_WF He).
Defined.

Lemma pop_back_on_empty_witness :
  size_ (Lariat_new (T:=Z) 4 10) = 0 ∧ pop_back (Lariat_new (T:=Z) 4 10) = Fault.
Proof.
  split; [reflexivity|].
  apply (pop_back_on_empty 4 four_pos); [|reflexivity].
  apply (reachable_WF 4 0 four_pos), reach_new.
Defined.

Lemma pop_front_removes_first_witness :
  let s := after 4 0 3 (PushBack ∘ Outside <$> [1; 2; 3; 4; 5]) (Lariat_new 4 10) in
  segments 2 s = Some [(3, [1; 2; 3]); (2, [4; 5])]
  ∧ ∃ s', pop_front 4 s = Ok tt s'
    ∧ elements (Z.to_nat (nodecount_ s')) s' = Some [2; 3; 4; 5]
    ∧ size_ s' = size_ s - 1
    ∧ WF 4 s'.
Proof.
  intros s.
  assert (segments 2 s = Some [(3, [1; 2; 3]); (2, [4; 5])]) as Hs
    by (vm_compute; reflexivity).
  split; [exact Hs|].
  by apply (pop_front_removes_first 4 four_pos s 2 3 [1; 2; 3] [(2, [4; 5])] five_WF Hs).
Defined.

Lemma pop_front_full_head_witness :
  let s := after 4 0 3 (PushBack ∘ Outside <$> [1; 2; 3; 4]) (Lariat_new 4 10) in
  segments 1 s = Some [(4, [1; 2; 3; 4])] ∧ pop_front 4 s = Fault.
Proof.
  intros s.
  assert (segments 1 s = Some [(4, [1; 2; 3; 4])]) as Hs by (vm_compute; reflexivity).
  split; [exact Hs|].
  apply (pop_front_full_head 4 four_pos s 1 [1; 2; 3; 4] [] ); [|exact Hs].
  apply (reachable_WF 4 0 four_pos), after_reachable, reach_new.
Defined.

Lemma erase_removes_witness :
  let s := after 4 0 3 (PushBack ∘ Outside <$> [1; 2; 3; 4; 5]) (Lariat_new 4 10) in
  segments 2 s = Some [(3, [1; 2; 3]); (2, [4; 5])]
  ∧ ∃ s', erase 4 2 1 s = Ok tt s'
    ∧ elements (Z.to_nat (nodecount_ s')) s' = Some [1; 3; 4; 5]
    ∧ size_ s' = size_ s - 1
    ∧ WF 4 s'.
Proof.
  intros s.
  assert (segments 2 s = Some ([] ++ (3, [1; 2; 3]) :: [(2, [4; 5])])) as Hs
    by (vm_compute; reflexivity).
  assert (elements 2 s = Some [1; 2; 3; 4; 5]) as He by (vm_compute; reflexivity).
  split; [exact Hs|].
  apply (erase_removes 4 four_pos s 2 _ [] 3 [1; 2; 3] [(2, [4; 5])] 1 five_WF He Hs).
  - cbn. lia.
  - lia.
  - change (size_ s) with 5. lia.
Defined.

Lemma subscript_reads_witness :
  let s := after 4 0 3 (PushBack ∘ Outside <$> [1; 2; 3; 4; 5]) (Lariat_new 4 10) in
  elements 2 s = Some [1; 2; 3; 4; 5] ∧ subscript_get 4 2 3 s = Ok 4 s.
Proof.
  intros s.
  assert (elements 2 s = Some [1; 2; 3; 4; 5]) as He by (vm_compute; reflexivity).
  split; [exact He|].
  apply (subscript_reads 4 four_pos s 2 _ 3 4 five_WF He); [lia|reflexivity].
Defined.

Lemma subscript_out_of_range_witness :
  let s := after 4 0 3 (PushBack ∘ Outside <$> [1; 2; 3; 4; 5]) (Lariat_new 4 10) in
  size_ s = 5
  ∧ subscript_get 4 3 5 s = Fault
  ∧ ∀ v, subscript_set 4 3 5 v s = Fault.
Proof.
  intros s. split; [reflexivity|].
  apply (subscript_out_of_range 4 four_pos s 3 5 five_WF); [vm_compute; lia|].
  right. by vm_compute.
Defined.

Lemma subscript_writes_witness :
  let s := after 4 0 3 (PushBack ∘ Outside <$> [1; 2; 3; 4; 5]) (Lariat_new 4 10) in
  elements 2 s = Some [1; 2; 3; 4; 5]
  ∧ ∃ s', subscript_set 4 2 3 99 s = Ok tt s'
    ∧ elements 2 s' = Some [1; 2; 3; 99; 5]
    ∧ counts 2 s' = counts 2 s
    ∧ size_ s' = size_ s
    ∧ subscript_get 4 2 3 s' = Ok 99 s'
    ∧ WF 4 s'.
Proof.
  intros s.
  assert (elements 2 s = Some [1; 2; 3; 4; 5]) as He by (vm_compute; reflexivity).
  split; [exact He|].
  apply (subscript_writes 4 four_pos s 2 _ 3 99 five_WF He). simpl. lia.
Defined.

Lemma first_and_last_witness :
  let s := after 4 0 3 (PushBack ∘ Outside <$> [1; 2; 3; 4; 5]) (Lariat_new 4 10) in
  elements 2 s = Some [1; 2; 3; 4; 5]
  ∧ Lariat_first 4 s = Ok 1 s ∧ Lariat_last 4 s = Ok 5 s
  ∧ Lariat_first 4 (Lariat_new (T:=Z) 4 10) = Fault.
Proof.
  intros s.
  assert (elements 2 s = Some [1; 2; 3; 4; 5]) as He by (vm_compute; reflexivity).
  split; [exact He|].
  destruct (first_and_last 4 four_pos s 2 _ five_WF He) as (Hfirst & Hlast & _).
  split; [by apply (Hfirst 1 [2; 3; 4; 5])|].
  split; [by apply (Hlast 5 [1; 2; 3; 4])|].
  assert (elements 0 (Lariat_new (T:=Z) 4 10) = Some []) as He0 by reflexivity.
  destruct (first_and_last 4 four_pos (Lariat_new 4 10) 0 _
              (reachable_WF 4 0 four_pos _ (reach_new 4 0 10)) He0) as (_ & _ & Hempty).
  by apply Hempty.
Defined.

Lemma inserted_value_reads_back_witness :
  let s := after 4 0 3 (PushBack ∘ Outside <$> [1; 2; 3; 4; 5]) (Lariat_new 4 10) in
  elements 2 s = Some [1; 2; 3; 4; 5]
  ∧ ∃ s', insert 4 0 2 2 (Outside 99) s = Ok tt s'
    ∧ subscript_get 4 (Z.to_nat (nodecount_ s')) 2 s' = Ok 99 s'
    ∧ (2 = 0 → Lariat_first 4 s' = Ok 99 s')
    ∧ (2 = Z.of_nat (length [1; 2; 3; 4; 5]) → Lariat_last 4 s' = Ok 99 s').
Proof.
  intros s.
  assert (elements 2 s = Some [1; 2; 3; 4; 5]) as He by (vm_compute; reflexivity).
  split; [exact He|].
  apply (inserted_value_reads_back 4 0 four_pos s 2 _ 2 99 five_WF He);
    [simpl; lia|vm_compute; lia].
Defined.

Lemma find_first_occurrence_witness :
  let s := after 4 0 3 (PushBack ∘ Outside <$> [1; 2; 3; 4; 5]) (Lariat_new 4 10) in
  elements 2 s = Some [1; 2; 3; 4; 5]
  ∧ ∃ r, Lariat_find 4 3 4 s = Ok r s
    ∧ (((4 ∉ [1; 2; 3; 4; 5]) ∧ r = size_ s)
       ∨ (0 ≤ r < size_ s
          ∧ [1; 2; 3; 4; 5] !! Z.to_nat r = Some 4
          ∧ (∀ j, (j < Z.to_nat r)%nat → [1; 2; 3; 4; 5] !! j ≠ Some 4)
          ∧ subscript_get 4 2 r s = Ok 4 s)).
Proof.
  intros s.
  assert (elements 2 s = Some [1; 2; 3; 4; 5]) as He by (vm_compute; reflexivity).
  split; [exact He|].
  exact (find_first_occurrence 4 four_pos s 2 _ 4 five_WF He).
Defined.

Lemma bookkeeping_invariant_witness :
  let s := after 4 0 3 (PushBack ∘ Outside <$> [1; 2; 3; 4; 5]) (Lariat_new 4 10) in
  ∃ cs, counts 2 s = Some cs
    ∧ nodecount_ s = Z.of_nat (length cs)
    ∧ asize_ s = 4
    ∧ 0 ≤ size_ s
    ∧ (head_ s = None ↔ size_ s = 0)
    ∧ (tail_ s = None ↔ size_ s = 0).
Proof.
  intros s. apply (bookkeeping_invariant 4 0 four_pos s 2).
  - apply after_reachable, reach_new.
  - vm_compute. lia.
Defined.

Lemma calls_terminate_witness :
  let s := after 4 0 3 (PushBack ∘ Outside <$> [1; 2; 3; 4; 5]) (Lariat_new 4 10) in
  nodecount_ s = 2 ∧ exec 4 0 3 Compact s ≠ OutOfFuel.
Proof.
  intros s. split; [reflexivity|].
  apply (calls_terminate 4 0 four_pos s 3 Compact five_WF). vm_compute. lia.
Defined.

Lemma exceptions_raised_witness :
  let s := after 4 0 3 (PushBack ∘ Outside <$> [1; 2; 3; 4; 5]) (Lariat_new 4 10) in
  exec 4 0 3 (Insert 7 (Outside 99)) s = Throw (LariatException E_BAD_INDEX) s
  ∧ (LariatException E_BAD_INDEX = LariatException E_NO_MEMORY
     ∨ (LariatException E_BAD_INDEX = LariatException E_BAD_INDEX
        ∧ (7 < 0 ∨ size_ s < 7) ∧ s = s)).
Proof.
  intros s.
  assert (exec 4 0 3 (Insert 7 (Outside 99)) s = Throw (LariatException E_BAD_INDEX) s) as Hrun
    by (vm_compute; reflexivity).
  split; [exact Hrun|].
  exact (exceptions_raised 4 0 s 3 (Insert 7 (Outside 99)) _ s Hrun).
Defined.

Lemma push_back_pop_back_witness :
  let s := after 4 0 3 (PushBack ∘ Outside <$> [1; 2; 3; 4; 5]) (Lariat_new 4 10) in
  elements 2 s = Some [1; 2; 3; 4; 5]
  ∧ ∃ s1 s2, push_back 4 0 (Outside 6) s = Ok tt s1 ∧ pop_back s1 = Ok tt s2
    ∧ elements (Z.to_nat (nodecount_ s2)) s2 = Some [1; 2; 3; 4; 5]
    ∧ size_ s2 = size_ s
    ∧ WF 4 s2.
Proof.
  intros s.
  assert (elements 2 s = Some [1; 2; 3; 4; 5]) as He by (vm_compute; reflexivity).
  split; [exact He|].
  apply (push_back_pop_back 4 0 four_pos s 2 _ (Outside 6) 6 five_WF He);
    [reflexivity|vm_compute; lia].
Defined.

Lemma compact_twice_witness :
  let s := after 4 0 3 (PushBack ∘ Outside <$> [1; 2; 3; 4; 5; 6; 7]) (Lariat_new 4 10) in
  counts 2 s = Some [3; 4]
  ∧ ∃ s1 s2, compact 4 3 s = Ok tt s1
    ∧ compact 4 (S (Z.to_nat (nodecount_ s1))) s1 = Ok tt s2
    ∧ nodecount_ s2 = nodecount_ s1
    ∧ segments (Z.to_nat (nodecount_ s2)) s2 = segments (Z.to_nat (nodecount_ s1)) s1
    ∧ elements (Z.to_nat (nodecount_ s2)) s2 = Some [1; 2; 3; 4; 5; 6; 7].
Proof.
  intros s. split; [vm_compute; reflexivity|].
  apply (compact_twice 4 four_pos s 2).
  - apply (reachable_WF 4 0 four_pos), after_reachable, reach_new.
  - vm_compute. reflexivity.
Defined.

Lemma clear_empties_witness :
  let s := after 4 0 3 (PushBack ∘ Outside <$> [1; 2; 3; 4; 5]) (Lariat_new 4 10) in
  nodecount_ s = 2
  ∧ ∃ s', clear 3 s = Ok tt s'
    ∧ Lariat_destroy 3 s = Ok tt s'
    ∧ elements 0 s' = Some []
    ∧ size_ s' = 0 ∧ nodecount_ s' = 0 ∧ head_ s' = None ∧ tail_ s' = None
    ∧ avail s' = (Z.to_nat (nodecount_ s) + avail s)%nat
    ∧ WF 4 s'.
Proof.
  intros s. split; [reflexivity|].
  apply (clear_empties 4 s 3 five_WF). vm_compute. lia.
Defined.

Lemma self_assignment_empties_witness :
  let s := after 4 0 3 (PushBack ∘ Outside <$> [1; 2; 3; 4; 5]) (Lariat_new 4 10) in
  elements 2 s = Some [1; 2; 3; 4; 5]
  ∧ ∃ s', Lariat_assign 4 0 3 This s = Ok tt s'
    ∧ elements 0 s' = Some [] ∧ size_ s' = 0 ∧ WF 4 s'.
Proof.
  intros s. split; [vm_compute; reflexivity|].
  apply (self_assignment_empties 4 0 s 3 five_WF). vm_compute. lia.
Defined.

Lemma copy_constructor_witness :
  let rhs := after 4 0 3 (PushBack ∘ Outside <$> [1; 2; 3; 4; 5]) (Lariat_new 4 10) in
  elements 2 rhs = Some [1; 2; 3; 4; 5]
  ∧ ∃ s', Lariat_copy 4 0 (S (length [1; 2; 3; 4; 5] + 2)) (head_ rhs) rhs = Ok tt s'
    ∧ elements (Z.to_nat (nodecount_ s')) s' = Some [1; 2; 3; 4; 5]
    ∧ size_ s' = size_ rhs
    ∧ WF 4 s'
    ∧ segments 2 (set_heap (heap s') rhs) = segments 2 rhs.
Proof.
  intros rhs.
  assert (elements 2 rhs = Some [1; 2; 3; 4; 5]) as He by (vm_compute; reflexivity).
  split; [exact He|].
  apply (copy_constructor 4 0 four_pos rhs 2 _ five_WF He). vm_compute. lia.
Defined.

(** Two containers in one memory: [b] is a copy of [a = 1; 2; 3; 4; 5]
    that was then changed to [2; 3; 4; 5; 9]; [b = a] makes it
    [1; 2; 3; 4; 5] again. *)
Lemma assignment_copies_witness :
  let a := after 4 0 3 (PushBack ∘ Outside <$> [1; 2; 3; 4; 5]) (Lariat_new 4 10) in
  let b := match Lariat_copy 4 0 8 (head_ a) a with
           | Ok _ b0 => after 4 0 3 [PushBack (Outside 9); PopFront] b0
           | _ => a
           end in
  let a' := set_heap (heap b) a in
  elements 2 b = Some [2; 3; 4; 5; 9]
  ∧ elements 2 a' = Some [1; 2; 3; 4; 5]
  ∧ ∃ s', Lariat_assign 4 0 (S (Z.to_nat (nodecount_ b) + length [1; 2; 3; 4; 5] + 2))
            (Other (head_ a')) b = Ok tt s'
    ∧ elements (Z.to_nat (nodecount_ s')) s' = Some [1; 2; 3; 4; 5]
    ∧ size_ s' = size_ a'
    ∧ WF 4 s'
    ∧ segments 2 (set_heap (heap s') a') = segments 2 a'.
Proof.
  intros a b a'.
  assert (elements 2 a' = Some [1; 2; 3; 4; 5]) as He by (vm_compute; reflexivity).
  split; [vm_compute; reflexivity|]. split; [exact He|].
  refine (assignment_copies 4 0 four_pos b a'
            [(3%positive, mkLNode (Some 4%positive) None 2 [2; 3; 4; 4]);
             (4%positive, mkLNode None (Some 3%positive) 3 [4; 5; 9; 0])]
            [(1%positive, mkLNode (Some 2%positive) None 3 [1; 2; 3; 4]);
             (2%positive, mkLNode None (Some 1%positive) 2 [4; 5; 0; 0])]
            2 _ _ _ _ _ He _).
  - split; [|clear; repeat constructor; simpl; lia]. constructor.
    + apply NoDup_cons. split; [|apply NoDup_singleton].
      intros Hin%list_elem_of_singleton. discriminate.
    + repeat (constructor; [vm_compute; reflexivity|]). constructor.
    + clear. simpl. done.
    + vm_compute. reflexivity.
    + vm_compute. reflexivity.
    + clear. repeat constructor; simpl; lia.
    + vm_compute. reflexivity.
    + vm_compute. reflexivity.
    + vm_compute. reflexivity.
  - split; [|clear; repeat constructor; simpl; lia]. constructor.
    + apply NoDup_cons. split; [|apply NoDup_singleton].
      intros Hin%list_elem_of_singleton. discriminate.
    + repeat (constructor; [vm_compute; reflexivity|]). constructor.
    + clear. simpl. done.
    + vm_compute. reflexivity.
    + vm_compute. reflexivity.
    + clear. repeat constructor; simpl; lia.
    + vm_compute. reflexivity.
    + vm_compute. reflexivity.
    + vm_compute. reflexivity.
  - vm_compute. reflexivity.
  - intros x Hx Hin. simpl in Hx, Hin.
    apply elem_of_cons in Hx as [->|Hx%list_elem_of_singleton];
      apply elem_of_cons in Hin as [Hin|Hin%list_elem_of_singleton]; subst; discriminate.
  - vm_compute. lia.
Defined.

Lemma no_node_leaked_witness :
  let s := after 4 0 3 ((PushBack ∘ Outside <$> [1; 2; 3; 4; 5]) ++ [PopBack; PopBack; Compact])
             (Lariat_new 4 10) in
  nodecount_ s = 1 ∧ allocated s = nodecount_ s.
Proof.
  intros s. split; [reflexivity|].
  apply (no_node_leaked 4 0 four_pos s). apply after_reachable, reach_new.
Defined.

Lemma destructor_frees_all_witness :
  let s := after 4 0 3 (PushBack ∘ Outside <$> [1; 2; 3; 4; 5]) (Lariat_new 4 10) in
  nodecount_ s = 2 ∧ ∃ s', Lariat_destroy 3 s = Ok tt s' ∧ heap s' = ∅.
Proof.
  intros s. split; [reflexivity|].
  apply (destructor_frees_all 4 0 four_pos s 3).
  - apply after_reachable, reach_new.
  - vm_compute. lia.
Defined.
